(** * OmniSketch (omnisketch.c): a shallow embedding and its properties

    The development follows [omnisketch.c] function by function.  The
    sketch is a header followed by two parallel arrays, the buckets and
    their samples; the C code reaches both through the macros
    [SKETCH_BUCKET] and [SKETCH_SAMPLE], and so does the model.

    Conventions.
    - [uint32] fields and locals are [Z] reduced modulo [2^32]; [int32]
      ones are [Z] wrapped into [-2^31, 2^31) (PostgreSQL is built with
      [-fwrapv], signed arithmetic wraps).
    - The [int16]/[uint16] header fields and the per-bucket [sampleCount]
      and [maxIndex] are [nat]: the code only ever counts them up to
      [sampleSize], which is itself an [int16], so they never wrap.
    - The sample array is kept as one slot list per bucket (the slice
      [SKETCH_SAMPLE] points to); every access in the code is [sample[k]]
      with [k] below [sampleSize].
    - [XXH32] belongs to libxxhash, not to this repository: the general
      development takes it as a section variable; module [xxhash] gives
      the function itself for the executable examples.
    - The sizing block of [omnisketch_add] is computed in [double]:
      [omnisketch_add] takes the four integers it yields as its [sizing]
      argument, and module [Sizing] gives the block itself in exact real
      arithmetic. *)

From Stdlib Require Import ZArith Lia.
From Stdlib Require Reals Lra.
From stdpp Require Import base numbers list gmap sorting.

(** ** Machine integers *)

Definition uint32 (x : Z) : Z := (x mod 2 ^ 32)%Z.

Definition int32 (x : Z) : Z := ((x + 2 ^ 31) mod 2 ^ 32 - 2 ^ 31)%Z.

Definition INT32_MAX : Z := (2 ^ 31 - 1)%Z.

(** ** XXH32 on a four-byte little-endian input (libxxhash) *)

Module xxhash.

Definition PRIME32_1 : Z := 0x9E3779B1%Z.
Definition PRIME32_2 : Z := 0x85EBCA77%Z.
Definition PRIME32_3 : Z := 0xC2B2AE3D%Z.
Definition PRIME32_4 : Z := 0x27D4EB2F%Z.
Definition PRIME32_5 : Z := 0x165667B1%Z.

Definition XXH_rotl32 (x : Z) (r : Z) : Z :=
  uint32 (Z.lor (Z.shiftl x r) (Z.shiftr x (32 - r))).

Definition XXH32_avalanche (h : Z) : Z :=
  let h := Z.lxor h (Z.shiftr h 15) in
  let h := uint32 (h * PRIME32_2) in
  let h := Z.lxor h (Z.shiftr h 13) in
  let h := uint32 (h * PRIME32_3) in
  Z.lxor h (Z.shiftr h 16).

(** [XXH32 v seed] is [XXH32(&v, sizeof(uint32), seed)] for a 32-bit [v]
    on a little-endian machine: the short-input path of the algorithm
    (length below 16), one four-byte lane, then the avalanche. *)
Definition XXH32 (v seed : Z) : Z :=
  let h := uint32 (uint32 seed + PRIME32_5) in
  let h := uint32 (h + 4) in
  let h := uint32 (h + uint32 v * PRIME32_3) in
  let h := uint32 (XXH_rotl32 h 17 * PRIME32_4) in
  XXH32_avalanche h.

End xxhash.

(** ** Data model *)

(** [bucket_t] *)
Record bucket_t := mk_bucket {
  totalCount : Z;      (* uint32 *)
  sampleCount : nat;   (* uint16 *)
  maxIndex : nat;      (* uint16 *)
  maxHash : Z;         (* uint32 *)
  isSorted : bool
}.

(** [omnisketch_t], followed by its payload.  [vl_len_] is left out: it
    is the length of the value, a function of the four dimensions. *)
Record omnisketch_t := mk_sketch {
  flags : Z;
  numSketches : nat;
  sketchWidth : nat;
  sketchHeight : nat;
  sampleSize : nat;
  itemSize : Z;
  count : Z;           (* int32 *)
  seed : Z;            (* uint32 *)
  buckets : list bucket_t;
  samples : list (list Z)   (* int32 slots, [sampleSize] per bucket *)
}.

(** [item_hash_t] *)
Record item_hash_t := mk_item_hash { item : Z; hash : Z }.

(** [item_list_t] *)
Record item_list_t := mk_item_list { nitems : nat; items : list Z }.

Global Instance bucket_t_inhabited : Inhabited bucket_t :=
  populate (mk_bucket 0 0 0 0 false).
Global Instance item_hash_t_inhabited : Inhabited item_hash_t :=
  populate (mk_item_hash 0 0).

Global Instance bucket_t_eq_dec : EqDecision bucket_t.
Proof. solve_decision. Defined.
Global Instance omnisketch_t_eq_dec : EqDecision omnisketch_t.
Proof. solve_decision. Defined.
Global Instance item_hash_t_eq_dec : EqDecision item_hash_t.
Proof. solve_decision. Defined.

(** Field updates, one per assignment form the code uses. *)
Definition set_totalCount (b : bucket_t) (v : Z) : bucket_t :=
  mk_bucket v (sampleCount b) (maxIndex b) (maxHash b) (isSorted b).
Definition set_sampleCount (b : bucket_t) (v : nat) : bucket_t :=
  mk_bucket (totalCount b) v (maxIndex b) (maxHash b) (isSorted b).
Definition set_maxIndex (b : bucket_t) (v : nat) : bucket_t :=
  mk_bucket (totalCount b) (sampleCount b) v (maxHash b) (isSorted b).
Definition set_maxHash (b : bucket_t) (v : Z) : bucket_t :=
  mk_bucket (totalCount b) (sampleCount b) (maxIndex b) v (isSorted b).
Definition set_isSorted (b : bucket_t) (v : bool) : bucket_t :=
  mk_bucket (totalCount b) (sampleCount b) (maxIndex b) (maxHash b) v.

Definition set_count (s : omnisketch_t) (v : Z) : omnisketch_t :=
  mk_sketch (flags s) (numSketches s) (sketchWidth s) (sketchHeight s)
    (sampleSize s) (itemSize s) v (seed s) (buckets s) (samples s).

(** Stores through the pointers returned by [SKETCH_BUCKET] and
    [SKETCH_SAMPLE]. *)
Definition set_cell (s : omnisketch_t) (idx : nat)
    (b : bucket_t) (sample : list Z) : omnisketch_t :=
  mk_sketch (flags s) (numSketches s) (sketchWidth s) (sketchHeight s)
    (sampleSize s) (itemSize s) (count s) (seed s)
    (<[idx := b]> (buckets s)) (<[idx := sample]> (samples s)).

Definition SKETCH_SIZE (s : omnisketch_t) : nat :=
  sketchWidth s * sketchHeight s.

Definition SKETCH_BUCKET_INDEX (s : omnisketch_t) (a i j : nat) : nat :=
  a * SKETCH_SIZE s + i * sketchWidth s + j.

Definition SKETCH_BUCKET (s : omnisketch_t) (a i j : nat) : bucket_t :=
  buckets s !!! SKETCH_BUCKET_INDEX s a i j.

Definition SKETCH_SAMPLE (s : omnisketch_t) (a i j : nat) : list Z :=
  samples s !!! SKETCH_BUCKET_INDEX s a i j.

Definition SKETCH_SEED : Z := 0xFFFFFFFF%Z.

(** Outcomes of the SQL-callable functions: a value, or [elog(ERROR)]. *)
Inductive error :=
  | ColumnMismatch      (* number of record attributes mismatches sketch *)
  | SketchMismatch      (* sketches do not match *)
  | NotAggregateContext (* omnisketch_combine called in non-aggregate context *)
  | NullPointer.        (* dereference of a NULL item list *)

Inductive result (A : Type) :=
  | Ok (a : A)
  | Err (e : error).
Arguments Ok {A} a.
Arguments Err {A} e.

Global Instance error_eq_dec : EqDecision error.
Proof. solve_decision. Defined.
Global Instance result_eq_dec {A} `{EqDecision A} : EqDecision (result A).
Proof. solve_decision. Defined.

(** One attribute of the record argument after [heap_deform_tuple]:
    dropped, NULL, or a value, given by the 64-bit result of its type's
    extended hash function. *)
Inductive attribute :=
  | Dropped
  | Null
  | Value (h : Z).

(** What the floating-point block of [omnisketch_add] hands to
    [omnisketch_allocate]. *)
Record sizing := mk_sizing { sz_w : nat; sz_d : nat; sz_B : nat; sz_b : Z }.

Section Sketch.

(** [XXH32 v seed] stands for [XXH32(&v, sizeof(uint32), seed)]. *)
Variable XXH32 : Z -> Z -> Z.

Definition SKETCH_HASH (v s : Z) : Z := uint32 (XXH32 (uint32 v) (uint32 s)).

(** ** Assertion checks (compiled in under [USE_ASSERT_CHECKING]) *)

Definition AssertCheckBucketBasic (sketch : omnisketch_t) (bucket : bucket_t) : bool :=
  (Z.of_nat (sampleCount bucket) <=? totalCount bucket)%Z
  && (totalCount bucket <=? uint32 (count sketch))%Z
  && (sampleCount bucket <=? sampleSize sketch)
  && (maxIndex bucket <=? sampleCount bucket).

(** The loop of [AssertCheckBucket] over the sample. *)
Definition check_items (bucket : bucket_t) (sample : list Z) : bool :=
  forallb (fun i =>
    let x := sample !!! i in
    let x_prev := sample !!! (i - 1) in
    let h := SKETCH_HASH x SKETCH_SEED in
    let h_prev := SKETCH_HASH x_prev SKETCH_SEED in
    (h <=? maxHash bucket)%Z
    && (if (0 <? i) && isSorted bucket then
          (h_prev <? h)%Z || ((h =? h_prev)%Z && (x_prev <? x)%Z)
        else if 0 <? i then negb (x =? x_prev)%Z
        else true))
    (seq 0 (sampleCount bucket)).

Definition AssertCheckBucket (sketch : omnisketch_t) (bucket : bucket_t)
    (sample : list Z) : bool :=
  AssertCheckBucketBasic sketch bucket
  && negb ((sampleCount bucket =? 0) && (0 <? totalCount bucket)%Z)
  && (if sampleCount bucket =? 0 then true
      else
        (maxIndex bucket <? sampleCount bucket)
        && Z.eqb (maxHash bucket) (SKETCH_HASH (sample !!! maxIndex bucket) SKETCH_SEED)
        && (negb (isSorted bucket) || (maxIndex bucket =? sampleCount bucket - 1))
        && check_items bucket sample).

(** The sum [AssertCheckSketch] accumulates for row [i] of sketch [a]. *)
Definition row_count (sketch : omnisketch_t) (a i : nat) : Z :=
  fold_left (fun cnt j => (cnt + totalCount (SKETCH_BUCKET sketch a i j))%Z)
    (seq 0 (sketchWidth sketch)) 0%Z.

Definition AssertCheckSketch (sketch : omnisketch_t) : bool :=
  forallb (fun a =>
    forallb (fun i =>
      forallb (fun j => AssertCheckBucketBasic sketch (SKETCH_BUCKET sketch a i j))
        (seq 0 (sketchWidth sketch))
      && (count sketch =? row_count sketch a i)%Z)
      (seq 0 (sketchHeight sketch)))
    (seq 0 (numSketches sketch)).

(** ** Allocation *)

(** [palloc0] zeroes the payload; [prng] is the value drawn from
    [pg_prng_uint32]. *)
Definition omnisketch_allocate (nsketches width height sampleSize : nat)
    (itemSize : Z) (prng : Z) : omnisketch_t :=
  mk_sketch 0 nsketches width height sampleSize itemSize 0 (uint32 prng)
    (replicate (nsketches * width * height) (mk_bucket 0 0 0 0 false))
    (replicate (nsketches * width * height) (replicate sampleSize 0%Z)).

(** ** Adding an item to a bucket sample *)

(** The rescan of the sample after the current maximum was replaced. *)
Definition rescan_max (bucket : bucket_t) (sample : list Z) : bucket_t :=
  fold_left (fun b k =>
      let h := SKETCH_HASH (sample !!! k) SKETCH_SEED in
      if Z.leb (maxHash b) h then set_maxIndex (set_maxHash b h) k else b)
    (seq 0 (sampleCount bucket)) (set_maxHash bucket 0).

Definition omnisketch_sample_add (sketch : omnisketch_t) (bucket : bucket_t)
    (sample : list Z) (item : Z) : bucket_t * list Z :=
  let h := SKETCH_HASH item SKETCH_SEED in
  if sampleCount bucket <? sampleSize sketch then
    let bucket1 :=
      if sampleCount bucket =? 0 then set_maxHash (set_maxIndex bucket 0) h
      else if (maxHash bucket <? h)%Z
           then set_maxHash (set_maxIndex bucket (sampleCount bucket)) h
           else bucket in
    (set_sampleCount bucket1 (S (sampleCount bucket1)),
     <[sampleCount bucket1 := int32 item]> sample)
  else if (h <? maxHash bucket)%Z then
    let sample1 := <[maxIndex bucket := int32 item]> sample in
    (rescan_max bucket sample1, sample1)
  else (bucket, sample).

(** ** Adding a record *)

Definition add_hash_row (column : nat) (hash : Z) (item : Z)
    (sketch : omnisketch_t) (i : nat) : omnisketch_t :=
  let h := SKETCH_HASH hash (Z.of_nat i) in
  let j := Z.to_nat (h mod Z.of_nat (sketchWidth sketch)) in
  let idx := SKETCH_BUCKET_INDEX sketch column i j in
  let bucket := SKETCH_BUCKET sketch column i j in
  let sample := SKETCH_SAMPLE sketch column i j in
  let bucket := set_totalCount bucket (uint32 (totalCount bucket + 1)) in
  let '(bucket, sample) := omnisketch_sample_add sketch bucket sample item in
  set_cell sketch idx bucket sample.

Definition omnisketch_add_hash (sketch : omnisketch_t) (column : nat)
    (hash : Z) (item : Z) : omnisketch_t :=
  fold_left (add_hash_row column hash item) (seq 0 (sketchHeight sketch)) sketch.

(** The attribute loop of [omnisketch_add]. *)
Definition add_attribute (id : Z) (sketch : omnisketch_t)
    (ia : nat * attribute) : omnisketch_t :=
  match ia.2 with
  | Dropped => sketch
  | Null => omnisketch_add_hash sketch ia.1 0 id
  | Value v => omnisketch_add_hash sketch ia.1 (uint32 v) id
  end.

Definition omnisketch_add (state : option omnisketch_t) (sz : sizing)
    (prng : Z) (record : list attribute) : result omnisketch_t :=
  let ncolumns := length record in
  let sketch :=
    match state with
    | None => omnisketch_allocate ncolumns (sz_w sz) (sz_d sz) (sz_B sz) (sz_b sz) prng
    | Some s => s
    end in
  if negb (numSketches sketch =? ncolumns) then Err ColumnMismatch
  else
    let sketch := set_count sketch (int32 (count sketch + 1)) in
    let id := uint32 (XXH32 (uint32 (count sketch)) (seed sketch)) in
    Ok (fold_left (add_attribute id) (zip (seq 0 ncolumns) record) sketch).

(** ** Sorting a sample *)

Definition cmp_item_hash (ia ib : item_hash_t) : Z :=
  if (hash ia <? hash ib)%Z then (-1)%Z
  else if (hash ib <? hash ia)%Z then 1%Z
  else if (item ia <? item ib)%Z then (-1)%Z
  else if (item ib <? item ia)%Z then 1%Z
  else 0%Z.

(** [pg_qsort] is PostgreSQL's library sort.  It is modelled by a sort
    under "[cmp a b <= 0]"; [cmp_item_hash] is a total order whose ties
    are equal elements, so every sorting algorithm returns the same array
    (lemma [pg_qsort_unique] below). *)
Definition pg_qsort {A} (cmp : A -> A -> Z) (l : list A) : list A :=
  @merge_sort A (fun a b => (cmp a b <= 0)%Z) (fun a b => Z.le_dec (cmp a b) 0%Z) l.

Definition omnisketch_sorted_items (bucket : bucket_t) (items : list Z)
    : list item_hash_t :=
  let sorted :=
    (fun k => mk_item_hash (items !!! k) (SKETCH_HASH (items !!! k) SKETCH_SEED))
      <$> seq 0 (sampleCount bucket) in
  if isSorted bucket then sorted else pg_qsort cmp_item_hash sorted.

(** ** Loops over all buckets *)

(** [for (a < na) for (i < ni) for (j < nj) body]. *)
Definition for_each_bucket {S} (na ni nj : nat)
    (body : S -> nat -> nat -> nat -> S) (s : S) : S :=
  fold_left (fun s a =>
    fold_left (fun s i =>
      fold_left (fun s j => body s a i j) (seq 0 nj) s)
      (seq 0 ni) s)
    (seq 0 na) s.

(** ** Finalize *)

(** [for (l < sampleCount) sample[l] = items[l].item]. *)
Definition store_items (items : list item_hash_t) (n : nat) (sample : list Z) : list Z :=
  fold_left (fun smp l => <[l := item (items !!! l)]> smp) (seq 0 n) sample.

Definition finalize_bucket (sketch : omnisketch_t) (a i j : nat) : omnisketch_t :=
  let bucket := SKETCH_BUCKET sketch a i j in
  let sample := SKETCH_SAMPLE sketch a i j in
  if isSorted bucket then sketch
  else if 2 <=? sampleCount bucket then
    let items := omnisketch_sorted_items bucket sample in
    let sample := store_items items (sampleCount bucket) sample in
    let bucket := set_maxIndex bucket (sampleCount bucket - 1) in
    let bucket := set_isSorted bucket true in
    set_cell sketch (SKETCH_BUCKET_INDEX sketch a i j) bucket sample
  else sketch.

Definition omnisketch_finalize (sketch : omnisketch_t) : omnisketch_t :=
  for_each_bucket (numSketches sketch) (sketchHeight sketch) (sketchWidth sketch)
    finalize_bucket sketch.

(** ** Combine *)

Definition omnisketch_equals (a b : omnisketch_t) : bool :=
  (numSketches a =? numSketches b)
  && (sketchHeight a =? sketchHeight b)
  && (sketchWidth a =? sketchWidth b)
  && (sampleSize a =? sampleSize b)
  && (itemSize a =? itemSize b)%Z.

(** [memcpy] of the whole value. *)
Definition omnisketch_copy (sketch : omnisketch_t) : omnisketch_t := sketch.

(** The [while] loop of [omnisketch_merge_buckets]; the state is
    [(i, j, k)], the destination sample and the destination [maxHash].
    [k] grows by one in every iteration and the loop stops at
    [k = sampleSize], so [fuel = sampleSize] iterations are all the loop
    can make. *)
Fixpoint merge_loop (fuel : nat) (dst_items src_items : list item_hash_t)
    (n_dst n_src sampleSize : nat) (i j k : nat)
    (dst_sample : list Z) (max_hash : Z) : nat * list Z * Z :=
  match fuel with
  | 0 => (k, dst_sample, max_hash)
  | S fuel =>
    if (k <? sampleSize) && ((i <? n_dst) || (j <? n_src)) then
      if i =? n_dst then
        merge_loop fuel dst_items src_items n_dst n_src sampleSize i (S j) (S k)
          (<[k := item (src_items !!! j)]> dst_sample) (hash (src_items !!! j))
      else if j =? n_src then
        merge_loop fuel dst_items src_items n_dst n_src sampleSize (S i) j (S k)
          (<[k := item (dst_items !!! i)]> dst_sample) (hash (dst_items !!! i))
      else if (0 <? cmp_item_hash (dst_items !!! i) (src_items !!! j))%Z then
        merge_loop fuel dst_items src_items n_dst n_src sampleSize i (S j) (S k)
          (<[k := item (src_items !!! j)]> dst_sample) (hash (src_items !!! j))
      else
        merge_loop fuel dst_items src_items n_dst n_src sampleSize (S i) j (S k)
          (<[k := item (dst_items !!! i)]> dst_sample) (hash (dst_items !!! i))
    else (k, dst_sample, max_hash)
  end.

Definition omnisketch_merge_buckets (dst_bucket src_bucket : bucket_t)
    (dst_sample src_sample : list Z) (sampleSize : nat) : bucket_t * list Z :=
  if sampleCount src_bucket =? 0 then (dst_bucket, dst_sample)
  else
    let dst_items := omnisketch_sorted_items dst_bucket dst_sample in
    let src_items := omnisketch_sorted_items src_bucket src_sample in
    let '(k, dst_sample, max_hash) :=
      merge_loop sampleSize dst_items src_items
        (sampleCount dst_bucket) (sampleCount src_bucket) sampleSize 0 0 0
        dst_sample (maxHash dst_bucket) in
    (mk_bucket (uint32 (totalCount dst_bucket + totalCount src_bucket))
       k (k - 1) max_hash true,
     dst_sample).

(** The body of the bucket loop of [omnisketch_combine]. *)
Definition combine_bucket (src : omnisketch_t) (dst : omnisketch_t)
    (a i j : nat) : omnisketch_t :=
  let '(bucket, sample) :=
    omnisketch_merge_buckets
      (SKETCH_BUCKET dst a i j) (SKETCH_BUCKET src a i j)
      (SKETCH_SAMPLE dst a i j) (SKETCH_SAMPLE src a i j)
      (sampleSize dst) in
  set_cell dst (SKETCH_BUCKET_INDEX dst a i j) bucket sample.

(** The merge of [omnisketch_combine] when [dst] and [src] are two
    different objects. *)
Definition combine_sketches (dst src : omnisketch_t) : omnisketch_t :=
  let dst :=
    for_each_bucket (numSketches src) (sketchHeight src) (sketchWidth src)
      (combine_bucket src) dst in
  set_count dst (int32 (count dst + count src)).

(** [omnisketch_combine] on a store of sketches: the arguments are
    nullable pointers, the first one is updated in place. *)
Definition combine_at (pd ps : positive) (h : gmap positive omnisketch_t)
    (a i j : nat) : gmap positive omnisketch_t :=
  match h !! pd, h !! ps with
  | Some dst, Some src => <[pd := combine_bucket src dst a i j]> h
  | _, _ => h
  end.

Definition add_count_at (pd ps : positive) (h : gmap positive omnisketch_t)
    : gmap positive omnisketch_t :=
  match h !! pd, h !! ps with
  | Some dst, Some src => <[pd := set_count dst (int32 (count dst + count src))]> h
  | _, _ => h
  end.

Definition omnisketch_combine (in_aggregate : bool)
    (h : gmap positive omnisketch_t) (arg0 arg1 : option positive)
    : result (option positive * gmap positive omnisketch_t) :=
  if negb in_aggregate then Err NotAggregateContext
  else
    match arg0, arg1 with
    | None, None => Ok (None, h)
    | None, Some p1 =>
        match h !! p1 with
        | Some src =>
            let p := fresh (dom h) in
            Ok (Some p, <[p := omnisketch_copy src]> h)
        | None => Err NullPointer
        end
    | Some p0, None => Ok (Some p0, h)
    | Some p0, Some p1 =>
        match h !! p0, h !! p1 with
        | Some dst, Some src =>
            if negb (omnisketch_equals src dst) then Err SketchMismatch
            else
              let h :=
                for_each_bucket (numSketches src) (sketchHeight src)
                  (sketchWidth src) (combine_at p0 p1) h in
              Ok (Some p0, add_count_at p0 p1 h)
        | _, _ => Err NullPointer
        end
    end.

Definition omnisketch_count (sketch : omnisketch_t) : Z := count sketch.

(** ** Estimate *)

(** The [while] loop of [intersect_items]; [i + j] grows in every
    iteration, so [nitems + n] iterations are all the loop can make. *)
Fixpoint intersect_loop (fuel : nat) (nitems n : nat) (tmp : list Z)
    (i j k : nat) (its : list Z) : nat * list Z :=
  match fuel with
  | 0 => (k, its)
  | S fuel =>
    if (i <? nitems) && (j <? n) then
      if Z.eqb (its !!! i) (tmp !!! j) then
        intersect_loop fuel nitems n tmp (S i) (S j) (S k) (<[k := its !!! i]> its)
      else
        let h1 := SKETCH_HASH (its !!! i) SKETCH_SEED in
        let h2 := SKETCH_HASH (tmp !!! j) SKETCH_SEED in
        if (h1 <? h2)%Z then intersect_loop fuel nitems n tmp (S i) j k its
        else intersect_loop fuel nitems n tmp i (S j) k its
    else (k, its)
  end.

Definition intersect_items (il : item_list_t) (n : nat) (tmp : list Z) : item_list_t :=
  let '(k, its) := intersect_loop (nitems il + n) (nitems il) n tmp 0 0 0 (items il) in
  mk_item_list k its.

Definition column_estimate_row (sketch : omnisketch_t) (column : nat) (hash : Z)
    (st : Z * option item_list_t) (i : nat) : Z * option item_list_t :=
  let h := SKETCH_HASH hash (Z.of_nat i) in
  let j := Z.to_nat (h mod Z.of_nat (sketchWidth sketch)) in
  let bucket := SKETCH_BUCKET sketch column i j in
  let sample := SKETCH_SAMPLE sketch column i j in
  let maxcnt := if (st.1 <? totalCount bucket)%Z then totalCount bucket else st.1 in
  match st.2 with
  | None => (maxcnt, Some (mk_item_list (sampleCount bucket) (take (sampleCount bucket) sample)))
  | Some il => (maxcnt, Some (intersect_items il (sampleCount bucket) sample))
  end.

Definition omnisketch_column_estimate (sketch : omnisketch_t) (column : nat)
    (hash : Z) (st : Z * option item_list_t) : Z * option item_list_t :=
  fold_left (column_estimate_row sketch column hash) (seq 0 (sketchHeight sketch)) st.

Definition estimate_attribute (sketch : omnisketch_t)
    (st : Z * option item_list_t) (ia : nat * attribute) : Z * option item_list_t :=
  match ia.2 with
  | Dropped => st
  | Null => omnisketch_column_estimate sketch ia.1 0 st
  | Value v => omnisketch_column_estimate sketch ia.1 (uint32 v) st
  end.

(** [est = maxcnt / sketch->sampleSize * items->nitems] is evaluated on
    [int64] operands, left to right, before the conversion to [double];
    all values stay below [2^53], so both conversions are exact. *)
Definition omnisketch_estimate (state : option omnisketch_t)
    (record : list attribute) : result (option Z) :=
  let ncolumns := length record in
  match state with
  | None => Ok None
  | Some sketch =>
    if negb (numSketches sketch =? ncolumns) then Err ColumnMismatch
    else
      let st := fold_left (estimate_attribute sketch)
                  (zip (seq 0 ncolumns) record) (0%Z, None) in
      match st.2 with
      | None => Err NullPointer
      | Some il =>
          Ok (Some (Z.quot st.1 (Z.of_nat (sampleSize sketch)) * Z.of_nat (nitems il))%Z)
      end
  end.

End Sketch.

(** ** The reading of the specification, for comparison with the code *)

Section Specification.

Variable XXH32 : Z -> Z -> Z.

(** The cells a query visits: for every column [c] with hash [x_c] and
    every row [r], the cell [(c, r, H_r(x_c, r) mod W)]. *)
Definition visited_cells (sketch : omnisketch_t) (column_hashes : list Z)
    : list (bucket_t * list Z) :=
  c ← zip (seq 0 (length column_hashes)) column_hashes;
  r ← seq 0 (sketchHeight sketch);
  let j := Z.to_nat (SKETCH_HASH XXH32 c.2 (Z.of_nat r) mod Z.of_nat (sketchWidth sketch)) in
  [(SKETCH_BUCKET sketch c.1 r j, SKETCH_SAMPLE sketch c.1 r j)].

(** The IDs a cell stores. *)
Definition stored_ids (cell : bucket_t * list Z) : list Z :=
  take (sampleCount cell.1) cell.2.

(** [max_count]: the largest [total_count] among the visited cells. *)
Definition spec_max_count (cells : list (bucket_t * list Z)) : Z :=
  foldr (fun cell m => Z.max (totalCount cell.1) m) 0%Z cells.

(** The candidate set: the first visited cell's sample, intersected by
    ID equality with the sample of every later cell. *)
Definition spec_candidates (cells : list (bucket_t * list Z)) : list Z :=
  match cells with
  | [] => []
  | first :: later =>
      fold_left (fun cand cell => filter (fun id => bool_decide (id ∈ stored_ids cell)) cand)
        later (stored_ids first)
  end.

(** The estimate as the specification gives it:
    floor (max_count * |candidates| / B). *)
Definition spec_estimate (sketch : omnisketch_t) (column_hashes : list Z) : Z :=
  let cells := visited_cells sketch column_hashes in
  (spec_max_count cells * Z.of_nat (length (spec_candidates cells))
   / Z.of_nat (sampleSize sketch))%Z.

(** The order on IDs of the specification: by [(H_s(id), id)]. *)
Definition id_lt (x y : Z) : Prop :=
  (SKETCH_HASH XXH32 x SKETCH_SEED < SKETCH_HASH XXH32 y SKETCH_SEED
   \/ (SKETCH_HASH XXH32 x SKETCH_SEED = SKETCH_HASH XXH32 y SKETCH_SEED /\ x < y))%Z.

Definition id_le (x y : Z) : Prop := id_lt x y \/ x = y.

Global Instance id_lt_dec : RelDecision id_lt.
Proof. intros x y. unfold id_lt. apply _. Defined.

Global Instance id_le_dec : RelDecision id_le.
Proof. intros x y. unfold id_le. apply _. Defined.

End Specification.

(** Instance search takes the two orders as they are named. *)
#[global] Typeclasses Opaque id_lt id_le.

(** ** Invariants and views used in the proofs *)

(** The order [cmp_item_hash] sorts by. *)
Definition item_hash_le : relation item_hash_t :=
  fun a b => (cmp_item_hash a b <= 0)%Z.

Global Instance item_hash_le_dec : RelDecision item_hash_le :=
  fun a b => Z.le_dec (cmp_item_hash a b) 0%Z.

(** The buckets of a sketch, each with its sample. *)
Definition cells (s : omnisketch_t) : list (bucket_t * list Z) :=
  zip (buckets s) (samples s).

(** The payload has one bucket and one sample per cell. *)
Definition shape_ok (s : omnisketch_t) : Prop :=
  length (buckets s) = numSketches s * (sketchHeight s * sketchWidth s)
  /\ length (samples s) = length (buckets s).

(** A sketch with another payload. *)
Definition with_cells (s : omnisketch_t) (cs : list (bucket_t * list Z)) : omnisketch_t :=
  mk_sketch (flags s) (numSketches s) (sketchWidth s) (sketchHeight s)
    (sampleSize s) (itemSize s) (count s) (seed s) (cs.*1) (cs.*2).

(** The header of [s'] is the header of [s]. *)
Definition same_header (s s' : omnisketch_t) : Prop :=
  flags s' = flags s /\ numSketches s' = numSketches s
  /\ sketchWidth s' = sketchWidth s /\ sketchHeight s' = sketchHeight s
  /\ sampleSize s' = sampleSize s /\ itemSize s' = itemSize s
  /\ count s' = count s /\ seed s' = seed s.

(** The hash of the last pair of [l], or [mh] when there is none. *)
Definition last_hash (mh : Z) (l : list item_hash_t) : Z :=
  default mh (hash <$> last l).

(** The cell that holds the list [l], in this order, and has counted [t]
    records. *)
Definition canon (B : nat) (t : Z) (l : list item_hash_t) (flag : bool)
    : bucket_t * list Z :=
  (mk_bucket t (length l) (length l - 1) (last_hash 0 l) flag,
   (item <$> l) ++ replicate (B - length l) 0%Z).

(** The flag of a bucket with fewer than two IDs says nothing. *)
Definition forget_short_flag (b : bucket_t) : bucket_t :=
  if sampleCount b <? 2 then set_isSorted b false else b.

Definition forget_cell (c : bucket_t * list Z) : bucket_t * list Z :=
  (forget_short_flag c.1, c.2).

(** A sketch up to its seed and the flags of such buckets. *)
Definition forget_seed_and_short_flags (s : omnisketch_t) : omnisketch_t :=
  mk_sketch (flags s) (numSketches s) (sketchWidth s) (sketchHeight s)
    (sampleSize s) (itemSize s) (count s) 0 (forget_short_flag <$> buckets s) (samples s).

(** A bucket that has counted a record holds an ID. *)
Definition nonempty_if_counted (b : bucket_t) : Prop :=
  (0 < totalCount b)%Z -> 0 < sampleCount b.

Definition never_empty (s : omnisketch_t) : Prop :=
  1 <= sampleSize s /\ Forall nonempty_if_counted (buckets s).

(** Every sketch of a store is never-empty. *)
Definition store_never_empty (h : gmap positive omnisketch_t) : Prop :=
  forall q s, h !! q = Some s -> never_empty s.

(** A bucket that holds an ID in [s] holds one in [s']. *)
Definition keeps_samples (s s' : omnisketch_t) : Prop :=
  forall k, 0 < sampleCount (buckets s !!! k) -> 0 < sampleCount (buckets s' !!! k).

(** Every sketch of the store [h] is still in [h'], with its samples kept. *)
Definition store_keeps (h h' : gmap positive omnisketch_t) : Prop :=
  forall q s, h !! q = Some s -> exists s', h' !! q = Some s' /\ keeps_samples s s'.

(** The loop of the sizing block runs at least once and stops at 1024. *)
Definition sizing_ok (sz : sizing) : Prop := 1 <= sz_B sz <= 1024.

Section Invariants.

Variable XXH32 : Z -> Z -> Z.

(** An ID with its [H_s]. *)
Definition with_hash (x : Z) : item_hash_t :=
  mk_item_hash x (SKETCH_HASH XXH32 x SKETCH_SEED).

(** The stored IDs of a cell, as the pairs that are sorted and merged. *)
Definition content (c : bucket_t * list Z) : list item_hash_t :=
  with_hash <$> stored_ids c.

(** Pairs that carry the hash of their item. *)
Definition hashed (l : list item_hash_t) : Prop :=
  Forall (fun x => x = with_hash (item x)) l.

(** What [omnisketch_finalize] does to one cell. *)
Definition finalize_cell (c : bucket_t * list Z) : bucket_t * list Z :=
  if isSorted c.1 then c
  else if 2 <=? sampleCount c.1 then
    (set_isSorted (set_maxIndex c.1 (sampleCount c.1 - 1)) true,
     store_items (omnisketch_sorted_items XXH32 c.1 c.2) (sampleCount c.1) c.2)
  else c.

(** What [omnisketch_combine] does to one pair of cells. *)
Definition merge_cell (B : nat) (d s : bucket_t * list Z) : bucket_t * list Z :=
  omnisketch_merge_buckets XXH32 d.1 s.1 d.2 s.2 B.

(** The bucket invariant: what [AssertCheckBucket] checks (without the
    bound by the sketch count, and with "in order" for "strictly in
    order"), and that the unused part of the bucket and of its sample is
    as [palloc0] left it. *)
Definition cell_wf (B : nat) (c : bucket_t * list Z) : Prop :=
  length c.2 = B
  /\ sampleCount c.1 <= B
  /\ drop (sampleCount c.1) c.2 = replicate (B - sampleCount c.1) 0%Z
  /\ (0 <= totalCount c.1 < 2 ^ 32)%Z
  /\ (sampleCount c.1 = 0 -> c.1 = mk_bucket 0 0 0 0 false)
  /\ (0 < sampleCount c.1 ->
        maxIndex c.1 < sampleCount c.1
        /\ maxHash c.1 = SKETCH_HASH XXH32 (c.2 !!! maxIndex c.1) SKETCH_SEED
        /\ Forall (fun x => (hash x <= maxHash c.1)%Z) (content c))
  /\ (isSorted c.1 = true ->
        Sorted item_hash_le (content c) /\ maxIndex c.1 = sampleCount c.1 - 1).

Global Instance cell_wf_dec B c : Decision (cell_wf B c).
Proof. unfold cell_wf. apply _. Defined.

(** The invariant of a sketch: the reserved word is zero, the sample size
    is positive, the payload has its shape, and every bucket satisfies the
    bucket invariant. *)
Definition sketch_wf (s : omnisketch_t) : Prop :=
  flags s = 0%Z /\ 1 <= sampleSize s /\ shape_ok s
  /\ Forall (cell_wf (sampleSize s)) (cells s).

Global Instance sketch_wf_dec s : Decision (sketch_wf s).
Proof. unfold sketch_wf, shape_ok. apply _. Defined.

(** What any grouping of three merges leaves in a cell after finalize, up
    to the flag of a short sample. *)
Definition bottom3 (B : nat) (a b c : bucket_t * list Z) : bucket_t * list Z :=
  let l := take B (pg_qsort cmp_item_hash (content a ++ content b ++ content c)) in
  canon B (uint32 (totalCount a.1 + totalCount b.1 + totalCount c.1)) l (2 <=? length l).

(** Sketches that a sequence of add, combine and finalize calls can
    produce.  Combine runs on a store all of whose sketches are
    reachable; its result is the sketch the returned pointer names. *)
Inductive reachable : omnisketch_t -> Prop :=
  | reach_first sz prng record s :
      sizing_ok sz ->
      omnisketch_add XXH32 None sz prng record = Ok s ->
      reachable s
  | reach_add s sz prng record s' :
      reachable s ->
      omnisketch_add XXH32 (Some s) sz prng record = Ok s' ->
      reachable s'
  | reach_combine (h h' : gmap positive omnisketch_t) arg0 arg1 p c :
      (forall q s, h !! q = Some s -> reachable s) ->
      omnisketch_combine XXH32 true h arg0 arg1 = Ok (Some p, h') ->
      h' !! p = Some c ->
      reachable c
  | reach_finalize s :
      reachable s ->
      reachable (omnisketch_finalize XXH32 s).

End Invariants.

(** Instance search does not look inside the invariants. *)
#[global] Typeclasses Opaque item_hash_le shape_ok cell_wf sketch_wf.

(** ** The configuration of the regression tests

    [omnisketch(0.01, 0.01, (a, b))]: two columns, and the sizing block
    gives [d = 6], [w = 7], [B = 1024], [b = 24]. *)

Module Regress.

Definition sz : sizing := mk_sizing 7 6 1024 24.

Definition H := xxhash.XXH32.

(** A record [(a, b)], given by the hashes of its two values. *)
Definition rec (ha hb : Z) : list attribute := [Value ha; Value hb].

Definition add (state : option omnisketch_t) (prng : Z) (r : list attribute)
    : option omnisketch_t :=
  match omnisketch_add H state sz prng r with
  | Ok s => Some s
  | Err _ => None
  end.

(** [n] further calls of the transition function on the same record. *)
Fixpoint add_n (n : nat) (state : option omnisketch_t) (prng : Z)
    (r : list attribute) : option omnisketch_t :=
  match n with
  | 0 => state
  | S n => add_n n (add state prng r) prng r
  end.

(** Combine two sketches held at addresses 1 and 2; returns the store and
    the result pointer. *)
Definition store2 (a b : omnisketch_t) : gmap positive omnisketch_t :=
  <[1%positive := a]> (<[2%positive := b]> ∅).

Definition combine (a b : option omnisketch_t) : option omnisketch_t :=
  match a, b with
  | Some a, Some b =>
      match omnisketch_combine H true (store2 a b) (Some 1%positive) (Some 2%positive) with
      | Ok (Some p, h) => h !! p
      | _ => None
      end
  | _, _ => None
  end.

Definition finalize (s : option omnisketch_t) : option omnisketch_t :=
  omnisketch_finalize H <$> s.

(** The cell of column [c], row [r] that value hash [x] maps to. *)
Definition cell_of (s : omnisketch_t) (c r : nat) (x : Z) : bucket_t * list Z :=
  let j := Z.to_nat (SKETCH_HASH H x (Z.of_nat r) mod Z.of_nat (sketchWidth s)) in
  (SKETCH_BUCKET s c r j, SKETCH_SAMPLE s c r j).

(** Two workers each aggregate one record [(1, 2)], the partial states
    are combined, one more record is added to the combined state, and the
    result is finalized.  In SQL: two sketches stored by
    [omnisketch(0.01, 0.01, (a, b))], merged by the aggregate
    [omnisketch(s)], then [omnisketch_add] and [omnisketch_finalize] called
    on the result; the final functions the aggregates run in between change
    nothing here (see the evaluations below). *)
Definition partial_a : option omnisketch_t := add None 2024 (rec 1 2).
Definition partial_b : option omnisketch_t := add None 2025 (rec 1 2).
Definition combined : option omnisketch_t := combine partial_a partial_b.
Definition combined_add : option omnisketch_t := add combined 0 (rec 1 2).
Definition combined_add_final : option omnisketch_t := finalize combined_add.

(** One hundred records [(1, 2)] aggregated into one sketch. *)
Definition hundred : option omnisketch_t :=
  finalize (add_n 100 None 2024 (rec 1 2)).

(** A record of a row type whose second attribute was dropped. *)
Definition dropped_second : option omnisketch_t := add None 2024 [Value 1; Dropped].

(** One record aggregated, then finalized. *)
Definition single_final : option omnisketch_t := finalize partial_a.

(** Three records [(1, 2)] aggregated into one sketch, not finalized. *)
Definition three : option omnisketch_t := add_n 3 None 2024 (rec 1 2).

(** Three workers aggregate one record each, (1, 2), (3, 4) and (5, 6);
    the partial states are combined in three groupings. *)
Definition worker_a : option omnisketch_t := add None 2024 (rec 1 2).
Definition worker_b : option omnisketch_t := add None 2025 (rec 3 4).
Definition worker_c : option omnisketch_t := add None 2026 (rec 5 6).
Definition grouped_left : option omnisketch_t :=
  finalize (combine (combine worker_a worker_b) worker_c).
Definition grouped_right : option omnisketch_t :=
  finalize (combine worker_a (combine worker_b worker_c)).
Definition grouped_rotated : option omnisketch_t :=
  finalize (combine (combine worker_c worker_a) worker_b).

(** The IDs a sketch has given to its records: [XXH32(n, seed)] for
    [n = 1 .. count]. *)
Definition record_ids (s : option omnisketch_t) : list Z :=
  match s with
  | Some s => (fun n => uint32 (H (Z.of_nat n) (seed s))) <$> seq 1 (Z.to_nat (count s))
  | None => []
  end.

(** Two workers aggregate [2^30] records each. *)
Definition large_a : option omnisketch_t := add_n (Z.to_nat (2 ^ 30)) None 2024 (rec 1 2).
Definition large_b : option omnisketch_t := add_n (Z.to_nat (2 ^ 30)) None 2025 (rec 1 2).

(** The sketch of a state that is known not to be NULL. *)
Definition get (s : option omnisketch_t) : omnisketch_t :=
  default (omnisketch_allocate 0 0 0 0 0 0) s.

(** [H_s] of an ID. *)
Definition H_s (id : Z) : Z := SKETCH_HASH H id SKETCH_SEED.

End Regress.

(** ** The aggregates and further invariants *)

Section Aggregates.

Variable XXH32 : Z -> Z -> Z.

(** The aggregate [omnisketch(eps, delta, record)] of
    [omnisketch--1.0.0.sql]: [omnisketch_add] is the transition function,
    run on every input row from the NULL state on; an error ends the
    statement. *)
Fixpoint aggregate_add (state : option omnisketch_t) (sz : sizing) (prng : Z)
    (rows : list (list attribute)) : result (option omnisketch_t) :=
  match rows with
  | [] => Ok state
  | row :: rows =>
      match omnisketch_add XXH32 state sz prng row with
      | Ok s => aggregate_add (Some s) sz prng rows
      | Err e => Err e
      end
  end.

(** [omnisketch_allocate] keeps the dimensions in [int16] fields and asks
    [palloc0] for the whole value, which fails above [MaxAllocSize] (1 GB
    less one byte).  Within these limits the model, which keeps the
    dimensions as [nat], is the code. *)
Definition allocate_fits (nsketches width height sampleSize : nat) (itemSize : Z)
    : Prop :=
  (Z.of_nat nsketches <= 32767 /\ Z.of_nat width <= 32767
   /\ Z.of_nat height <= 32767 /\ Z.of_nat sampleSize <= 32767)%Z
  /\ (- 32768 <= itemSize <= 32767)%Z
  /\ (32 + Z.of_nat (nsketches * width * height) * (16 + 4 * Z.of_nat sampleSize) + 16
      <= 0x3fffffff)%Z.

(** The same for the sketch [omnisketch_add] allocates on the first
    record, which also has to have a column for [h % sketchWidth]. *)
Definition sizing_fits (sz : sizing) (ncolumns : nat) : Prop :=
  0 < sz_w sz /\ allocate_fits ncolumns (sz_w sz) (sz_d sz) (sz_B sz) (sz_b sz).

(** The column [j = h % sketchWidth] that [omnisketch_add_hash] and
    [omnisketch_column_estimate] compute for a value hash in row [i]. *)
Definition bucket_column (s : omnisketch_t) (hash : Z) (i : nat) : nat :=
  Z.to_nat (SKETCH_HASH XXH32 hash (Z.of_nat i) mod Z.of_nat (sketchWidth s)).

(** The index of the cell of a value hash in row [i] of matrix [c]. *)
Definition cell_index (s : omnisketch_t) (c : nat) (hash : Z) (i : nat) : nat :=
  SKETCH_BUCKET_INDEX s c i (bucket_column s hash i).

(** What the body of the loop of [omnisketch_add_hash] does to the cell it
    picks: [totalCount++], then [omnisketch_sample_add] of the ID. *)
Definition count_and_offer (s : omnisketch_t) (it : Z) (c : bucket_t * list Z)
    : bucket_t * list Z :=
  omnisketch_sample_add XXH32 s
    (set_totalCount c.1 (uint32 (totalCount c.1 + 1))) c.2 it.

(** Strictly increasing hash: the order [intersect_items] relies on. *)
Definition hash_lt (x y : Z) : Prop :=
  (SKETCH_HASH XXH32 x SKETCH_SEED < SKETCH_HASH XXH32 y SKETCH_SEED)%Z.

(** What the body of the loop of [omnisketch_column_estimate] does with
    the cell it picks: the running maximum of the total counts, and the
    item list, copied from the first cell and intersected with the sample
    of every later one. *)
Definition estimate_step (st : Z * option item_list_t) (cell : bucket_t * list Z)
    : Z * option item_list_t :=
  let maxcnt := if (st.1 <? totalCount cell.1)%Z then totalCount cell.1 else st.1 in
  match st.2 with
  | None => (maxcnt, Some (mk_item_list (sampleCount cell.1) (take (sampleCount cell.1) cell.2)))
  | Some il => (maxcnt, Some (intersect_items XXH32 il (sampleCount cell.1) cell.2))
  end.

(** The bucket invariant without the order of the sample: the sample has
    [sampleSize] slots of which the first [sampleCount] are used and the
    others are zero, every slot is an [int32], and for a bucket that holds
    an ID the cached maximum is the hash of the ID at [maxIndex] and bounds
    the hash of every stored ID. *)
Definition cell_basic (B : nat) (c : bucket_t * list Z) : Prop :=
  length c.2 = B
  /\ sampleCount c.1 <= B
  /\ drop (sampleCount c.1) c.2 = replicate (B - sampleCount c.1) 0%Z
  /\ (0 < sampleCount c.1 ->
        maxIndex c.1 < sampleCount c.1
        /\ maxHash c.1 = SKETCH_HASH XXH32 (c.2 !!! maxIndex c.1) SKETCH_SEED
        /\ Forall (fun x => (SKETCH_HASH XXH32 x SKETCH_SEED <= maxHash c.1)%Z)
             (stored_ids c)).

Definition sketch_basic (s : omnisketch_t) : Prop :=
  1 <= sampleSize s /\ shape_ok s /\ Forall (cell_basic (sampleSize s)) (cells s).

Global Instance hash_lt_dec : RelDecision hash_lt.
Proof. intros x y. unfold hash_lt. apply _. Defined.

Global Instance cell_basic_dec B c : Decision (cell_basic B c).
Proof. unfold cell_basic. apply _. Defined.

Global Instance sketch_basic_dec s : Decision (sketch_basic s).
Proof. unfold sketch_basic, shape_ok. apply _. Defined.

End Aggregates.

#[global] Typeclasses Opaque hash_lt cell_basic sketch_basic.

(** Every row of every matrix sums to the count of the sketch (the sum
    [AssertCheckSketch] asserts), and no bucket count is negative. *)
Definition rows_sum_to_count (s : omnisketch_t) : Prop :=
  Forall (fun b => (0 <= totalCount b)%Z) (buckets s)
  /\ forall a i, a < numSketches s -> i < sketchHeight s ->
       row_count s a i = count s.

(** The local [element_hash] of [omnisketch_add] and [omnisketch_estimate]:
    0 for a NULL attribute, else the low 32 bits of the value's hash. *)
Definition element_hash (att : attribute) : Z :=
  match att with
  | Value v => uint32 v
  | _ => 0%Z
  end.

(** ** A small sketch *)

(** Five rows aggregated by [omnisketch(eps, delta, record)] into a sketch
    of width 3, depth 2 and samples of 2 IDs, then finalized. *)
Module Small.

Definition dims : sizing := mk_sizing 3 2 2 24.

Definition rows : list (list attribute) :=
  [[Value 1; Value 2]; [Value 1; Value 2]; [Value 1; Value 3];
   [Value 1; Value 2]; [Value 4; Value 2]].

Definition state : option omnisketch_t :=
  match aggregate_add Regress.H None dims 7 rows with
  | Ok s => s
  | Err _ => None
  end.

Definition sketch : omnisketch_t := Regress.get (Regress.finalize state).

End Small.

(** ** The sizing block of [omnisketch_add]

    [d], [w], [B] and [b] are computed in [double] with [log], [pow] and
    [ceil] of the C library.  The model computes them in exact real
    arithmetic ([ln], [Rpower], and the integer [ceil] below): it is the
    code wherever the rounding of [double] does not move a value across
    an integer. *)

Module Sizing.

Import Reals.
Local Open Scope R_scope.

(** [#define EULER_NUMBER 2.71828] *)
Definition EULER_NUMBER : R := 2.71828.

(** [ceil], as the integer it is converted to. *)
Definition ceil (x : R) : Z := (- Int_part (- x))%Z.

(** [d = ceil(log(2.0 / delta))] *)
Definition sizing_d (delta : R) : Z := ceil (ln (2 / delta)).

(** [w = 1.0 + ceil(EULER_NUMBER * pow((epsilon + 1.0) / epsilon, 1.0 / d))] *)
Definition sizing_w (epsilon : R) (d : Z) : Z :=
  (1 + ceil (EULER_NUMBER * Rpower ((epsilon + 1) / epsilon) (1 / IZR d)))%Z.

(** [b = ceil(log(4 * pow(B, 2.5) / delta))] *)
Definition sizing_b (delta : R) (B : Z) : Z :=
  ceil (ln (4 * Rpower (IZR B) 2.5 / delta)).

(** [while (b < 32 && B < 1024) { B += 1; b = ...; }]: [B] grows in every
    iteration, so 1024 iterations are all the loop can make from 0. *)
Fixpoint sizing_loop (fuel : nat) (delta : R) (B b : Z) : Z * Z :=
  match fuel with
  | 0 => (B, b)
  | S fuel =>
      if (b <? 32)%Z && (B <? 1024)%Z
      then sizing_loop fuel delta (B + 1) (sizing_b delta (B + 1))
      else (B, b)
  end.

(** The four [int]s handed to [omnisketch_allocate]: [w], [d], [B], [b]. *)
Definition sizing_block (epsilon delta : R) : Z * Z * Z * Z :=
  let d := sizing_d delta in
  let w := sizing_w epsilon d in
  let '(B, b) := sizing_loop 1024 delta 0 0 in
  (w, d, B, b).

(** The same as the [sizing] that [omnisketch_add] takes. *)
Definition sizing_of (epsilon delta : R) : sizing :=
  let '(w, d, B, b) := sizing_block epsilon delta in
  mk_sizing (Z.to_nat w) (Z.to_nat d) (Z.to_nat B) b.

(** [sketch->sketchWidth = width]: the header field is an [int16]. *)
Definition int16 (x : Z) : Z := ((x + 2 ^ 15) mod 2 ^ 16 - 2 ^ 15)%Z.

Definition stored_width (width : Z) : Z := int16 width.

(** The dimensions as the specification gives them:
    [D := ceil (ln (2 / delta))] and
    [W := 1 + ceil (e * ((eps + 1) / eps) ^ (1 / D))]. *)
Definition spec_D (delta : R) : Z := ceil (ln (2 / delta)).

Definition spec_W (eps : R) (D : Z) : Z :=
  (1 + ceil (exp 1 * Rpower ((eps + 1) / eps) (1 / IZR D)))%Z.

(** Fixed-point squaring, [k] times, of [a / scale]: the lower bounds
    from which [e] is enclosed. *)
Fixpoint squarings (k : nat) (scale a : Z) : Z :=
  match k with
  | 0 => a
  | S k => squarings k scale (a * a / scale)
  end.

End Sizing.

(** ** Proof automation *)

(** A decidable closed statement is settled by evaluating its decision
    procedure. *)
Ltac by_compute := apply (bool_decide_unpack _); vm_compute; reflexivity.

(** * Properties *)

(** ** The hash function of the examples *)

(** Two published values of XXH32 with seed 0: the empty input, which
    exercises the avalanche, and the four bytes "abcd". *)
Example XXH32_empty : xxhash.XXH32_avalanche xxhash.PRIME32_5 = 0x02CC5D05%Z.
Proof. vm_compute. reflexivity. Qed.

Example XXH32_abcd : xxhash.XXH32 0x64636261 0 = 0xA3643705%Z.
Proof. vm_compute. reflexivity. Qed.

(** ** Loops *)

Lemma fold_left_inv {S X} (P : S -> Prop) (f : S -> X -> S) (l : list X) (s : S) :
  (forall s x, P s -> P (f s x)) -> P s -> P (fold_left f l s).
Proof.
  intros Hstep. revert s. induction l as [|x l IH]; simpl; auto.
Qed.

Lemma fold_left_rel {S T X} (R : S -> T -> Prop) (f : S -> X -> S) (g : T -> X -> T)
    (l : list X) (s : S) (t : T) :
  (forall s t x, R s t -> R (f s x) (g t x)) ->
  R s t -> R (fold_left f l s) (fold_left g l t).
Proof.
  intros Hstep. revert s t. induction l as [|x l IH]; simpl; auto.
Qed.

Lemma for_each_bucket_inv {S} (P : S -> Prop) na ni nj
    (body : S -> nat -> nat -> nat -> S) (s : S) :
  (forall s a i j, P s -> P (body s a i j)) ->
  P s -> P (for_each_bucket na ni nj body s).
Proof.
  intros Hstep Hs. unfold for_each_bucket.
  apply fold_left_inv; [|exact Hs]. intros s1 a H1.
  apply fold_left_inv; [|exact H1]. intros s2 i H2.
  apply fold_left_inv; [|exact H2]. intros s3 j H3.
  apply Hstep, H3.
Qed.

Lemma for_each_bucket_rel {S T} (R : S -> T -> Prop) na ni nj
    (f : S -> nat -> nat -> nat -> S) (g : T -> nat -> nat -> nat -> T) s t :
  (forall s t a i j, R s t -> R (f s a i j) (g t a i j)) ->
  R s t -> R (for_each_bucket na ni nj f s) (for_each_bucket na ni nj g t).
Proof.
  intros Hstep Hs. unfold for_each_bucket.
  apply fold_left_rel; [|exact Hs]. intros s1 t1 a H1.
  apply fold_left_rel; [|exact H1]. intros s2 t2 i H2.
  apply fold_left_rel; [|exact H2]. intros s3 t3 j H3.
  apply Hstep, H3.
Qed.

Lemma fold_left_ext_inv {S X} (P : S -> Prop) (f f' : S -> X -> S) (l : list X) (s : S) :
  (forall s x, P s -> f s x = f' s x /\ P (f' s x)) ->
  P s -> fold_left f l s = fold_left f' l s /\ P (fold_left f' l s).
Proof.
  intros Hstep. revert s. induction l as [|x l IH]; intros s Hs; simpl; [auto|].
  destruct (Hstep s x Hs) as [-> HP]. apply IH, HP.
Qed.

Lemma fold_left_seq_shift {S} (g : S -> nat -> S) base n (s : S) :
  fold_left (fun s j => g s (base + j)) (seq 0 n) s = fold_left g (seq base n) s.
Proof.
  induction n as [|n IH]; [reflexivity|].
  rewrite !seq_S, !fold_left_app, IH. reflexivity.
Qed.

Lemma fold_left_seq_blocks {S} (g : S -> nat -> S) base n m (s : S) :
  fold_left (fun s i => fold_left g (seq (base + i * m) m) s) (seq 0 n) s
  = fold_left g (seq base (n * m)) s.
Proof.
  induction n as [|n IH]; [reflexivity|].
  rewrite seq_S, fold_left_app, IH. simpl.
  replace (m + n * m) with (n * m + m) by lia.
  rewrite seq_app, fold_left_app. reflexivity.
Qed.

(** The three nested loops visit the bucket indices in increasing order. *)
Lemma for_each_bucket_flat {S} (P : S -> Prop) na ni nj
    (body : S -> nat -> nat -> nat -> S) (g : S -> nat -> S) (s : S) :
  (forall s a i j, P s -> body s a i j = g s (a * (nj * ni) + i * nj + j)) ->
  (forall s idx, P s -> P (g s idx)) ->
  P s ->
  for_each_bucket na ni nj body s = fold_left g (seq 0 (na * (ni * nj))) s.
Proof.
  intros Hbody HP Hs. unfold for_each_bucket.
  assert (forall l s, P s -> P (fold_left g l s)) as HPfold.
  { intros l. induction l; simpl; auto. }
  rewrite <- (fold_left_seq_blocks g 0 na (ni * nj) s).
  apply (fold_left_ext_inv P); [|exact Hs].
  intros s1 a H1. simpl.
  rewrite <- (fold_left_seq_blocks g (a * (ni * nj)) ni nj s1).
  split; [|rewrite fold_left_seq_blocks; apply HPfold, H1].
  apply (fold_left_ext_inv P); [|exact H1].
  intros s2 i H2.
  rewrite <- (fold_left_seq_shift g (a * (ni * nj) + i * nj) nj s2).
  split; [|rewrite fold_left_seq_shift; apply HPfold, H2].
  apply (fold_left_ext_inv P); [|exact H2].
  intros s3 j H3. split.
  - rewrite Hbody by exact H3. f_equal. lia.
  - apply HP, H3.
Qed.

(** Updating every index in turn is an indexed map. *)
Lemma fold_insert_imap {A} `{Inhabited A} (F : nat -> A -> A) (l : list A) :
  fold_left (fun l i => <[i := F i (l !!! i)]> l) (seq 0 (length l)) l = imap F l.
Proof.
  assert (forall k, k <= length l ->
    fold_left (fun l i => <[i := F i (l !!! i)]> l) (seq 0 k) l
    = take k (imap F l) ++ drop k l) as Hk.
  { induction k as [|k IH]; intros Hle; [reflexivity|].
    rewrite seq_S, fold_left_app, IH by lia. simpl.
    destruct (lookup_lt_is_Some_2 l k ltac:(lia)) as [x Hx].
    assert (length (take k (imap F l)) = k) as Hlen
      by (rewrite length_take, length_imap; lia).
    rewrite list_lookup_total_alt, lookup_app_r by lia.
    rewrite Hlen, Nat.sub_diag, lookup_drop, Nat.add_0_r, Hx. simpl.
    rewrite insert_app_r_alt by lia.
    rewrite Hlen, Nat.sub_diag, (drop_S _ _ _ Hx). simpl.
    rewrite (take_S_r (imap F l) k (F k x))
      by (rewrite list_lookup_imap, Hx; reflexivity).
    rewrite <- app_assoc. reflexivity. }
  rewrite Hk by lia. rewrite drop_all, app_nil_r.
  apply take_ge. rewrite length_imap. lia.
Qed.

(** ** The order of the sort *)

Lemma item_hash_le_spec a b :
  item_hash_le a b <->
  (hash a < hash b \/ (hash a = hash b /\ item a <= item b))%Z.
Proof.
  unfold item_hash_le, cmp_item_hash.
  repeat match goal with |- context [Z.ltb ?x ?y] => destruct (Z.ltb_spec x y) end; lia.
Qed.

Global Instance item_hash_le_trans : Transitive item_hash_le.
Proof. intros a b c. rewrite !item_hash_le_spec. lia. Qed.

Global Instance item_hash_le_total : Total item_hash_le.
Proof. intros a b. rewrite !item_hash_le_spec. lia. Qed.

Global Instance item_hash_le_antisymm : AntiSymm (=) item_hash_le.
Proof.
  intros [ia ha] [ib hb]. rewrite !item_hash_le_spec. simpl.
  intros H1 H2. f_equal; lia.
Qed.

Lemma cmp_item_hash_pos a b :
  (0 <? cmp_item_hash a b)%Z = bool_decide (~ item_hash_le a b).
Proof.
  unfold item_hash_le. destruct (Z.ltb_spec 0 (cmp_item_hash a b)).
  - symmetry. apply bool_decide_eq_true. lia.
  - symmetry. apply bool_decide_eq_false. lia.
Qed.

(** ** Sorting *)

Lemma pg_qsort_sorted l : Sorted item_hash_le (pg_qsort cmp_item_hash l).
Proof. apply (Sorted_merge_sort item_hash_le). Qed.

Lemma pg_qsort_perm l : pg_qsort cmp_item_hash l ≡ₚ l.
Proof. apply (merge_sort_Permutation item_hash_le). Qed.

(** The sorted array is determined by the elements: whatever algorithm
    [pg_qsort] runs, its result is this one. *)
Lemma pg_qsort_unique l l' :
  Sorted item_hash_le l' -> l' ≡ₚ l -> l' = pg_qsort cmp_item_hash l.
Proof.
  intros Hs Hp. apply (Sorted_unique item_hash_le); [exact Hs|apply pg_qsort_sorted|].
  rewrite pg_qsort_perm. exact Hp.
Qed.

Lemma pg_qsort_of_sorted l : Sorted item_hash_le l -> pg_qsort cmp_item_hash l = l.
Proof. intros Hs. symmetry. apply pg_qsort_unique; [exact Hs|reflexivity]. Qed.

Lemma pg_qsort_proper l l' :
  l ≡ₚ l' -> pg_qsort cmp_item_hash l = pg_qsort cmp_item_hash l'.
Proof.
  intros Hp. apply pg_qsort_unique; [apply pg_qsort_sorted|].
  rewrite pg_qsort_perm. exact Hp.
Qed.

Lemma pg_qsort_length l : length (pg_qsort cmp_item_hash l) = length l.
Proof. apply Permutation_length, pg_qsort_perm. Qed.

Lemma pg_qsort_idemp l :
  pg_qsort cmp_item_hash (pg_qsort cmp_item_hash l) = pg_qsort cmp_item_hash l.
Proof. apply pg_qsort_of_sorted, pg_qsort_sorted. Qed.

Lemma list_merge_sorted l1 l2 :
  Sorted item_hash_le l1 -> Sorted item_hash_le l2 ->
  list_merge item_hash_le l1 l2 = pg_qsort cmp_item_hash (l1 ++ l2).
Proof.
  intros H1 H2. apply pg_qsort_unique.
  - apply (Sorted_list_merge item_hash_le); assumption.
  - apply merge_Permutation.
Qed.

(** The first [k] outputs of a merge only look at the first [k] elements
    of either input. *)
Lemma take_list_merge_take_l k (l1 l2 : list item_hash_t) :
  take k (list_merge item_hash_le (take k l1) l2) = take k (list_merge item_hash_le l1 l2).
Proof.
  revert l1 l2. induction k as [|k IH]; intros l1 l2; [reflexivity|].
  destruct l1 as [|x1 l1]; [reflexivity|].
  simpl take at 2. revert l1 x1.
  induction l2 as [|x2 l2 IH2]; intros l1 x1.
  - rewrite !list_merge_nil_r. simpl. f_equal. apply take_idemp.
  - rewrite !list_merge_cons. case_decide; simpl; f_equal.
    + apply IH.
    + destruct k as [|k]; [reflexivity|].
      specialize (IH2 l1 x1). simpl take in IH2 at 2.
      apply (f_equal (take (S k))) in IH2.
      rewrite !take_take in IH2.
      replace (S k `min` S (S k)) with (S k) in IH2 by lia.
      exact IH2.
Qed.

Lemma Sorted_take (l : list item_hash_t) k :
  Sorted item_hash_le l -> Sorted item_hash_le (take k l).
Proof.
  intros Hs. apply Sorted_StronglySorted in Hs; [|apply _].
  apply StronglySorted_Sorted.
  rewrite <- (take_drop k l) in Hs.
  eapply StronglySorted_app_1_l, Hs.
Qed.

(** Bottom-[k] composes: truncating one side first does not change the
    first [k] elements of the sorted union. *)
Lemma bottom_k_app_l k (x y : list item_hash_t) :
  take k (pg_qsort cmp_item_hash (take k (pg_qsort cmp_item_hash x) ++ y))
  = take k (pg_qsort cmp_item_hash (x ++ y)).
Proof.
  rewrite (pg_qsort_proper (take k (pg_qsort cmp_item_hash x) ++ y)
             (take k (pg_qsort cmp_item_hash x) ++ pg_qsort cmp_item_hash y))
    by (apply Permutation_app_head; symmetry; apply pg_qsort_perm).
  rewrite <- list_merge_sorted
    by auto using Sorted_take, pg_qsort_sorted.
  rewrite take_list_merge_take_l.
  rewrite list_merge_sorted by apply pg_qsort_sorted.
  f_equal. apply pg_qsort_proper. rewrite !pg_qsort_perm. reflexivity.
Qed.

Lemma bottom_k_app_r k (x y : list item_hash_t) :
  take k (pg_qsort cmp_item_hash (x ++ take k (pg_qsort cmp_item_hash y)))
  = take k (pg_qsort cmp_item_hash (x ++ y)).
Proof.
  rewrite (pg_qsort_proper (x ++ take k (pg_qsort cmp_item_hash y))
             (take k (pg_qsort cmp_item_hash y) ++ x))
    by apply Permutation_app_comm.
  rewrite bottom_k_app_l. f_equal. apply pg_qsort_proper, Permutation_app_comm.
Qed.

(** ** The cells of a sketch *)

Lemma cells_length s :
  length (samples s) = length (buckets s) -> length (cells s) = length (buckets s).
Proof. intros H. unfold cells. rewrite length_zip_with. lia. Qed.

Lemma cells_lookup_total s idx :
  length (samples s) = length (buckets s) ->
  cells s !!! idx = (buckets s !!! idx, samples s !!! idx).
Proof.
  intros Hlen. unfold cells. rewrite !list_lookup_total_alt, lookup_zip_with.
  destruct (buckets s !! idx) as [b|] eqn:Hb; simpl.
  - destruct (lookup_lt_is_Some_2 (samples s) idx) as [x Hx].
    { apply lookup_lt_Some in Hb. lia. }
    rewrite Hx. reflexivity.
  - rewrite (lookup_ge_None_2 (samples s) idx); [reflexivity|].
    apply lookup_ge_None in Hb. lia.
Qed.

Lemma cells_set_cell s idx b x :
  cells (set_cell s idx b x) = <[idx := (b, x)]> (cells s).
Proof. unfold cells. simpl. symmetry. apply insert_zip_with. Qed.

Lemma with_cells_cells s :
  length (samples s) = length (buckets s) -> with_cells s (cells s) = s.
Proof.
  intros Hlen. unfold with_cells, cells.
  rewrite fst_zip, snd_zip by lia. destruct s; reflexivity.
Qed.

Lemma cells_with_cells s cs : cells (with_cells s cs) = cs.
Proof. unfold cells. simpl. apply zip_fst_snd. Qed.

(** A loop that rewrites each cell from its own old value is a map over
    the cells. *)
Lemma fold_cells (F : nat -> bucket_t * list Z -> bucket_t * list Z) s :
  length (samples s) = length (buckets s) ->
  fold_left (fun s idx =>
      set_cell s idx (F idx (buckets s !!! idx, samples s !!! idx)).1
                     (F idx (buckets s !!! idx, samples s !!! idx)).2)
    (seq 0 (length (buckets s))) s
  = with_cells s (imap F (cells s)).
Proof.
  intros Hlen.
  rewrite <- (fold_insert_imap F (cells s)), cells_length by exact Hlen.
  apply (fold_left_rel (fun s' cs =>
    s' = with_cells s cs /\ length cs = length (buckets s))).
  - intros s' cs idx [-> Hcs].
    assert (length (samples (with_cells s cs)) = length (buckets (with_cells s cs))) as Hl
      by (simpl; rewrite !length_fmap; reflexivity).
    rewrite <- (cells_lookup_total (with_cells s cs) idx Hl), cells_with_cells.
    split; [|rewrite length_insert; exact Hcs].
    destruct (F idx (cs !!! idx)) as [b x]. unfold set_cell, with_cells. simpl.
    rewrite !list_fmap_insert. reflexivity.
  - split; [symmetry; apply with_cells_cells, Hlen|apply cells_length, Hlen].
Qed.

Lemma set_cell_same s idx :
  set_cell s idx (buckets s !!! idx) (samples s !!! idx) = s.
Proof.
  unfold set_cell.
  rewrite !list_insert_id'
    by (intros Hi; apply list_lookup_lookup_total_lt, Hi).
  destruct s; reflexivity.
Qed.

Section Operations.

Variable XXH32 : Z -> Z -> Z.

Local Abbreviation with_hash := (with_hash XXH32).
Local Abbreviation content := (content XXH32).
Local Abbreviation hashed := (hashed XXH32).
Local Abbreviation cell_wf := (cell_wf XXH32).
Local Abbreviation finalize_cell := (finalize_cell XXH32).
Local Abbreviation merge_cell := (merge_cell XXH32).
Local Abbreviation sketch_wf := (sketch_wf XXH32).
Local Abbreviation bottom3 := (bottom3 XXH32).
Local Abbreviation fin := (omnisketch_finalize XXH32).
Local Abbreviation comb := (combine_sketches XXH32).
Local Abbreviation reachable := (reachable XXH32).

(** ** Buckets never fall back to empty *)

Lemma rescan_max_sampleCount b smp :
  sampleCount (rescan_max XXH32 b smp) = sampleCount b.
Proof.
  unfold rescan_max.
  apply (fold_left_inv (fun b' => sampleCount b' = sampleCount b)).
  - intros b' k Hb'. destruct (Z.leb _ _); simpl; exact Hb'.
  - reflexivity.
Qed.

Lemma rescan_max_isSorted b smp :
  isSorted (rescan_max XXH32 b smp) = isSorted b.
Proof.
  unfold rescan_max.
  apply (fold_left_inv (fun b' => isSorted b' = isSorted b)).
  - intros b' k Hb'. destruct (Z.leb _ _); simpl; exact Hb'.
  - reflexivity.
Qed.

Lemma rescan_max_totalCount b smp :
  totalCount (rescan_max XXH32 b smp) = totalCount b.
Proof.
  unfold rescan_max.
  apply (fold_left_inv (fun b' => totalCount b' = totalCount b)).
  - intros b' k Hb'. destruct (Z.leb _ _); simpl; exact Hb'.
  - reflexivity.
Qed.

(** [omnisketch_sample_add] never touches [isSorted]. *)
Lemma omnisketch_sample_add_isSorted sk b smp it :
  isSorted (omnisketch_sample_add XXH32 sk b smp it).1 = isSorted b.
Proof.
  unfold omnisketch_sample_add.
  destruct (sampleCount b <? sampleSize sk).
  - destruct (sampleCount b =? 0); [reflexivity|].
    destruct (Z.ltb _ _); reflexivity.
  - destruct (Z.ltb _ _); simpl; [apply rescan_max_isSorted | reflexivity].
Qed.

Lemma omnisketch_sample_add_totalCount sk b smp it :
  totalCount (omnisketch_sample_add XXH32 sk b smp it).1 = totalCount b.
Proof.
  unfold omnisketch_sample_add.
  destruct (sampleCount b <? sampleSize sk).
  - destruct (sampleCount b =? 0); [reflexivity|].
    destruct (Z.ltb _ _); reflexivity.
  - destruct (Z.ltb _ _); simpl; [apply rescan_max_totalCount | reflexivity].
Qed.

Lemma omnisketch_sample_add_nonempty sk b smp it :
  1 <= sampleSize sk ->
  0 < sampleCount (omnisketch_sample_add XXH32 sk b smp it).1.
Proof.
  intros HB. unfold omnisketch_sample_add.
  destruct (Nat.ltb_spec (sampleCount b) (sampleSize sk)) as [Hlt|Hge].
  - destruct (sampleCount b =? 0); [simpl; lia|].
    destruct (Z.ltb _ _); simpl; lia.
  - destruct (Z.ltb _ _); simpl; [rewrite rescan_max_sampleCount|]; lia.
Qed.

Lemma never_empty_set_cell s idx b smp :
  never_empty s -> nonempty_if_counted b -> never_empty (set_cell s idx b smp).
Proof.
  intros [HB Hall] Hb. split; [exact HB|]. simpl.
  apply Forall_insert; assumption.
Qed.

Lemma nonempty_lookup_total (l : list bucket_t) i :
  Forall nonempty_if_counted l -> nonempty_if_counted (l !!! i).
Proof.
  intros Hall. destruct (l !! i) as [b|] eqn:E.
  - rewrite (list_lookup_total_correct _ _ _ E).
    eapply Forall_lookup_1; eauto.
  - rewrite list_lookup_total_alt, E. simpl. intros H. simpl in H. lia.
Qed.

Lemma add_hash_row_never_empty column hash it s i :
  never_empty s -> never_empty (add_hash_row XXH32 column hash it s i).
Proof.
  intros Hs. unfold add_hash_row.
  destruct (omnisketch_sample_add _ _ _ _ _) as [b' smp'] eqn:E.
  apply never_empty_set_cell; [exact Hs|].
  intros _. change b' with ((b', smp').1). rewrite <- E.
  apply omnisketch_sample_add_nonempty, Hs.
Qed.

Lemma omnisketch_add_hash_never_empty s column hash it :
  never_empty s -> never_empty (omnisketch_add_hash XXH32 s column hash it).
Proof.
  intros Hs. unfold omnisketch_add_hash.
  apply fold_left_inv; [|exact Hs].
  intros; apply add_hash_row_never_empty; assumption.
Qed.

Lemma omnisketch_allocate_never_empty n w d B b prng :
  1 <= B -> never_empty (omnisketch_allocate n w d B b prng).
Proof.
  intros HB. split; [exact HB|]. simpl.
  apply Forall_replicate. intros H. simpl in H. lia.
Qed.

Lemma omnisketch_add_never_empty state sz prng record s' :
  match state with Some s => never_empty s | None => sizing_ok sz end ->
  omnisketch_add XXH32 state sz prng record = Ok s' ->
  never_empty s'.
Proof.
  intros Hst. unfold omnisketch_add.
  set (s0 := match state with None => _ | Some s => s end).
  assert (never_empty s0) as H0.
  { subst s0. destruct state; [exact Hst|].
    apply omnisketch_allocate_never_empty, Hst. }
  destruct (negb _); [discriminate|].
  intros [= <-].
  apply fold_left_inv.
  - intros s [i att] Hs. unfold add_attribute. simpl.
    destruct att; [exact Hs| |]; apply omnisketch_add_hash_never_empty, Hs.
  - exact H0.
Qed.

Lemma merge_loop_k fuel di si nd ns B i j k smp mh :
  k <= (merge_loop fuel di si nd ns B i j k smp mh).1.1.
Proof.
  revert i j k smp mh. induction fuel as [|fuel IH]; intros; simpl; [lia|].
  destruct (_ && _); [|simpl; lia].
  repeat match goal with |- context [if ?c then _ else _] => destruct c end;
    (etransitivity; [|apply IH]); lia.
Qed.

Lemma merge_loop_nonempty B di si nd ns smp mh :
  1 <= B -> 0 < ns ->
  0 < (merge_loop B di si nd ns B 0 0 0 smp mh).1.1.
Proof.
  intros HB Hns. destruct B as [|B]; [lia|]. simpl.
  destruct (Nat.ltb_spec 0 ns); [|lia].
  rewrite orb_true_r. simpl.
  repeat match goal with |- context [if ?c then _ else _] => destruct c end;
    (eapply Nat.lt_le_trans; [|apply merge_loop_k]); lia.
Qed.

Lemma omnisketch_merge_buckets_nonempty db sb dsmp ssmp B :
  1 <= B -> nonempty_if_counted db ->
  nonempty_if_counted (omnisketch_merge_buckets XXH32 db sb dsmp ssmp B).1.
Proof.
  intros HB Hdb. unfold omnisketch_merge_buckets.
  destruct (Nat.eqb_spec (sampleCount sb) 0) as [H0|Hn]; [exact Hdb|].
  pose proof (merge_loop_nonempty B (omnisketch_sorted_items XXH32 db dsmp)
    (omnisketch_sorted_items XXH32 sb ssmp) (sampleCount db) (sampleCount sb)
    dsmp (maxHash db) HB ltac:(lia)) as Hk.
  destruct (merge_loop _ _ _ _ _ _ _ _ _ _ _) as [[k smp'] mh].
  simpl in *. intros _. exact Hk.
Qed.

Lemma combine_bucket_never_empty src dst a i j :
  never_empty dst -> never_empty (combine_bucket XXH32 src dst a i j).
Proof.
  intros Hd. unfold combine_bucket.
  destruct (omnisketch_merge_buckets _ _ _ _ _ _) as [b' smp'] eqn:E.
  apply never_empty_set_cell; [exact Hd|].
  change b' with ((b', smp').1). rewrite <- E.
  apply omnisketch_merge_buckets_nonempty; [apply Hd|].
  apply nonempty_lookup_total, Hd.
Qed.

Lemma combine_sketches_never_empty dst src :
  never_empty dst -> never_empty (combine_sketches XXH32 dst src).
Proof.
  intros Hd. unfold combine_sketches.
  apply (for_each_bucket_inv never_empty) with (s := dst) (na := numSketches src)
    (ni := sketchHeight src) (nj := sketchWidth src) (body := combine_bucket XXH32 src) in Hd.
  - destruct Hd as [HB Hall]. split; assumption.
  - intros; apply combine_bucket_never_empty; assumption.
Qed.

Lemma finalize_bucket_never_empty s a i j :
  never_empty s -> never_empty (finalize_bucket XXH32 s a i j).
Proof.
  intros Hs. unfold finalize_bucket.
  destruct (isSorted _); [exact Hs|].
  destruct (2 <=? _); [|exact Hs].
  apply never_empty_set_cell; [exact Hs|].
  pose proof (nonempty_lookup_total (buckets s) (SKETCH_BUCKET_INDEX s a i j) (proj2 Hs)) as Hb.
  unfold SKETCH_BUCKET. unfold nonempty_if_counted in *. simpl. exact Hb.
Qed.

Lemma omnisketch_finalize_never_empty s :
  never_empty s -> never_empty (omnisketch_finalize XXH32 s).
Proof.
  intros Hs. unfold omnisketch_finalize.
  apply for_each_bucket_inv; [|exact Hs].
  intros; apply finalize_bucket_never_empty; assumption.
Qed.

(** ** Combine on the store *)

Lemma omnisketch_equals_spec a b :
  omnisketch_equals a b = true <->
  numSketches a = numSketches b /\ sketchHeight a = sketchHeight b
  /\ sketchWidth a = sketchWidth b /\ sampleSize a = sampleSize b
  /\ itemSize a = itemSize b.
Proof.
  unfold omnisketch_equals.
  rewrite !andb_true_iff, !Nat.eqb_eq, Z.eqb_eq. tauto.
Qed.

(** With two different objects, the bucket loop on the store is the
    bucket loop on the destination sketch. *)
Lemma combine_loop_store (h : gmap positive omnisketch_t) p0 p1 dst src na ni nj :
  p0 <> p1 -> h !! p0 = Some dst -> h !! p1 = Some src ->
  for_each_bucket na ni nj (combine_at XXH32 p0 p1) h
  = <[p0 := for_each_bucket na ni nj (combine_bucket XXH32 src) dst]> h.
Proof.
  intros Hne H0 H1.
  apply (for_each_bucket_rel
    (fun (h' : gmap positive omnisketch_t) d => h' = <[p0 := d]> h)).
  - intros h' d a i j ->. unfold combine_at.
    rewrite lookup_insert_eq, lookup_insert_ne, H1 by done.
    apply insert_insert_eq.
  - symmetry. apply insert_id, H0.
Qed.

Lemma omnisketch_combine_both (h : gmap positive omnisketch_t) p0 p1 dst src :
  p0 <> p1 -> h !! p0 = Some dst -> h !! p1 = Some src ->
  omnisketch_equals src dst = true ->
  omnisketch_combine XXH32 true h (Some p0) (Some p1)
  = Ok (Some p0, <[p0 := combine_sketches XXH32 dst src]> h).
Proof.
  intros Hne H0 H1 Heq. unfold omnisketch_combine. simpl.
  rewrite H0, H1, Heq. simpl.
  rewrite (combine_loop_store h p0 p1 dst src) by done.
  unfold add_count_at.
  rewrite lookup_insert_eq, lookup_insert_ne, H1 by done.
  rewrite insert_insert_eq. reflexivity.
Qed.

Lemma combine_sketches_count dst src :
  count (combine_sketches XXH32 dst src) = int32 (count dst + count src).
Proof.
  unfold combine_sketches. simpl. f_equal. f_equal.
  apply (for_each_bucket_inv (fun d => count d = count dst)); [|reflexivity].
  intros d a i j Hd. unfold combine_bucket.
  destruct (omnisketch_merge_buckets _ _ _ _ _ _). exact Hd.
Qed.

Lemma int32_small x : (- 2 ^ 31 <= x <= INT32_MAX)%Z -> int32 x = x.
Proof.
  unfold int32, INT32_MAX. intros Hx.
  rewrite Z.mod_small by lia. lia.
Qed.

(** C9. When both arguments are present, are two different objects and
    agree on the five structural fields, combine succeeds, returns the
    first pointer, and leaves the second sketch, and in fact every object
    but the first, as it was. *)
Theorem combine_leaves_second_unchanged (h : gmap positive omnisketch_t) p0 p1 a b :
  h !! p0 = Some a -> h !! p1 = Some b -> p0 <> p1 ->
  omnisketch_equals b a = true ->
  exists h',
    omnisketch_combine XXH32 true h (Some p0) (Some p1) = Ok (Some p0, h')
    /\ h' !! p1 = Some b
    /\ forall p, p <> p0 -> h' !! p = h !! p.
Proof.
  intros H0 H1 Hne Heq. eexists. split.
  - apply omnisketch_combine_both; eassumption.
  - split.
    + rewrite lookup_insert_ne by done. exact H1.
    + intros p Hp. apply lookup_insert_ne. congruence.
Qed.

(** X22.  [omnisketch_combine] in aggregate context: two NULLs give NULL; a NULL
    first argument gives a fresh copy of the second; a NULL second
    argument gives the first pointer back; two sketches that differ in
    one of the five structural fields give the error "sketches do not
    match"; otherwise the first sketch is updated and its count is the
    sum of the two counts wrapped to [int32], which is the sum itself
    when that fits. *)
Theorem combine_contract (h : gmap positive omnisketch_t) p0 p1 a b :
  h !! p0 = Some a -> h !! p1 = Some b -> p0 <> p1 ->
  omnisketch_combine XXH32 true h None None = Ok (None, h)
  /\ (exists p, h !! p = None
        /\ omnisketch_combine XXH32 true h None (Some p1) = Ok (Some p, <[p := b]> h))
  /\ omnisketch_combine XXH32 true h (Some p0) None = Ok (Some p0, h)
  /\ ((numSketches a <> numSketches b \/ sketchHeight a <> sketchHeight b
       \/ sketchWidth a <> sketchWidth b \/ sampleSize a <> sampleSize b
       \/ itemSize a <> itemSize b) ->
      omnisketch_combine XXH32 true h (Some p0) (Some p1) = Err SketchMismatch)
  /\ (numSketches a = numSketches b -> sketchHeight a = sketchHeight b ->
      sketchWidth a = sketchWidth b -> sampleSize a = sampleSize b ->
      itemSize a = itemSize b ->
      exists c h',
        omnisketch_combine XXH32 true h (Some p0) (Some p1) = Ok (Some p0, h')
        /\ h' !! p0 = Some c
        /\ count c = int32 (count a + count b)
        /\ ((- 2 ^ 31 <= count a + count b <= INT32_MAX)%Z ->
            count c = (count a + count b)%Z)).
Proof.
  intros H0 H1 Hne. split; [reflexivity|]. split.
  { exists (fresh (dom h)). split.
    - apply not_elem_of_dom, is_fresh.
    - unfold omnisketch_combine. simpl. rewrite H1. reflexivity. }
  split; [reflexivity|]. split.
  - intros Hdiff. unfold omnisketch_combine. simpl. rewrite H0, H1.
    destruct (omnisketch_equals b a) eqn:E; [|reflexivity].
    apply omnisketch_equals_spec in E. exfalso.
    destruct E as (? & ? & ? & ? & ?).
    destruct Hdiff as [?|[?|[?|[?|?]]]]; congruence.
  - intros E1 E2 E3 E4 E5.
    assert (omnisketch_equals b a = true) as Heq.
    { apply omnisketch_equals_spec. repeat split; congruence. }
    exists (combine_sketches XXH32 a b), (<[p0 := combine_sketches XXH32 a b]> h).
    split; [apply omnisketch_combine_both; assumption|].
    split; [apply lookup_insert_eq|].
    split; [apply combine_sketches_count|].
    intros Hfit. rewrite combine_sketches_count. apply int32_small, Hfit.
Qed.

(** ** The stored IDs of a cell *)

Lemma item_with_hash (l : list Z) : item <$> (with_hash <$> l) = l.
Proof. induction l as [|x l IH]; simpl; [reflexivity|]. f_equal. exact IH. Qed.

Lemma length_content c : sampleCount c.1 <= length c.2 -> length (content c) = sampleCount c.1.
Proof.
  intros H. unfold content, stored_ids. rewrite length_fmap, length_take. lia.
Qed.

Lemma sorted_items_content b smp :
  sampleCount b <= length smp ->
  omnisketch_sorted_items XXH32 b smp
  = if isSorted b then content (b, smp) else pg_qsort cmp_item_hash (content (b, smp)).
Proof.
  intros Hn. unfold omnisketch_sorted_items, content, stored_ids. simpl.
  assert ((fun k => mk_item_hash (smp !!! k) (SKETCH_HASH XXH32 (smp !!! k) SKETCH_SEED))
            <$> seq 0 (sampleCount b) = with_hash <$> take (sampleCount b) smp) as ->.
  { induction (sampleCount b) as [|n IH]; [reflexivity|].
    rewrite seq_S, fmap_app. simpl.
    destruct (lookup_lt_is_Some_2 smp n ltac:(lia)) as [x Hx].
    rewrite (take_S_r _ _ _ Hx), fmap_app, IH by lia. simpl.
    rewrite (list_lookup_total_correct _ _ _ Hx). reflexivity. }
  reflexivity.
Qed.

Lemma store_items_spec (its : list item_hash_t) n smp :
  n <= length its -> n <= length smp ->
  store_items its n smp = (item <$> take n its) ++ drop n smp.
Proof.
  unfold store_items. induction n as [|n IH]; intros H1 H2; [reflexivity|].
  rewrite seq_S, fold_left_app, IH by lia. simpl.
  destruct (lookup_lt_is_Some_2 its n ltac:(lia)) as [x Hx].
  destruct (lookup_lt_is_Some_2 smp n ltac:(lia)) as [y Hy].
  rewrite (list_lookup_total_correct _ _ _ Hx).
  rewrite (take_S_r _ _ _ Hx), fmap_app. simpl.
  rewrite (drop_S _ _ _ Hy).
  rewrite insert_app_r_alt by (rewrite length_fmap, length_take; lia).
  rewrite length_fmap, length_take.
  replace (n - n `min` length its) with 0 by lia. simpl.
  rewrite <- app_assoc. reflexivity.
Qed.

(** The merge loop writes the first [B - k] elements of the merge of
    what is left of the two inputs. *)
Lemma merge_loop_spec fuel (di si : list item_hash_t) B i j k smp mh :
  i <= length di -> j <= length si -> B <= length smp -> B - k <= fuel ->
  let out := take (B - k) (list_merge item_hash_le (drop i di) (drop j si)) in
  merge_loop fuel di si (length di) (length si) B i j k smp mh
  = (k + length out,
     take k smp ++ (item <$> out) ++ drop (k + length out) smp,
     last_hash mh out).
Proof.
  revert i j k smp mh. induction fuel as [|fuel IH]; intros i j k smp mh Hi Hj HB Hf out.
  - subst out. replace (B - k) with 0 by lia. simpl.
    rewrite Nat.add_0_r, take_drop. reflexivity.
  - simpl.
    destruct (Nat.ltb_spec k B) as [Hk|Hk]; simpl.
    2:{ subst out. replace (B - k) with 0 by lia. simpl.
        rewrite Nat.add_0_r, take_drop. reflexivity. }
    destruct (Nat.ltb_spec i (length di)) as [Hi'|Hi'];
    destruct (Nat.ltb_spec j (length si)) as [Hj'|Hj']; simpl.
    4:{ subst out. rewrite !drop_ge by lia. simpl. rewrite take_nil. simpl.
        rewrite Nat.add_0_r, take_drop. reflexivity. }
    all: assert (exists m, B - k = S m /\ B - S k = m) as (m & Hm & Hm')
           by (exists (B - S k); lia).
    all: assert (forall x (l : list item_hash_t),
           take k smp ++ (item <$> x :: l) ++ drop (k + S (length l)) smp
           = take (S k) (<[k := item x]> smp) ++ (item <$> l)
               ++ drop (S k + length l) (<[k := item x]> smp)) as Hwrite.
    all: try (intros x l;
         destruct (lookup_lt_is_Some_2 smp k ltac:(lia)) as [y Hy];
         rewrite (take_S_r (<[k := item x]> smp) k (item x))
           by (apply list_lookup_insert_eq; lia);
         rewrite take_insert_ge by lia;
         rewrite drop_insert_lt by lia;
         rewrite <- app_assoc; simpl;
         replace (k + S (length l)) with (S (k + length l)) by lia;
         reflexivity).
    + (* both inputs have elements *)
      destruct (lookup_lt_is_Some_2 di i Hi') as [x1 Hx1].
      destruct (lookup_lt_is_Some_2 si j Hj') as [x2 Hx2].
      destruct (Nat.eqb_spec i (length di)); [lia|].
      destruct (Nat.eqb_spec j (length si)); [lia|].
      rewrite (list_lookup_total_correct _ _ _ Hx1), (list_lookup_total_correct _ _ _ Hx2).
      subst out. rewrite (drop_S _ _ _ Hx1), (drop_S _ _ _ Hx2), list_merge_cons.
      rewrite cmp_item_hash_pos.
      destruct (decide (item_hash_le x1 x2)) as [Hle|Hnle].
      * rewrite bool_decide_eq_false_2 by tauto.
        rewrite IH by (try rewrite length_insert; lia).
        rewrite Hm, Hm'. simpl take. rewrite <- (drop_S _ _ _ Hx2).
        simpl length. rewrite Hwrite. f_equal; [f_equal; lia|].
        unfold last_hash. rewrite last_cons.
        destruct (last _); reflexivity.
      * rewrite bool_decide_eq_true_2 by tauto.
        rewrite IH by (try rewrite length_insert; lia).
        rewrite Hm, Hm'. simpl take. rewrite <- (drop_S _ _ _ Hx1).
        simpl length. rewrite Hwrite. f_equal; [f_equal; lia|].
        unfold last_hash. rewrite last_cons.
        destruct (last _); reflexivity.
    + (* the source is exhausted *)
      destruct (lookup_lt_is_Some_2 di i Hi') as [x1 Hx1].
      destruct (Nat.eqb_spec i (length di)); [lia|].
      destruct (Nat.eqb_spec j (length si)); [|lia].
      rewrite (list_lookup_total_correct _ _ _ Hx1).
      rewrite IH by (try rewrite length_insert; lia).
      subst out. rewrite (drop_ge si j) by lia.
      rewrite !list_merge_nil_r, (drop_S _ _ _ Hx1), Hm, Hm'. simpl take.
      simpl length. rewrite Hwrite. f_equal; [f_equal; lia|].
      unfold last_hash. rewrite last_cons.
      destruct (last _); reflexivity.
    + (* the destination is exhausted *)
      destruct (lookup_lt_is_Some_2 si j Hj') as [x2 Hx2].
      destruct (Nat.eqb_spec i (length di)); [|lia].
      rewrite (list_lookup_total_correct _ _ _ Hx2).
      rewrite IH by (try rewrite length_insert; lia).
      subst out. rewrite (drop_ge di i) by lia.
      rewrite !list_merge_nil_l, (drop_S _ _ _ Hx2), Hm, Hm'. simpl take.
      simpl length. rewrite Hwrite. f_equal; [f_equal; lia|].
      unfold last_hash. rewrite last_cons.
      destruct (last _); reflexivity.
Qed.

Lemma hashed_content c : hashed (content c).
Proof.
  unfold hashed, content. apply Forall_fmap, Forall_true. reflexivity.
Qed.

Lemma hashed_perm l l' : l ≡ₚ l' -> hashed l -> hashed l'.
Proof. intros Hp. unfold hashed. rewrite Hp. auto. Qed.

Lemma hashed_take k l : hashed l -> hashed (take k l).
Proof. apply Forall_take. Qed.

Lemma hashed_app l l' : hashed l -> hashed l' -> hashed (l ++ l').
Proof. apply Forall_app_2. Qed.

Lemma hashed_fmap l : hashed l -> with_hash <$> (item <$> l) = l.
Proof.
  induction 1 as [|x l Hx _ IH]; [reflexivity|].
  rewrite !fmap_cons, IH, <- Hx. reflexivity.
Qed.

Lemma sorted_last_max (l : list item_hash_t) y x :
  Sorted item_hash_le l -> last l = Some y -> x ∈ l -> (hash x <= hash y)%Z.
Proof.
  intros Hs Hl Hx. apply last_Some in Hl as [l' ->].
  apply Sorted_StronglySorted in Hs; [|apply _].
  apply elem_of_app in Hx as [Hx|Hx].
  - assert (item_hash_le x y) as Hle.
    { eapply StronglySorted_app_1_elem_of; [exact Hs|exact Hx|]. apply list_elem_of_singleton. reflexivity. }
    apply item_hash_le_spec in Hle. lia.
  - apply list_elem_of_singleton in Hx as ->. lia.
Qed.

Lemma last_hash_nonempty mh mh' (l : list item_hash_t) :
  l <> [] -> last_hash mh l = last_hash mh' l.
Proof.
  intros Hl. unfold last_hash.
  destruct (last l) eqn:E; [reflexivity|].
  apply last_None in E. contradiction.
Qed.

(** ** The canonical cell *)

Lemma canon_content B t l flag :
  hashed l -> content (canon B t l flag) = l.
Proof.
  intros Hl. unfold content, stored_ids, canon. simpl.
  rewrite take_app_length' by (rewrite length_fmap; reflexivity).
  apply hashed_fmap, Hl.
Qed.

Lemma canon_wf B t l flag :
  hashed l -> Sorted item_hash_le l -> length l <= B ->
  (0 <= t < 2 ^ 32)%Z ->
  (l = [] -> t = 0%Z /\ flag = false) ->
  cell_wf B (canon B t l flag).
Proof.
  intros Hh Hs Hlen Ht Hnil.
  unfold cell_wf. rewrite canon_content by exact Hh.
  unfold canon. simpl.
  split; [rewrite length_app, length_fmap, length_replicate; lia|].
  split; [exact Hlen|].
  split; [apply drop_app_length'; rewrite length_fmap; reflexivity|].
  split; [exact Ht|].
  split.
  { intros H0. destruct l; [|discriminate].
    destruct (Hnil eq_refl) as [-> ->]. reflexivity. }
  split.
  { intros Hpos. split; [lia|].
    destruct (last l) as [y|] eqn:Hy.
    2:{ apply last_None in Hy. subst l. simpl in Hpos. lia. }
    unfold last_hash. rewrite Hy. simpl.
    split.
    - rewrite last_lookup in Hy.
      replace (Init.Nat.pred (length l)) with (length l - 1) in Hy by lia.
      rewrite (list_lookup_total_correct
                 ((item <$> l) ++ replicate (B - length l) 0%Z) (length l - 1) (item y)).
      + assert (y ∈ l) as Hin by (eapply list_elem_of_lookup_2; exact Hy).
        unfold hashed in Hh. rewrite Forall_forall in Hh.
        rewrite (Hh y Hin) at 1. reflexivity.
      + rewrite lookup_app_l by (rewrite length_fmap; lia).
        rewrite list_lookup_fmap, Hy. reflexivity.
    - apply Forall_forall. intros x Hx. eapply sorted_last_max; eassumption. }
  intros _. split; [exact Hs|reflexivity].
Qed.

Lemma canon_totalCount B t l flag : totalCount (canon B t l flag).1 = t.
Proof. reflexivity. Qed.

Lemma canon_sampleCount B t l flag : sampleCount (canon B t l flag).1 = length l.
Proof. reflexivity. Qed.

(** A well-formed cell whose sample is in order is the canonical cell of
    its content. *)
Lemma cell_wf_sorted_canon B c :
  cell_wf B c -> Sorted item_hash_le (content c) ->
  maxIndex c.1 = sampleCount c.1 - 1 ->
  c = canon B (totalCount c.1) (content c) (isSorted c.1).
Proof.
  destruct c as [b smp]. intros (H1 & H2 & H3 & H4 & H5 & H6 & H7) Hs Hmax.
  simpl in *.
  assert (length (content (b, smp)) = sampleCount b) as Hlen
    by (apply length_content; simpl; lia).
  assert (smp = (item <$> content (b, smp)) ++ replicate (B - sampleCount b) 0%Z) as Hsmp.
  { unfold content, stored_ids. simpl. rewrite item_with_hash, <- H3.
    symmetry. apply take_drop. }
  unfold canon. rewrite Hlen. f_equal; [|exact Hsmp].
  destruct (Nat.eq_dec (sampleCount b) 0) as [H0|Hn0].
  - assert (content (b, smp) = []) as ->.
    { apply length_zero_iff_nil. lia. }
    rewrite (H5 H0). reflexivity.
  - destruct (H6 ltac:(lia)) as (Hidx & Hmh & _).
    destruct b as [t n mi mh fl]. simpl in *. subst mi. f_equal.
    rewrite Hmh. unfold last_hash, content, stored_ids. simpl.
    rewrite fmap_last, last_lookup, length_take.
    replace (Init.Nat.pred (n `min` length smp)) with (n - 1) by lia.
    rewrite lookup_take_lt by lia.
    destruct (lookup_lt_is_Some_2 smp (n - 1) ltac:(lia)) as [x Hx].
    rewrite Hx, (list_lookup_total_correct _ _ _ Hx). reflexivity.
Qed.

Lemma Sorted_short (l : list item_hash_t) : length l < 2 -> Sorted item_hash_le l.
Proof.
  destruct l as [|x [|y l]]; simpl; intros; try lia; repeat constructor.
Qed.

(** ** Finalize on a cell *)

Lemma finalize_cell_canon B c :
  cell_wf B c ->
  finalize_cell c
  = canon B (totalCount c.1) (pg_qsort cmp_item_hash (content c))
      (isSorted c.1 || (2 <=? sampleCount c.1)).
Proof.
  destruct c as [b smp].
  intros Hwf. pose proof Hwf as (H1 & H2 & H3 & H4 & H5 & H6 & H7).
  assert (length (content (b, smp)) = sampleCount b) as Hlen
    by (apply length_content; simpl in *; lia).
  unfold finalize_cell. cbn [fst snd] in *.
  destruct (isSorted b) eqn:Hfl.
  { destruct (H7 eq_refl) as [Hs Hmax].
    rewrite pg_qsort_of_sorted by exact Hs. simpl.
    rewrite (cell_wf_sorted_canon B (b, smp) Hwf Hs Hmax) at 1.
    simpl. rewrite Hfl. reflexivity. }
  destruct (Nat.leb_spec 2 (sampleCount b)) as [Hge|Hlt]; cbn [orb].
  - destruct (H6 ltac:(lia)) as (Hidx & Hmh & Hall).
    rewrite sorted_items_content by lia. rewrite Hfl.
    rewrite store_items_spec by (rewrite ?pg_qsort_length, ?Hlen; lia).
    rewrite take_ge by (rewrite pg_qsort_length, Hlen; lia).
    unfold canon. rewrite pg_qsort_length, Hlen, H3. f_equal.
    destruct b as [t n mi mh fl]. simpl in *. f_equal.
    (* the cached maximum is the hash of the last element in sorted order *)
    set (srt := pg_qsort cmp_item_hash (content (mk_bucket t n mi mh fl, smp))).
    destruct (last srt) as [y|] eqn:Hy.
    2:{ apply last_None in Hy. apply (f_equal length) in Hy.
        subst srt. rewrite pg_qsort_length, Hlen in Hy. simpl in Hy. lia. }
    unfold last_hash. rewrite Hy. simpl.
    assert (y ∈ content (mk_bucket t n mi mh fl, smp)) as Hyin.
    { rewrite <- (pg_qsort_perm (content _)). fold srt.
      apply last_Some_elem_of, Hy. }
    rewrite Forall_forall in Hall. specialize (Hall y Hyin).
    assert (with_hash (smp !!! mi) ∈ srt) as Hmin.
    { subst srt. rewrite pg_qsort_perm. unfold content, stored_ids. simpl.
      apply list_elem_of_fmap_2, list_elem_of_lookup. exists mi.
      rewrite lookup_take_lt by lia.
      apply list_lookup_lookup_total_lt. lia. }
    pose proof (sorted_last_max srt y _ (pg_qsort_sorted _) Hy Hmin) as Hle.
    change (hash (with_hash (smp !!! mi)))
      with (SKETCH_HASH XXH32 (smp !!! mi) SKETCH_SEED) in Hle.
    rewrite <- Hmh in Hle.
    unfold set_isSorted, set_maxIndex. simpl. f_equal. lia.
  - assert (Sorted item_hash_le (content (b, smp))) as Hs by (apply Sorted_short; lia).
    assert (maxIndex b = sampleCount b - 1) as Hmax.
    { destruct (Nat.eq_dec (sampleCount b) 0) as [H0|Hn0].
      - rewrite (H5 H0). reflexivity.
      - destruct (H6 ltac:(lia)) as (Hidx & _). lia. }
    rewrite pg_qsort_of_sorted by exact Hs.
    rewrite (cell_wf_sorted_canon B (b, smp) Hwf Hs Hmax) at 1.
    simpl. rewrite Hfl. reflexivity.
Qed.

(** ** Merge on a pair of cells *)

Lemma sorted_items_sorted B c :
  cell_wf B c ->
  omnisketch_sorted_items XXH32 c.1 c.2 = pg_qsort cmp_item_hash (content c).
Proof.
  intros (H1 & H2 & H3 & H4 & H5 & H6 & H7).
  destruct c as [b smp]. simpl in *.
  rewrite sorted_items_content by lia.
  destruct (isSorted b) eqn:Hfl; [|reflexivity].
  symmetry. apply pg_qsort_of_sorted, H7. reflexivity.
Qed.

Lemma merge_cell_canon B d s :
  1 <= B -> cell_wf B d -> cell_wf B s ->
  merge_cell B d s
  = if sampleCount s.1 =? 0 then d
    else canon B (uint32 (totalCount d.1 + totalCount s.1))
           (take B (pg_qsort cmp_item_hash (content d ++ content s))) true.
Proof.
  intros HB Hd Hs. unfold merge_cell, omnisketch_merge_buckets.
  destruct (Nat.eqb_spec (sampleCount s.1) 0) as [H0|Hn0]; [destruct d; reflexivity|].
  rewrite (sorted_items_sorted B d Hd), (sorted_items_sorted B s Hs).
  pose proof Hd as (D1 & D2 & D3 & _).
  pose proof Hs as (S1 & S2 & S3 & _).
  assert (length (content d) = sampleCount d.1) as Hld by (apply length_content; lia).
  assert (length (content s) = sampleCount s.1) as Hls by (apply length_content; lia).
  rewrite <- Hld at 1. rewrite <- Hls at 1.
  rewrite <- (pg_qsort_length (content d)) at 1.
  rewrite <- (pg_qsort_length (content s)) at 1.
  rewrite (merge_loop_spec) by (rewrite ?pg_qsort_length; lia).
  rewrite Nat.sub_0_r, !drop_0.
  rewrite list_merge_sorted by apply pg_qsort_sorted.
  rewrite (pg_qsort_proper (pg_qsort cmp_item_hash (content d) ++ pg_qsort cmp_item_hash (content s))
            (content d ++ content s)) by (rewrite !pg_qsort_perm; reflexivity).
  set (out := take B (pg_qsort cmp_item_hash (content d ++ content s))).
  assert (length out = B `min` (sampleCount d.1 + sampleCount s.1)) as Hlo.
  { subst out. rewrite length_take, pg_qsort_length, length_app. lia. }
  assert (out <> []) as Hne.
  { intros E. rewrite E in Hlo. simpl in Hlo. lia. }
  unfold canon. simpl. f_equal.
  - f_equal. apply last_hash_nonempty, Hne.
  - f_equal.
    replace (length out) with (sampleCount d.1 + (length out - sampleCount d.1)) at 1 by lia.
    rewrite <- drop_drop, D3, drop_replicate. f_equal. lia.
Qed.

Lemma uint32_range x : (0 <= uint32 x < 2 ^ 32)%Z.
Proof. unfold uint32. apply Z.mod_pos_bound. lia. Qed.

Lemma merge_cell_wf B d s :
  1 <= B -> cell_wf B d -> cell_wf B s -> cell_wf B (merge_cell B d s).
Proof.
  intros HB Hd Hs. rewrite (merge_cell_canon B d s HB Hd Hs).
  destruct (Nat.eqb_spec (sampleCount s.1) 0) as [H0|Hn0]; [exact Hd|].
  pose proof Hs as (S1 & S2 & _).
  assert (length (content s) = sampleCount s.1) as Hls by (apply length_content; lia).
  apply canon_wf.
  - apply hashed_take. eapply hashed_perm; [symmetry; apply pg_qsort_perm|].
    apply hashed_app; apply hashed_content.
  - apply Sorted_take, pg_qsort_sorted.
  - rewrite length_take. lia.
  - apply uint32_range.
  - intros E. apply (f_equal length) in E.
    rewrite length_take, pg_qsort_length, length_app in E. simpl in E. lia.
Qed.

(** The view of a merged cell: counts add up modulo [2^32], and the
    stored IDs are the bottom [B] of the two samples together. *)
Lemma merge_cell_view B d s :
  1 <= B -> cell_wf B d -> cell_wf B s ->
  totalCount (merge_cell B d s).1 = uint32 (totalCount d.1 + totalCount s.1)
  /\ pg_qsort cmp_item_hash (content (merge_cell B d s))
     = take B (pg_qsort cmp_item_hash (content d ++ content s)).
Proof.
  intros HB Hd Hs. rewrite (merge_cell_canon B d s HB Hd Hs).
  pose proof Hd as (D1 & D2 & D3 & D4 & _).
  pose proof Hs as (S1 & S2 & S3 & S4 & S5 & _).
  assert (length (content d) = sampleCount d.1) as Hld by (apply length_content; lia).
  assert (length (content s) = sampleCount s.1) as Hls by (apply length_content; lia).
  destruct (Nat.eqb_spec (sampleCount s.1) 0) as [H0|Hn0].
  - rewrite (S5 H0). simpl.
    assert (content s = []) as -> by (apply length_zero_iff_nil; lia).
    rewrite app_nil_r, Z.add_0_r. split.
    + unfold uint32. rewrite Z.mod_small by lia. reflexivity.
    + rewrite take_ge by (rewrite pg_qsort_length; lia). reflexivity.
  - split; [reflexivity|].
    rewrite canon_content.
    + apply pg_qsort_of_sorted, Sorted_take, pg_qsort_sorted.
    + apply hashed_take. eapply hashed_perm; [symmetry; apply pg_qsort_perm|].
      apply hashed_app; apply hashed_content.
Qed.

(** ** The bucket loops, cell by cell *)

Lemma finalize_bucket_at s a i j :
  finalize_bucket XXH32 s a i j
  = let idx := SKETCH_BUCKET_INDEX s a i j in
    set_cell s idx (finalize_cell (buckets s !!! idx, samples s !!! idx)).1
                   (finalize_cell (buckets s !!! idx, samples s !!! idx)).2.
Proof.
  unfold finalize_bucket, finalize_cell, SKETCH_BUCKET, SKETCH_SAMPLE.
  cbv zeta. cbn [fst snd].
  set (idx := SKETCH_BUCKET_INDEX s a i j).
  destruct (isSorted (buckets s !!! idx)); [symmetry; apply set_cell_same|].
  destruct (2 <=? sampleCount (buckets s !!! idx));
    [reflexivity|symmetry; apply set_cell_same].
Qed.

(** Finalize is a map of [finalize_cell] over the cells. *)
Lemma omnisketch_finalize_cells s :
  shape_ok s ->
  omnisketch_finalize XXH32 s = with_cells s (finalize_cell <$> cells s).
Proof.
  intros [Hb Hs]. unfold omnisketch_finalize.
  rewrite (for_each_bucket_flat
    (fun s' => sketchWidth s' = sketchWidth s /\ sketchHeight s' = sketchHeight s)
    _ _ _ _
    (fun s' idx =>
       set_cell s' idx (finalize_cell (buckets s' !!! idx, samples s' !!! idx)).1
                       (finalize_cell (buckets s' !!! idx, samples s' !!! idx)).2)).
  - rewrite <- Hb, (fold_cells (fun _ => finalize_cell)) by exact Hs.
    f_equal. apply (imap_const finalize_cell).
  - intros s' a i j [Hw Hh]. rewrite finalize_bucket_at. simpl.
    unfold SKETCH_BUCKET_INDEX, SKETCH_SIZE. rewrite Hw, Hh. reflexivity.
  - intros s' idx Hs'. exact Hs'.
  - split; reflexivity.
Qed.

Lemma combine_bucket_at src dst a i j :
  combine_bucket XXH32 src dst a i j
  = let idx := SKETCH_BUCKET_INDEX dst a i j in
    let idx' := SKETCH_BUCKET_INDEX src a i j in
    let c := merge_cell (sampleSize dst)
               (buckets dst !!! idx, samples dst !!! idx)
               (buckets src !!! idx', samples src !!! idx') in
    set_cell dst idx c.1 c.2.
Proof.
  unfold combine_bucket, merge_cell, SKETCH_BUCKET, SKETCH_SAMPLE.
  cbv zeta. cbn [fst snd].
  destruct (omnisketch_merge_buckets _ _ _ _ _ _). reflexivity.
Qed.

(** Combine is a pairwise [merge_cell], and the counts are added. *)
Lemma combine_sketches_cells dst src :
  shape_ok dst -> shape_ok src -> omnisketch_equals src dst = true ->
  combine_sketches XXH32 dst src
  = set_count
      (with_cells dst
         (imap (fun idx c => merge_cell (sampleSize dst) c (cells src !!! idx)) (cells dst)))
      (int32 (count dst + count src)).
Proof.
  intros [Hb Hs] [Hb' Hs'] Heq.
  apply omnisketch_equals_spec in Heq as (E1 & E2 & E3 & E4 & E5).
  unfold combine_sketches.
  rewrite (for_each_bucket_flat
    (fun d => sketchWidth d = sketchWidth dst /\ sketchHeight d = sketchHeight dst
              /\ sampleSize d = sampleSize dst)
    _ _ _ _
    (fun d idx =>
       set_cell d idx
         (merge_cell (sampleSize dst) (buckets d !!! idx, samples d !!! idx)
            (cells src !!! idx)).1
         (merge_cell (sampleSize dst) (buckets d !!! idx, samples d !!! idx)
            (cells src !!! idx)).2)).
  - rewrite E1, E2, E3, <- Hb.
    rewrite (fold_cells
      (fun idx c => merge_cell (sampleSize dst) c (cells src !!! idx))) by exact Hs.
    reflexivity.
  - intros d a i j (Hw & Hh & HB). rewrite combine_bucket_at. simpl.
    rewrite (cells_lookup_total src) by exact Hs'.
    unfold SKETCH_BUCKET_INDEX, SKETCH_SIZE. rewrite Hw, Hh, HB, E2, E3. reflexivity.
  - intros d idx Hd. exact Hd.
  - repeat split; reflexivity.
Qed.

Lemma shape_ok_with_cells s cs :
  shape_ok s -> length cs = length (buckets s) -> shape_ok (with_cells s cs).
Proof.
  intros [Hb Hs] Hlen. unfold shape_ok. simpl. rewrite !length_fmap. lia.
Qed.

Lemma sketch_wf_finalize s : sketch_wf s -> sketch_wf (omnisketch_finalize XXH32 s).
Proof.
  intros (Hf & HB & Hsh & Hall).
  rewrite omnisketch_finalize_cells by exact Hsh.
  pose proof Hsh as [Hb Hs].
  split; [exact Hf|]. split; [exact HB|].
  split; [apply shape_ok_with_cells; [exact Hsh|]; rewrite length_fmap; apply cells_length, Hs|].
  rewrite cells_with_cells. simpl.
  apply Forall_fmap. eapply Forall_impl; [exact Hall|].
  intros c Hc. simpl. rewrite (finalize_cell_canon _ c Hc).
  pose proof Hc as (C1 & C2 & C3 & C4 & C5 & _).
  assert (length (content c) = sampleCount c.1) as Hlen by (apply length_content; lia).
  apply canon_wf.
  - eapply hashed_perm; [symmetry; apply pg_qsort_perm|apply hashed_content].
  - apply pg_qsort_sorted.
  - rewrite pg_qsort_length. lia.
  - exact C4.
  - intros E. apply (f_equal length) in E. rewrite pg_qsort_length, Hlen in E.
    simpl in E. rewrite (C5 E). split; reflexivity.
Qed.

Lemma sketch_wf_combine dst src :
  sketch_wf dst -> sketch_wf src -> omnisketch_equals src dst = true ->
  sketch_wf (combine_sketches XXH32 dst src).
Proof.
  intros (Hf & HB & Hsh & Hall) (Hf' & HB' & Hsh' & Hall') Heq.
  rewrite combine_sketches_cells by assumption.
  pose proof Hsh as [Hb Hs]. pose proof Hsh' as [Hb' Hs'].
  pose proof (proj1 (omnisketch_equals_spec _ _) Heq) as (E1 & E2 & E3 & E4 & E5).
  split; [exact Hf|]. split; [exact HB|].
  split.
  { apply (shape_ok_with_cells dst); [exact Hsh|].
    rewrite length_imap. apply cells_length, Hs. }
  match goal with |- Forall _ (cells (set_count (with_cells _ ?cs) _)) =>
    change (Forall (cell_wf (sampleSize dst)) (cells (with_cells dst cs))) end.
  rewrite cells_with_cells.
  apply Forall_lookup_2. intros idx c Hc.
  apply list_lookup_imap_Some in Hc as (d & Hd & ->).
  assert (cell_wf (sampleSize dst) d) as Hwd by (eapply Forall_lookup_1; eauto).
  assert (idx < length (cells src)) as Hlt.
  { apply lookup_lt_Some in Hd. rewrite cells_length in * by assumption. lia. }
  apply lookup_lt_is_Some_2 in Hlt as [c' Hc'].
  rewrite (list_lookup_total_correct _ _ _ Hc').
  apply merge_cell_wf; [exact HB|exact Hwd|].
  rewrite <- E4. eapply Forall_lookup_1; eauto.
Qed.

Lemma combine_sketches_equals dst src x :
  omnisketch_equals (combine_sketches XXH32 dst src) x = omnisketch_equals dst x
  /\ omnisketch_equals x (combine_sketches XXH32 dst src) = omnisketch_equals x dst.
Proof.
  assert (same_header dst
    (for_each_bucket (numSketches src) (sketchHeight src) (sketchWidth src)
       (combine_bucket XXH32 src) dst)) as (H1 & H2 & H3 & H4 & H5 & H6 & _).
  { apply (for_each_bucket_inv (same_header dst)); [|repeat split].
    intros d a i j Hd. rewrite combine_bucket_at. exact Hd. }
  unfold omnisketch_equals, combine_sketches. simpl.
  rewrite H2, H3, H4, H5, H6. split; reflexivity.
Qed.

(** ** Machine arithmetic *)

Lemma uint32_add_l x y : uint32 (uint32 x + y) = uint32 (x + y).
Proof. unfold uint32. apply Zplus_mod_idemp_l. Qed.

Lemma uint32_add_r x y : uint32 (x + uint32 y) = uint32 (x + y).
Proof. unfold uint32. apply Zplus_mod_idemp_r. Qed.

Lemma int32_add_l x y : int32 (int32 x + y) = int32 (x + y).
Proof.
  unfold int32. f_equal.
  replace ((x + 2 ^ 31) mod 2 ^ 32 - 2 ^ 31 + y + 2 ^ 31)%Z
    with ((x + 2 ^ 31) mod 2 ^ 32 + y)%Z by lia.
  rewrite Zplus_mod_idemp_l. f_equal. lia.
Qed.

Lemma int32_add_r x y : int32 (x + int32 y) = int32 (x + y).
Proof. rewrite (Z.add_comm x), int32_add_l. f_equal. lia. Qed.

(** ** Three cells *)

Lemma forget_finalize_cell B m T L :
  cell_wf B m -> totalCount m.1 = T -> pg_qsort cmp_item_hash (content m) = L ->
  forget_cell (finalize_cell m) = canon B T L (2 <=? length L).
Proof.
  intros Hwf <- <-. rewrite (finalize_cell_canon B m Hwf).
  pose proof Hwf as (C1 & C2 & _).
  unfold forget_cell, forget_short_flag, canon. cbn [fst snd sampleCount].
  rewrite pg_qsort_length, length_content by lia.
  destruct (Nat.ltb_spec (sampleCount m.1) 2) as [Hlt|Hge];
    destruct (Nat.leb_spec 2 (sampleCount m.1)); try lia.
  - reflexivity.
  - rewrite orb_true_r. reflexivity.
Qed.

Lemma bottom3_left B a b c :
  1 <= B -> cell_wf B a -> cell_wf B b -> cell_wf B c ->
  forget_cell (finalize_cell (merge_cell B (merge_cell B a b) c)) = bottom3 B a b c.
Proof.
  intros HB Ha Hb Hc.
  pose proof (merge_cell_wf B a b HB Ha Hb) as Hab.
  destruct (merge_cell_view B a b HB Ha Hb) as [Tab Lab].
  destruct (merge_cell_view B _ c HB Hab Hc) as [T L].
  apply (forget_finalize_cell B); [apply merge_cell_wf; assumption| |].
  - rewrite T, Tab, uint32_add_l. reflexivity.
  - rewrite L.
    rewrite (pg_qsort_proper (content (merge_cell B a b) ++ content c)
               (pg_qsort cmp_item_hash (content (merge_cell B a b)) ++ content c))
      by (apply Permutation_app_tail; symmetry; apply pg_qsort_perm).
    rewrite Lab, bottom_k_app_l, <- app_assoc. reflexivity.
Qed.

Lemma bottom3_right B a b c :
  1 <= B -> cell_wf B a -> cell_wf B b -> cell_wf B c ->
  forget_cell (finalize_cell (merge_cell B a (merge_cell B b c))) = bottom3 B a b c.
Proof.
  intros HB Ha Hb Hc.
  pose proof (merge_cell_wf B b c HB Hb Hc) as Hbc.
  destruct (merge_cell_view B b c HB Hb Hc) as [Tbc Lbc].
  destruct (merge_cell_view B a _ HB Ha Hbc) as [T L].
  apply (forget_finalize_cell B); [apply merge_cell_wf; assumption| |].
  - rewrite T, Tbc, uint32_add_r. f_equal. lia.
  - rewrite L.
    rewrite (pg_qsort_proper (content a ++ content (merge_cell B b c))
               (content a ++ pg_qsort cmp_item_hash (content (merge_cell B b c))))
      by (apply Permutation_app_head; symmetry; apply pg_qsort_perm).
    rewrite Lbc, bottom_k_app_r. reflexivity.
Qed.

Lemma bottom3_rotate B a b c : bottom3 B c a b = bottom3 B a b c.
Proof.
  unfold bottom3.
  rewrite (pg_qsort_proper (content c ++ content a ++ content b)
             (content a ++ content b ++ content c)).
  - replace (totalCount c.1 + totalCount a.1 + totalCount b.1)%Z
      with (totalCount a.1 + totalCount b.1 + totalCount c.1)%Z by lia.
    reflexivity.
  - rewrite (app_assoc (content a)). apply Permutation_app_comm.
Qed.

(** ** Three sketches *)

Lemma imap_imap {A} (f g : nat -> A -> A) (l : list A) :
  imap f (imap g l) = imap (fun i x => f i (g i x)) l.
Proof.
  apply list_eq. intros i. rewrite !list_lookup_imap.
  destruct (l !! i); reflexivity.
Qed.

Lemma fmap_imap {A} (f : A -> A) (g : nat -> A -> A) (l : list A) :
  f <$> imap g l = imap (fun i x => f (g i x)) l.
Proof.
  apply list_eq. intros i. rewrite list_lookup_fmap, !list_lookup_imap.
  destruct (l !! i); reflexivity.
Qed.

Lemma shape_ok_combine dst src :
  sketch_wf dst -> sketch_wf src -> omnisketch_equals src dst = true ->
  shape_ok (comb dst src).
Proof. intros Hd Hs Heq. apply (sketch_wf_combine dst src Hd Hs Heq). Qed.

Lemma cells_combine dst src :
  sketch_wf dst -> sketch_wf src -> omnisketch_equals src dst = true ->
  cells (comb dst src)
  = imap (fun idx c => merge_cell (sampleSize dst) c (cells src !!! idx)) (cells dst).
Proof.
  intros (_ & _ & Hd & _) (_ & _ & Hs & _) Heq.
  rewrite combine_sketches_cells by assumption.
  apply (cells_with_cells dst).
Qed.

(** The left-nested grouping, worked out. *)
Lemma left_nested X Y Z :
  sketch_wf X -> sketch_wf Y -> sketch_wf Z ->
  omnisketch_equals Y X = true -> omnisketch_equals Z X = true ->
  fin (comb (comb X Y) Z)
  = with_cells (set_count X (int32 (count X + count Y + count Z)))
      (imap (fun i x => finalize_cell (merge_cell (sampleSize X)
               (merge_cell (sampleSize X) x (cells Y !!! i)) (cells Z !!! i)))
         (cells X)).
Proof.
  intros HX HY HZ EY EZ.
  pose proof (sketch_wf_combine X Y HX HY EY) as HXY.
  assert (omnisketch_equals Z (comb X Y) = true) as EZ'
    by (rewrite (proj2 (combine_sketches_equals X Y Z)); exact EZ).
  pose proof (sketch_wf_combine _ Z HXY HZ EZ') as HXYZ.
  rewrite omnisketch_finalize_cells by apply HXYZ.
  rewrite (cells_combine _ Z HXY HZ EZ'), (cells_combine X Y HX HY EY).
  rewrite imap_imap, fmap_imap.
  rewrite (combine_sketches_cells (comb X Y) Z) by (try apply HXY; try apply HZ; exact EZ').
  rewrite (combine_sketches_cells X Y) by (try apply HX; try apply HY; exact EY).
  unfold with_cells, set_count. simpl. rewrite int32_add_l. reflexivity.
Qed.

(** The right-nested grouping, worked out. *)
Lemma right_nested X Y Z :
  sketch_wf X -> sketch_wf Y -> sketch_wf Z ->
  omnisketch_equals Y X = true -> omnisketch_equals Z X = true ->
  fin (comb X (comb Y Z))
  = with_cells (set_count X (int32 (count X + count Y + count Z)))
      (imap (fun i x => finalize_cell (merge_cell (sampleSize X) x
               (imap (fun i y => merge_cell (sampleSize Y) y (cells Z !!! i)) (cells Y) !!! i)))
         (cells X)).
Proof.
  intros HX HY HZ EY EZ.
  assert (omnisketch_equals Z Y = true) as EZY.
  { apply omnisketch_equals_spec in EY, EZ. apply omnisketch_equals_spec.
    destruct EY as (?&?&?&?&?), EZ as (?&?&?&?&?). repeat split; congruence. }
  pose proof (sketch_wf_combine Y Z HY HZ EZY) as HYZ.
  assert (omnisketch_equals (comb Y Z) X = true) as EYZ
    by (rewrite (proj1 (combine_sketches_equals Y Z X)); exact EY).
  pose proof (sketch_wf_combine X _ HX HYZ EYZ) as HXYZ.
  rewrite omnisketch_finalize_cells by apply HXYZ.
  rewrite (cells_combine X _ HX HYZ EYZ), (cells_combine Y Z HY HZ EZY).
  rewrite fmap_imap.
  rewrite (combine_sketches_cells X (comb Y Z)) by (try apply HX; try apply HYZ; exact EYZ).
  rewrite combine_sketches_count.
  unfold with_cells, set_count. simpl. rewrite int32_add_r.
  rewrite Z.add_assoc. reflexivity.
Qed.

Lemma fst_forget_cell (cs : list (bucket_t * list Z)) :
  (forget_cell <$> cs).*1 = forget_short_flag <$> cs.*1.
Proof. induction cs as [|c cs IH]; [reflexivity|]. rewrite !fmap_cons, IH. reflexivity. Qed.

Lemma snd_forget_cell (cs : list (bucket_t * list Z)) :
  (forget_cell <$> cs).*2 = cs.*2.
Proof. induction cs as [|c cs IH]; [reflexivity|]. rewrite !fmap_cons, IH. reflexivity. Qed.

Lemma forget_with_cells s1 s2 cs1 cs2 :
  flags s1 = flags s2 -> numSketches s1 = numSketches s2 ->
  sketchWidth s1 = sketchWidth s2 -> sketchHeight s1 = sketchHeight s2 ->
  sampleSize s1 = sampleSize s2 -> itemSize s1 = itemSize s2 ->
  count s1 = count s2 ->
  forget_cell <$> cs1 = forget_cell <$> cs2 ->
  forget_seed_and_short_flags (with_cells s1 cs1)
  = forget_seed_and_short_flags (with_cells s2 cs2).
Proof.
  intros E1 E2 E3 E4 E5 E6 E7 Hcs.
  unfold forget_seed_and_short_flags, with_cells. simpl.
  rewrite E1, E2, E3, E4, E5, E6, E7. f_equal.
  - rewrite <- !fst_forget_cell, Hcs. reflexivity.
  - rewrite <- (snd_forget_cell cs1), <- (snd_forget_cell cs2), Hcs. reflexivity.
Qed.

Lemma lookup_total_imap_cell (f : nat -> bucket_t * list Z -> bucket_t * list Z) l i :
  i < length l -> imap f l !!! i = f i (l !!! i).
Proof. apply list_lookup_total_imap. Qed.

Lemma cells_length_wf X :
  sketch_wf X -> length (cells X) = numSketches X * (sketchHeight X * sketchWidth X).
Proof. intros (_ & _ & [Hb Hs] & _). rewrite cells_length by exact Hs. exact Hb. Qed.

Lemma cells_lookup_wf X i :
  sketch_wf X -> i < length (cells X) ->
  exists x, cells X !! i = Some x /\ cells X !!! i = x /\ cell_wf (sampleSize X) x.
Proof.
  intros HX Hi. destruct (lookup_lt_is_Some_2 _ _ Hi) as [x Hx].
  exists x. split; [exact Hx|]. split; [apply list_lookup_total_correct, Hx|].
  destruct HX as (_ & _ & _ & Hall). eapply Forall_lookup_1; eauto.
Qed.

Lemma merge_cell_empty_src B d s :
  sampleCount s.1 = 0 -> merge_cell B d s = d.
Proof.
  intros H0. unfold merge_cell, omnisketch_merge_buckets.
  rewrite H0. destruct d; reflexivity.
Qed.

Lemma finalize_cell_flagged c : isSorted c.1 = true -> finalize_cell c = c.
Proof. intros H. unfold finalize_cell. rewrite H. reflexivity. Qed.

Lemma forget_cell_inj x y :
  forget_cell x = forget_cell y -> isSorted x.1 = isSorted y.1 -> x = y.
Proof.
  destruct x as [[t n mi mh fl] smp], y as [[t' n' mi' mh' fl'] smp'].
  unfold forget_cell, forget_short_flag, set_isSorted. simpl.
  intros H Hfl. subst fl'.
  destruct (n <? 2) eqn:Hn, (n' <? 2) eqn:Hn'; inversion H; subst;
    try reflexivity; congruence.
Qed.

(** The two groupings that keep the order of the arguments agree on
    every cell, flag included. *)
Lemma finalize_merge_assoc B a b c :
  1 <= B -> cell_wf B a -> cell_wf B b -> cell_wf B c ->
  finalize_cell (merge_cell B (merge_cell B a b) c)
  = finalize_cell (merge_cell B a (merge_cell B b c)).
Proof.
  intros HB Ha Hb Hc.
  destruct (Nat.eq_dec (sampleCount c.1) 0) as [H0|Hn0].
  { rewrite !(merge_cell_empty_src _ _ c H0). reflexivity. }
  apply forget_cell_inj.
  { rewrite bottom3_left, bottom3_right by assumption. reflexivity. }
  pose proof (merge_cell_wf B a b HB Ha Hb) as Hab.
  pose proof (merge_cell_wf B b c HB Hb Hc) as Hbc.
  assert (isSorted (merge_cell B (merge_cell B a b) c).1 = true) as Hl.
  { rewrite (merge_cell_canon B _ c HB Hab Hc).
    destruct (Nat.eqb_spec (sampleCount c.1) 0); [lia|reflexivity]. }
  assert (sampleCount (merge_cell B b c).1 <> 0) as Hbc0.
  { rewrite (merge_cell_canon B b c HB Hb Hc).
    destruct (Nat.eqb_spec (sampleCount c.1) 0); [lia|].
    rewrite canon_sampleCount, length_take, pg_qsort_length, length_app.
    pose proof Hc as (C1 & C2 & _).
    rewrite (length_content c) by lia. lia. }
  assert (isSorted (merge_cell B a (merge_cell B b c)).1 = true) as Hr.
  { rewrite (merge_cell_canon B a _ HB Ha Hbc).
    destruct (Nat.eqb_spec (sampleCount (merge_cell B b c).1) 0); [lia|reflexivity]. }
  rewrite !finalize_cell_flagged by assumption. congruence.
Qed.

(** C3, as amended.  For three sketches that satisfy the sketch invariant
    and agree on the five structural fields, the two groupings that keep
    the order of the arguments give the same sketch after finalize.  The
    grouping that starts from the third sketch agrees with them up to the
    seed (a result keeps the seed of its leftmost argument) and up to the
    sorted flag of buckets that hold fewer than two IDs. *)
Theorem combine_grouping_irrelevant A B C :
  sketch_wf A -> sketch_wf B -> sketch_wf C ->
  omnisketch_equals A B = true -> omnisketch_equals B C = true ->
  fin (comb (comb A B) C) = fin (comb A (comb B C))
  /\ forget_seed_and_short_flags (fin (comb A (comb B C)))
     = forget_seed_and_short_flags (fin (comb (comb C A) B))
  /\ seed (fin (comb A (comb B C))) = seed A
  /\ seed (fin (comb (comb C A) B)) = seed C.
Proof.
  intros HA HB HC EAB EBC.
  pose proof (proj1 (omnisketch_equals_spec _ _) EAB) as (E1 & E2 & E3 & E4 & E5).
  pose proof (proj1 (omnisketch_equals_spec _ _) EBC) as (F1 & F2 & F3 & F4 & F5).
  assert (omnisketch_equals B A = true) as EBA
    by (apply omnisketch_equals_spec; repeat split; congruence).
  assert (omnisketch_equals C A = true) as ECA
    by (apply omnisketch_equals_spec; repeat split; congruence).
  assert (omnisketch_equals A C = true) as EAC
    by (apply omnisketch_equals_spec; repeat split; congruence).
  assert (length (cells B) = length (cells A)) as LB
    by (rewrite !cells_length_wf by assumption; congruence).
  assert (length (cells C) = length (cells A)) as LC
    by (rewrite !cells_length_wf by assumption; congruence).
  rewrite (left_nested A B C HA HB HC EBA ECA).
  rewrite (right_nested A B C HA HB HC EBA ECA).
  rewrite (left_nested C A B HC HA HB EAC EBC).
  assert (forall i a, cells A !! i = Some a ->
    exists b c, cells B !! i = Some b /\ cells C !! i = Some c
      /\ cell_wf (sampleSize A) a /\ cell_wf (sampleSize A) b
      /\ cell_wf (sampleSize A) c) as Hcells.
  { intros i a Ha. pose proof (lookup_lt_Some _ _ _ Ha) as Hi.
    destruct (cells_lookup_wf A i HA Hi) as (a' & Ha' & _ & Hwa).
    destruct (cells_lookup_wf B i HB ltac:(lia)) as (b & Hb & _ & Hwb).
    destruct (cells_lookup_wf C i HC ltac:(lia)) as (c & Hc & _ & Hwc).
    exists b, c. rewrite Ha in Ha'. injection Ha' as <-.
    rewrite <- E4 in Hwb. rewrite <- F4, <- E4 in Hwc.
    repeat (split; [assumption|]). assumption. }
  pose proof HA as (_ & HBpos & _).
  split; [|split; [|split; reflexivity]].
  - f_equal. apply imap_ext. intros i a Ha. cbv beta.
    destruct (Hcells i a Ha) as (b & c & Hb & Hc & Hwa & Hwb & Hwc).
    rewrite lookup_total_imap_cell by (apply lookup_lt_Some in Hb; exact Hb).
    cbv beta.
    rewrite (list_lookup_total_correct _ _ _ Hb), (list_lookup_total_correct _ _ _ Hc), <- E4.
    apply finalize_merge_assoc; assumption.
  - destruct HA as (FA & _), HC as (FC & _).
    apply forget_with_cells; try (simpl; congruence).
    { simpl. f_equal. lia. }
    apply list_eq. intros i. rewrite !list_lookup_fmap, !list_lookup_imap.
    destruct (cells A !! i) as [a|] eqn:Ha.
    + destruct (Hcells i a Ha) as (b & c & Hb & Hc & Hwa & Hwb & Hwc).
      rewrite Hc. cbn [fmap option_fmap option_map]. f_equal.
      rewrite lookup_total_imap_cell by (apply lookup_lt_Some in Hb; exact Hb).
      cbv beta.
      rewrite (list_lookup_total_correct _ _ _ Hb), (list_lookup_total_correct _ _ _ Hc),
        (list_lookup_total_correct _ _ _ Ha), <- E4, <- F4, <- E4.
      rewrite bottom3_left, bottom3_right by assumption.
      symmetry. apply bottom3_rotate.
    + rewrite (lookup_ge_None_2 (cells C) i); [reflexivity|].
      apply lookup_ge_None in Ha. lia.
Qed.

(** ** Finalize *)

Lemma finalize_cell_idemp c : finalize_cell (finalize_cell c) = finalize_cell c.
Proof.
  unfold finalize_cell.
  destruct (isSorted c.1) eqn:Hfl; [rewrite Hfl; reflexivity|].
  destruct (2 <=? sampleCount c.1) eqn:Hn; [reflexivity|].
  rewrite Hfl, Hn. reflexivity.
Qed.

Lemma finalize_cell_flag c :
  2 <= sampleCount (finalize_cell c).1 -> isSorted (finalize_cell c).1 = true.
Proof.
  unfold finalize_cell.
  destruct (isSorted c.1) eqn:Hfl; [intros _; exact Hfl|].
  destruct (Nat.leb_spec 2 (sampleCount c.1)); [reflexivity|]. lia.
Qed.

Lemma item_hash_le_with_hash x y :
  item_hash_le (with_hash x) (with_hash y) <-> id_le XXH32 x y.
Proof.
  rewrite item_hash_le_spec. unfold id_le, id_lt, with_hash. simpl.
  split.
  - intros [Hlt|[Heq Hle]]; [left; left; exact Hlt|].
    destruct (Z.eq_dec x y) as [->|Hne]; [right; reflexivity|].
    left. right. split; [exact Heq|lia].
  - intros [[Hlt | [Heq Hlt]] | ->]; [left; exact Hlt|right; split; [exact Heq|lia]|].
    right. split; [reflexivity|lia].
Qed.

Lemma Sorted_ids (l : list Z) :
  Sorted item_hash_le (with_hash <$> l) -> Sorted (id_le XXH32) l.
Proof.
  induction l as [|x l IH]; [constructor|].
  rewrite fmap_cons. intros Hs. apply Sorted_inv in Hs as [Hs Hhd].
  constructor; [apply IH, Hs|].
  destruct l as [|y l]; [constructor|].
  rewrite fmap_cons in Hhd. apply HdRel_inv in Hhd.
  constructor. apply item_hash_le_with_hash, Hhd.
Qed.

Lemma Sorted_ids_strict (l : list Z) :
  Sorted (id_le XXH32) l -> NoDup l -> Sorted (id_lt XXH32) l.
Proof.
  induction 1 as [|x l Hs IH Hhd]; intros Hnd; [constructor|].
  apply NoDup_cons in Hnd as [Hx Hnd].
  constructor; [apply IH, Hnd|].
  destruct Hhd as [|y l Hxy]; constructor.
  destruct Hxy as [Hlt | ->]; [exact Hlt|].
  exfalso. apply Hx. left.
Qed.

(** Finalize leaves a cell with fewer than two IDs as it is. *)
Lemma finalize_cell_short c : sampleCount c.1 < 2 -> finalize_cell c = c.
Proof.
  intros Hn. unfold finalize_cell.
  destruct (isSorted c.1); [reflexivity|].
  destruct (Nat.leb_spec 2 (sampleCount c.1)); [lia | reflexivity].
Qed.

(** C5, as amended.  Finalize is idempotent, and after it every bucket
    that holds at least two IDs is flagged sorted; a cell with a single ID
    (or none) is left as it was, so it keeps the flag it had.  When the
    sketch satisfied the sketch invariant before (in particular, buckets
    that were flagged sorted were in order), every non-empty bucket has its
    IDs in [(H_s, id)] order, strictly so when they are pairwise distinct,
    and [max_index = sample_count - 1]. *)
Theorem finalize_sorts_and_is_idempotent s :
  shape_ok s ->
  fin (fin s) = fin s
  /\ Forall (fun b => 2 <= sampleCount b -> isSorted b = true) (buckets (fin s))
  /\ Forall2 (fun c c' => sampleCount c.1 < 2 -> c' = c /\ isSorted c'.1 = isSorted c.1)
       (cells s) (cells (fin s))
  /\ (sketch_wf s ->
      Forall (fun c => 0 < sampleCount c.1 ->
                maxIndex c.1 = sampleCount c.1 - 1
                /\ Sorted (id_le XXH32) (stored_ids c)
                /\ (NoDup (stored_ids c) -> Sorted (id_lt XXH32) (stored_ids c)))
        (cells (fin s))).
Proof.
  intros Hsh. pose proof Hsh as [Hb Hs].
  rewrite (omnisketch_finalize_cells s Hsh).
  assert (shape_ok (with_cells s (finalize_cell <$> cells s))) as Hsh'.
  { apply shape_ok_with_cells; [exact Hsh|].
    rewrite length_fmap. apply cells_length, Hs. }
  split; [|split; [|split]].
  - rewrite (omnisketch_finalize_cells _ Hsh'), cells_with_cells.
    assert (finalize_cell <$> (finalize_cell <$> cells s) = finalize_cell <$> cells s) as ->.
    { rewrite <- list_fmap_compose. apply list_fmap_ext.
      intros i c _. apply finalize_cell_idemp. }
    reflexivity.
  - simpl. apply Forall_fmap, Forall_fmap, Forall_true. intros c. simpl.
    apply finalize_cell_flag.
  - rewrite cells_with_cells. apply Forall2_fmap_r, Forall_Forall2_diag, Forall_true.
    intros c Hn. cbn. rewrite (finalize_cell_short c Hn). split; reflexivity.
  - intros Hwf. rewrite cells_with_cells.
    destruct Hwf as (_ & _ & _ & Hall).
    apply Forall_fmap. eapply Forall_impl; [exact Hall|].
    intros c Hc. simpl. intros Hpos.
    rewrite (finalize_cell_canon _ c Hc) in Hpos |- *.
    assert (stored_ids (canon (sampleSize s) (totalCount c.1)
                          (pg_qsort cmp_item_hash (content c))
                          (isSorted c.1 || (2 <=? sampleCount c.1)))
            = item <$> pg_qsort cmp_item_hash (content c)) as ->.
    { unfold stored_ids, canon. simpl.
      apply take_app_length'. rewrite length_fmap. reflexivity. }
    assert (Sorted (id_le XXH32) (item <$> pg_qsort cmp_item_hash (content c))) as Hsorted.
    { apply Sorted_ids. rewrite hashed_fmap; [apply pg_qsort_sorted|].
      eapply hashed_perm; [symmetry; apply pg_qsort_perm|apply hashed_content]. }
    split; [reflexivity|]. split; [exact Hsorted|].
    apply Sorted_ids_strict, Hsorted.
Qed.

(** ** Every sketch of the store stays never-empty through combine *)

Lemma combine_at_never_empty pd ps h a i j :
  store_never_empty h -> store_never_empty (combine_at XXH32 pd ps h a i j).
Proof.
  intros Hh. unfold combine_at.
  destruct (h !! pd) as [dst|] eqn:Hd; [|exact Hh].
  destruct (h !! ps) as [src|] eqn:Hs; [|exact Hh].
  intros q s Hq. destruct (decide (q = pd)) as [->|Hne].
  - rewrite lookup_insert_eq in Hq. injection Hq as <-.
    apply combine_bucket_never_empty. eapply Hh, Hd.
  - rewrite lookup_insert_ne in Hq by congruence. eapply Hh, Hq.
Qed.

Lemma add_count_at_never_empty pd ps h :
  store_never_empty h -> store_never_empty (add_count_at pd ps h).
Proof.
  intros Hh. unfold add_count_at.
  destruct (h !! pd) as [dst|] eqn:Hd; [|exact Hh].
  destruct (h !! ps) as [src|] eqn:Hs; [|exact Hh].
  intros q s Hq. destruct (decide (q = pd)) as [->|Hne].
  - rewrite lookup_insert_eq in Hq. injection Hq as <-.
    exact (Hh _ _ Hd).
  - rewrite lookup_insert_ne in Hq by congruence. eapply Hh, Hq.
Qed.

Lemma omnisketch_combine_never_empty in_agg h arg0 arg1 r h' :
  store_never_empty h ->
  omnisketch_combine XXH32 in_agg h arg0 arg1 = Ok (r, h') ->
  store_never_empty h'.
Proof.
  intros Hh. unfold omnisketch_combine.
  destruct (negb in_agg); [discriminate|].
  destruct arg0 as [p0|], arg1 as [p1|].
  - destruct (h !! p0) as [dst|] eqn:Hd; [|discriminate].
    destruct (h !! p1) as [src|] eqn:Hs; [|discriminate].
    destruct (negb _); [discriminate|]. intros [= <- <-].
    apply add_count_at_never_empty.
    apply for_each_bucket_inv; [|exact Hh].
    intros; apply combine_at_never_empty; assumption.
  - intros [= <- <-]. exact Hh.
  - destruct (h !! p1) as [src|] eqn:Hs; [|discriminate].
    intros [= <- <-]. intros q s Hq.
    destruct (decide (q = fresh (dom h))) as [->|Hne].
    + rewrite lookup_insert_eq in Hq. injection Hq as <-. exact (Hh _ _ Hs).
    + rewrite lookup_insert_ne in Hq by congruence. eapply Hh, Hq.
  - intros [= <- <-]. exact Hh.
Qed.

Lemma reachable_never_empty s : reachable s -> never_empty s.
Proof.
  induction 1 as [sz prng record s Hsz Hadd | s sz prng record s' _ IH Hadd
                 | h h' arg0 arg1 p c _ IH Hcomb Hp | s _ IH].
  - eapply (omnisketch_add_never_empty None); eauto.
  - eapply (omnisketch_add_never_empty (Some s)); eauto.
  - eapply (omnisketch_combine_never_empty true h arg0 arg1 (Some p) h'); eauto.
  - apply omnisketch_finalize_never_empty, IH.
Qed.

(** ** The header through add *)

Lemma same_header_refl s : same_header s s.
Proof. repeat split. Qed.

Lemma add_hash_row_header s0 column hash it s i :
  same_header s0 s -> same_header s0 (add_hash_row XXH32 column hash it s i).
Proof.
  intros Hs. unfold add_hash_row.
  destruct (omnisketch_sample_add _ _ _ _ _). exact Hs.
Qed.

Lemma omnisketch_add_hash_header s column hash it :
  same_header s (omnisketch_add_hash XXH32 s column hash it).
Proof.
  unfold omnisketch_add_hash.
  apply (fold_left_inv (same_header s)); [|apply same_header_refl].
  intros; apply add_hash_row_header; assumption.
Qed.

Lemma add_attribute_header s0 id s ia :
  same_header s0 s -> same_header s0 (add_attribute XXH32 id s ia).
Proof.
  intros Hs. unfold add_attribute.
  destruct ia.2; [exact Hs| |];
    (match goal with |- same_header _ (omnisketch_add_hash _ ?x ?c ?hh ?it) =>
       pose proof (omnisketch_add_hash_header x c hh it) as Hh end;
     destruct Hs as (?&?&?&?&?&?&?&?), Hh as (?&?&?&?&?&?&?&?);
     repeat split; congruence).
Qed.

Lemma omnisketch_add_header state sz prng record s' :
  omnisketch_add XXH32 state sz prng record = Ok s' ->
  let s0 := match state with
            | None => omnisketch_allocate (length record) (sz_w sz) (sz_d sz)
                        (sz_B sz) (sz_b sz) prng
            | Some s => s
            end in
  same_header (set_count s0 (int32 (count s0 + 1))) s'.
Proof.
  unfold omnisketch_add. destruct (negb _); [discriminate|].
  intros [= <-]. cbv zeta.
  apply fold_left_inv; [|apply same_header_refl].
  intros; apply add_attribute_header; assumption.
Qed.

(** A record with as many attributes as the sketch has columns is
    accepted; the call counts it and changes nothing else in the header. *)
Lemma omnisketch_add_some s sz prng record :
  numSketches s = length record ->
  exists s', omnisketch_add XXH32 (Some s) sz prng record = Ok s'
    /\ count s' = int32 (count s + 1)
    /\ flags s' = flags s /\ numSketches s' = numSketches s
    /\ sketchWidth s' = sketchWidth s /\ sketchHeight s' = sketchHeight s
    /\ sampleSize s' = sampleSize s /\ itemSize s' = itemSize s
    /\ seed s' = seed s.
Proof.
  intros Hn.
  destruct (omnisketch_add XXH32 (Some s) sz prng record) as [s'|e] eqn:E.
  - exists s'. split; [reflexivity|].
    destruct (omnisketch_add_header _ _ _ _ _ E) as (H1 & H2 & H3 & H4 & H5 & H6 & H7 & H8).
    repeat split;
      [exact H7|exact H1|exact H2|exact H3|exact H4|exact H5|exact H6|exact H8].
  - exfalso. unfold omnisketch_add in E.
    rewrite Hn, Nat.eqb_refl in E. discriminate.
Qed.

Lemma omnisketch_add_none sz prng record :
  exists s', omnisketch_add XXH32 None sz prng record = Ok s'
    /\ count s' = 1%Z
    /\ flags s' = 0%Z /\ numSketches s' = length record
    /\ sketchWidth s' = sz_w sz /\ sketchHeight s' = sz_d sz
    /\ sampleSize s' = sz_B sz /\ itemSize s' = sz_b sz
    /\ seed s' = uint32 prng.
Proof.
  set (s0 := omnisketch_allocate (length record) (sz_w sz) (sz_d sz) (sz_B sz) (sz_b sz) prng).
  destruct (omnisketch_add_some s0 sz prng record eq_refl)
    as (s' & Hadd & Hc & H1 & H2 & H3 & H4 & H5 & H6 & H7).
  exists s'. split; [exact Hadd|]. repeat split; assumption.
Qed.

(** ** A sample never drops back to empty *)

Lemma keeps_samples_refl s : keeps_samples s s.
Proof. intros k Hk. exact Hk. Qed.

Lemma keeps_samples_trans s1 s2 s3 :
  keeps_samples s1 s2 -> keeps_samples s2 s3 -> keeps_samples s1 s3.
Proof. intros H12 H23 k Hk. apply H23, H12, Hk. Qed.

Lemma keeps_samples_set_cell s idx b smp :
  (0 < sampleCount (buckets s !!! idx) -> 0 < sampleCount b) ->
  keeps_samples s (set_cell s idx b smp).
Proof.
  intros Hb k Hk. cbn [set_cell buckets].
  rewrite list_lookup_total_insert.
  destruct (decide _) as [[-> _]|_]; [apply Hb, Hk | exact Hk].
Qed.

Lemma keeps_samples_set_count s n : keeps_samples s (set_count s n).
Proof. intros k Hk. exact Hk. Qed.

Lemma omnisketch_sample_add_keeps sk b smp it :
  0 < sampleCount b ->
  0 < sampleCount (omnisketch_sample_add XXH32 sk b smp it).1.
Proof.
  intros Hb. unfold omnisketch_sample_add.
  destruct (sampleCount b <? sampleSize sk).
  - destruct (sampleCount b =? 0); [simpl; lia|].
    destruct (Z.ltb _ _); simpl; lia.
  - destruct (Z.ltb _ _); simpl; [rewrite rescan_max_sampleCount|]; lia.
Qed.

Lemma add_hash_row_keeps column hash it s i :
  keeps_samples s (add_hash_row XXH32 column hash it s i).
Proof.
  unfold add_hash_row.
  destruct (omnisketch_sample_add _ _ _ _ _) as [b' smp'] eqn:E.
  apply keeps_samples_set_cell. intros Hk.
  change b' with ((b', smp').1). rewrite <- E.
  apply omnisketch_sample_add_keeps. exact Hk.
Qed.

Lemma omnisketch_add_hash_keeps s column hash it :
  keeps_samples s (omnisketch_add_hash XXH32 s column hash it).
Proof.
  unfold omnisketch_add_hash.
  apply fold_left_inv; [|apply keeps_samples_refl].
  intros s1 i H1. eapply keeps_samples_trans; [exact H1|].
  apply add_hash_row_keeps.
Qed.

Lemma omnisketch_add_keeps s sz prng record s' :
  omnisketch_add XXH32 (Some s) sz prng record = Ok s' -> keeps_samples s s'.
Proof.
  unfold omnisketch_add. destruct (negb _); [discriminate|].
  intros [= <-]. cbv zeta.
  apply fold_left_inv; [|apply keeps_samples_set_count].
  intros s1 [i att] H1. eapply keeps_samples_trans; [exact H1|].
  unfold add_attribute. cbn [snd fst].
  destruct att; [apply keeps_samples_refl| |]; apply omnisketch_add_hash_keeps.
Qed.

Lemma finalize_bucket_keeps s a i j :
  keeps_samples s (finalize_bucket XXH32 s a i j).
Proof.
  unfold finalize_bucket.
  destruct (isSorted _); [apply keeps_samples_refl|].
  destruct (2 <=? _); [|apply keeps_samples_refl].
  apply keeps_samples_set_cell. intros Hk. exact Hk.
Qed.

Lemma omnisketch_finalize_keeps s :
  keeps_samples s (omnisketch_finalize XXH32 s).
Proof.
  unfold omnisketch_finalize.
  apply for_each_bucket_inv; [|apply keeps_samples_refl].
  intros s1 a i j H1. eapply keeps_samples_trans; [exact H1|].
  apply finalize_bucket_keeps.
Qed.

Lemma omnisketch_merge_buckets_keeps db sb dsmp ssmp B :
  1 <= B -> 0 < sampleCount db ->
  0 < sampleCount (omnisketch_merge_buckets XXH32 db sb dsmp ssmp B).1.
Proof.
  intros HB Hdb. unfold omnisketch_merge_buckets.
  destruct (Nat.eqb_spec (sampleCount sb) 0) as [H0|Hn]; [exact Hdb|].
  pose proof (merge_loop_nonempty B (omnisketch_sorted_items XXH32 db dsmp)
    (omnisketch_sorted_items XXH32 sb ssmp) (sampleCount db) (sampleCount sb)
    dsmp (maxHash db) HB ltac:(lia)) as Hk.
  destruct (merge_loop _ _ _ _ _ _ _ _ _ _ _) as [[k smp'] mh].
  exact Hk.
Qed.

Lemma combine_bucket_keeps src dst a i j :
  1 <= sampleSize dst ->
  keeps_samples dst (combine_bucket XXH32 src dst a i j).
Proof.
  intros HB. unfold combine_bucket.
  destruct (omnisketch_merge_buckets _ _ _ _ _ _) as [b' smp'] eqn:E.
  apply keeps_samples_set_cell. intros Hk.
  change b' with ((b', smp').1). rewrite <- E.
  apply omnisketch_merge_buckets_keeps; [exact HB | exact Hk].
Qed.

(** ** Samples are kept on the store *)

Lemma store_keeps_refl h : store_keeps h h.
Proof. intros q s Hq. exists s. split; [exact Hq | apply keeps_samples_refl]. Qed.

Lemma store_keeps_update (h h1 : gmap positive omnisketch_t) pd dst dst' :
  store_keeps h h1 -> h1 !! pd = Some dst -> keeps_samples dst dst' ->
  store_keeps h (<[pd := dst']> h1).
Proof.
  intros Hk Hd Hdd q s Hq. destruct (Hk q s Hq) as (s1 & Hq1 & Hs1).
  destruct (decide (q = pd)) as [->|Hne].
  - exists dst'. split; [apply lookup_insert_eq|].
    rewrite Hd in Hq1. injection Hq1 as ->.
    eapply keeps_samples_trans; [exact Hs1 | exact Hdd].
  - exists s1. split; [|exact Hs1].
    rewrite lookup_insert_ne by congruence. exact Hq1.
Qed.

Lemma combine_at_keeps pd ps h h1 a i j :
  store_never_empty h1 -> store_keeps h h1 ->
  store_keeps h (combine_at XXH32 pd ps h1 a i j).
Proof.
  intros Hne Hk. unfold combine_at.
  destruct (h1 !! pd) as [dst|] eqn:Hd; [|exact Hk].
  destruct (h1 !! ps) as [src|] eqn:Hs; [|exact Hk].
  eapply store_keeps_update; [exact Hk | exact Hd |].
  apply combine_bucket_keeps. exact (proj1 (Hne _ _ Hd)).
Qed.

Lemma add_count_at_keeps pd ps h h1 :
  store_keeps h h1 -> store_keeps h (add_count_at pd ps h1).
Proof.
  intros Hk. unfold add_count_at.
  destruct (h1 !! pd) as [dst|] eqn:Hd; [|exact Hk].
  destruct (h1 !! ps) as [src|] eqn:Hs; [|exact Hk].
  eapply store_keeps_update; [exact Hk | exact Hd | apply keeps_samples_set_count].
Qed.

Lemma omnisketch_combine_keeps in_agg h arg0 arg1 r h' :
  store_never_empty h ->
  omnisketch_combine XXH32 in_agg h arg0 arg1 = Ok (r, h') ->
  store_keeps h h'.
Proof.
  intros Hh. unfold omnisketch_combine.
  destruct (negb in_agg); [discriminate|].
  destruct arg0 as [p0|], arg1 as [p1|].
  - destruct (h !! p0) as [dst|] eqn:Hd; [|discriminate].
    destruct (h !! p1) as [src|] eqn:Hs; [|discriminate].
    destruct (negb _); [discriminate|]. intros [= <- <-].
    apply add_count_at_keeps.
    apply (for_each_bucket_inv
             (fun h1 => store_never_empty h1 /\ store_keeps h h1)).
    + intros h1 a i j [H1 H2]. split.
      * apply combine_at_never_empty, H1.
      * apply combine_at_keeps; assumption.
    + split; [exact Hh | apply store_keeps_refl].
  - intros [= <- <-]. apply store_keeps_refl.
  - destruct (h !! p1) as [src|] eqn:Hs; [|discriminate].
    intros [= <- <-]. intros q s Hq. exists s. split; [|apply keeps_samples_refl].
    rewrite lookup_insert_ne; [exact Hq|].
    intros <-. pose proof (is_fresh (dom h)) as Hf.
    apply Hf. apply elem_of_dom. rewrite Hq. eauto.
  - intros [= <- <-]. apply store_keeps_refl.
Qed.

(** C10.  In every sketch reachable by add, combine and finalize, a
    bucket with [total_count > 0] has [sample_count > 0]; and a further
    add, finalize or combine (on a store of reachable sketches) leaves no
    bucket empty that held an ID. *)
Theorem counted_bucket_has_sample s :
  reachable s ->
  Forall (fun b => (0 < totalCount b)%Z -> 0 < sampleCount b) (buckets s)
  /\ (forall sz prng record s',
        omnisketch_add XXH32 (Some s) sz prng record = Ok s' -> keeps_samples s s')
  /\ keeps_samples s (omnisketch_finalize XXH32 s)
  /\ (forall (h h' : gmap positive omnisketch_t) arg0 arg1 r q,
        (forall q' s', h !! q' = Some s' -> reachable s') ->
        h !! q = Some s ->
        omnisketch_combine XXH32 true h arg0 arg1 = Ok (r, h') ->
        exists s', h' !! q = Some s' /\ keeps_samples s s').
Proof.
  intros Hr. split; [exact (proj2 (reachable_never_empty _ Hr))|].
  split; [intros sz prng record s'; apply omnisketch_add_keeps|].
  split; [apply omnisketch_finalize_keeps|].
  intros h h' arg0 arg1 r q Hall Hq Hcomb.
  assert (store_never_empty h) as Hne.
  { intros q' s' Hq'. eapply reachable_never_empty, Hall, Hq'. }
  exact (omnisketch_combine_keeps true h arg0 arg1 r h' Hne Hcomb q s Hq).
Qed.

End Operations.

(** ** Evaluations on the regression configuration *)

(** C1 (code defect).  One hundred records (1, 2) are aggregated and
    the sketch is finalized; the query (1, 2) visits twelve cells, each
    with [total_count = 100] and the same one hundred IDs.  The
    specification's estimate is floor (100 * 100 / 1024) = 9; the code
    divides first, 100 / 1024 = 0, and returns 0. *)
Theorem estimate_divides_before_multiplying :
  is_Some Regress.hundred
  /\ spec_max_count (visited_cells Regress.H (Regress.get Regress.hundred) [1; 2]%Z) = 100%Z
  /\ length (spec_candidates (visited_cells Regress.H (Regress.get Regress.hundred) [1; 2]%Z)) = 100
  /\ spec_estimate Regress.H (Regress.get Regress.hundred) [1; 2]%Z = 9%Z
  /\ omnisketch_estimate Regress.H Regress.hundred (Regress.rec 1 2) = Ok (Some 0%Z).
Proof. by_compute. Qed.

(** C4 (code defect).  After two partial states are combined, the cell
    of column 0, row 0 holds two IDs, well below [B = 1024], and is
    flagged sorted.  Inserting the ID of the next record appends it and
    bumps [sample_count], but the flag stays set, over a sample that is
    no longer ordered by [(H_s, id)].  (Finalize changes neither the
    partial states nor the combined one, so the same cell arises when the
    aggregates run their final function.) *)
Theorem sample_add_keeps_sorted_flag :
  let s := Regress.get Regress.combined in
  let c := Regress.cell_of s 0 0 1 in
  let r := omnisketch_sample_add Regress.H s c.1 c.2 3887696666 in
  is_Some Regress.combined
  /\ Regress.finalize Regress.partial_a = Regress.partial_a
  /\ Regress.finalize Regress.partial_b = Regress.partial_b
  /\ Regress.finalize Regress.combined = Regress.combined
  /\ c.1 = mk_bucket 2 2 1 3540402173 true
  /\ sampleCount c.1 < sampleSize s
  /\ r.1 = mk_bucket 2 3 1 3540402173 true
  /\ take 3 r.2 = [1735066482; 514478713; -407270630]%Z
  /\ Regress.H_s <$> take 3 r.2 = [521550485; 3540402173; 3122986361]%Z.
Proof. intros s c r. by_compute. Qed.

(** C2 (code defect).  Two partial states of one record each are
    combined, a third record is added to the result and the sketch is
    finalized.  Three IDs were hashed into the cell of column 0, row 0
    and all three are stored, but not in [(H_s, id)] order: the merge
    left the cell flagged sorted, the insertion did not clear the flag,
    and finalize skipped the cell. *)
Theorem finalized_cell_not_ordered :
  let s := Regress.get Regress.combined_add_final in
  let c := Regress.cell_of s 0 0 1 in
  is_Some Regress.combined_add_final
  /\ totalCount c.1 = 3%Z
  /\ stored_ids c = [1735066482; 514478713; -407270630]%Z
  /\ Regress.H_s <$> stored_ids c = [521550485; 3540402173; 3122986361]%Z
  /\ ~ Sorted (id_le Regress.H) (stored_ids c).
Proof. intros s c. by_compute. Qed.

(** C6 (code defect).  The first record of an aggregate has a row type
    whose second attribute was dropped.  The sketch is allocated with two
    matrices and [count] becomes 1, but the loop skips the dropped
    attribute: every row of matrix 1 sums to 0, and [AssertCheckSketch],
    which the function calls before it returns, does not hold. *)
Theorem dropped_attribute_breaks_row_sum :
  let s := Regress.get Regress.dropped_second in
  is_Some Regress.dropped_second
  /\ count s = 1%Z
  /\ row_count s 0 0 = 1%Z
  /\ row_count s 1 0 = 0%Z
  /\ AssertCheckSketch s = false.
Proof. intros s. by_compute. Qed.

(** C5, the claim as stated fails.  After one record is aggregated and
    the sketch is finalized, the cell of column 0, row 0 holds one ID and
    its flag is still clear. *)
Lemma finalize_leaves_single_unflagged :
  let s := Regress.get Regress.single_final in
  let j := Z.to_nat (SKETCH_HASH Regress.H 1 0 mod 7) in
  is_Some Regress.single_final
  /\ 0 < sampleCount (SKETCH_BUCKET s 0 0 j)
  /\ isSorted (SKETCH_BUCKET s 0 0 j) = false.
Proof. intros s j. by_compute. Qed.

(** ** Instances on the regression configuration *)

(** C3, the claim as stated fails.  Three workers aggregate the records
    (1, 2), (3, 4) and (5, 6) under the seeds 2024, 2025 and 2026; the
    sketches agree on the five structural fields and the three record IDs
    are pairwise different.  After finalize, the grouping that starts from
    the third worker carries seed 2026 where the other two carry 2024, and
    the cell of the first record, which holds one ID in each result, is
    flagged sorted in one and not in the other. *)
Lemma rotated_grouping_differs :
  let a := Regress.get Regress.worker_a in
  let b := Regress.get Regress.worker_b in
  let c := Regress.get Regress.worker_c in
  let l := Regress.get Regress.grouped_left in
  let r := Regress.get Regress.grouped_rotated in
  omnisketch_equals a b = true /\ omnisketch_equals b c = true
  /\ Regress.record_ids Regress.worker_a = [514478713]%Z
  /\ Regress.record_ids Regress.worker_b = [1735066482]%Z
  /\ Regress.record_ids Regress.worker_c = [2669315240]%Z
  /\ is_Some Regress.grouped_left /\ is_Some Regress.grouped_rotated
  /\ seed l = 2024%Z /\ seed r = 2026%Z
  /\ Regress.cell_of l 0 0 1 = Regress.cell_of (forget_seed_and_short_flags r) 0 0 1
  /\ isSorted (Regress.cell_of l 0 0 1).1 = false
  /\ isSorted (Regress.cell_of r 0 0 1).1 = true
  /\ bool_decide (l = r) = false.
Proof. intros a b c l r. by_compute. Qed.

(** The amended C3 on the three workers. *)
Lemma combine_grouping_irrelevant_witness :
  let A := Regress.get Regress.worker_a in
  let B := Regress.get Regress.worker_b in
  let C := Regress.get Regress.worker_c in
  let fin := omnisketch_finalize Regress.H in
  let comb := combine_sketches Regress.H in
  sketch_wf Regress.H A /\ sketch_wf Regress.H B /\ sketch_wf Regress.H C
  /\ omnisketch_equals A B = true /\ omnisketch_equals B C = true
  /\ fin (comb (comb A B) C) = fin (comb A (comb B C))
  /\ forget_seed_and_short_flags (fin (comb A (comb B C)))
     = forget_seed_and_short_flags (fin (comb (comb C A) B))
  /\ seed (fin (comb A (comb B C))) = seed A
  /\ seed (fin (comb (comb C A) B)) = seed C.
Proof.
  intros A B C fin comb.
  assert (sketch_wf Regress.H A) as HA by by_compute.
  assert (sketch_wf Regress.H B) as HB by by_compute.
  assert (sketch_wf Regress.H C) as HC by by_compute.
  assert (omnisketch_equals A B = true) as EAB by (vm_compute; reflexivity).
  assert (omnisketch_equals B C = true) as EBC by (vm_compute; reflexivity).
  repeat (split; [assumption|]).
  exact (combine_grouping_irrelevant Regress.H A B C HA HB HC EAB EBC).
Defined.

(** The amended C5 on a sketch of three records whose cells are not yet
    sorted. *)
Lemma finalize_sorts_and_is_idempotent_witness :
  let s := Regress.get Regress.three in
  let fin := omnisketch_finalize Regress.H in
  shape_ok s /\ sketch_wf Regress.H s
  /\ fin (fin s) = fin s
  /\ Forall (fun b => 2 <= sampleCount b -> isSorted b = true) (buckets (fin s))
  /\ Forall2 (fun c c' => sampleCount c.1 < 2 -> c' = c /\ isSorted c'.1 = isSorted c.1)
       (cells s) (cells (fin s))
  /\ Forall (fun c => 0 < sampleCount c.1 ->
               maxIndex c.1 = sampleCount c.1 - 1
               /\ Sorted (id_le Regress.H) (stored_ids c)
               /\ (NoDup (stored_ids c) -> Sorted (id_lt Regress.H) (stored_ids c)))
       (cells (fin s)).
Proof.
  intros s fin.
  assert (sketch_wf Regress.H s) as Hwf by by_compute.
  pose proof (proj1 (proj2 (proj2 Hwf))) as Hsh.
  destruct (finalize_sorts_and_is_idempotent Regress.H s Hsh) as (H1 & H2 & H3 & H4).
  split; [exact Hsh|]. split; [exact Hwf|]. split; [exact H1|].
  split; [exact H2|]. split; [exact H3|]. exact (H4 Hwf).
Defined.

(** X22 on the two partial states of the regression
    scenario, held at addresses 1 and 2. *)
Lemma combine_contract_witness :
  let a := Regress.get Regress.partial_a in
  let b := Regress.get Regress.partial_b in
  let h := Regress.store2 a b in
  let p0 := 1%positive in
  let p1 := 2%positive in
  h !! p0 = Some a /\ h !! p1 = Some b /\ p0 <> p1
  /\ omnisketch_combine Regress.H true h None None = Ok (None, h)
  /\ (exists p, h !! p = None
        /\ omnisketch_combine Regress.H true h None (Some p1) = Ok (Some p, <[p := b]> h))
  /\ omnisketch_combine Regress.H true h (Some p0) None = Ok (Some p0, h)
  /\ ((numSketches a <> numSketches b \/ sketchHeight a <> sketchHeight b
       \/ sketchWidth a <> sketchWidth b \/ sampleSize a <> sampleSize b
       \/ itemSize a <> itemSize b) ->
      omnisketch_combine Regress.H true h (Some p0) (Some p1) = Err SketchMismatch)
  /\ (numSketches a = numSketches b -> sketchHeight a = sketchHeight b ->
      sketchWidth a = sketchWidth b -> sampleSize a = sampleSize b ->
      itemSize a = itemSize b ->
      exists c h',
        omnisketch_combine Regress.H true h (Some p0) (Some p1) = Ok (Some p0, h')
        /\ h' !! p0 = Some c
        /\ count c = int32 (count a + count b)
        /\ ((- 2 ^ 31 <= count a + count b <= INT32_MAX)%Z ->
            count c = (count a + count b)%Z)).
Proof.
  intros a b h p0 p1.
  assert (h !! p0 = Some a) as H0 by apply lookup_insert_eq.
  assert (h !! p1 = Some b) as H1.
  { unfold h, Regress.store2. rewrite lookup_insert_ne by discriminate.
    apply lookup_insert_eq. }
  assert (p0 <> p1) as Hne by discriminate.
  repeat (split; [assumption|]).
  exact (combine_contract Regress.H h p0 p1 a b H0 H1 Hne).
Defined.

(** C9 on the same store. *)
Lemma combine_leaves_second_unchanged_witness :
  let a := Regress.get Regress.partial_a in
  let b := Regress.get Regress.partial_b in
  let h := Regress.store2 a b in
  let p0 := 1%positive in
  let p1 := 2%positive in
  h !! p0 = Some a /\ h !! p1 = Some b /\ p0 <> p1
  /\ omnisketch_equals b a = true
  /\ exists h',
       omnisketch_combine Regress.H true h (Some p0) (Some p1) = Ok (Some p0, h')
       /\ h' !! p1 = Some b
       /\ forall p, p <> p0 -> h' !! p = h !! p.
Proof.
  intros a b h p0 p1.
  assert (h !! p0 = Some a) as H0 by apply lookup_insert_eq.
  assert (h !! p1 = Some b) as H1.
  { unfold h, Regress.store2. rewrite lookup_insert_ne by discriminate.
    apply lookup_insert_eq. }
  assert (p0 <> p1) as Hne by discriminate.
  assert (omnisketch_equals b a = true) as Heq by (vm_compute; reflexivity).
  repeat (split; [assumption|]).
  exact (combine_leaves_second_unchanged Regress.H h p0 p1 a b H0 H1 Hne Heq).
Defined.

(** C10 on the sketch of the first record. *)
Lemma counted_bucket_has_sample_witness :
  let s := Regress.get Regress.partial_a in
  reachable Regress.H s
  /\ Forall (fun b => (0 < totalCount b)%Z -> 0 < sampleCount b) (buckets s)
  /\ (forall sz prng record s',
        omnisketch_add Regress.H (Some s) sz prng record = Ok s' -> keeps_samples s s')
  /\ keeps_samples s (omnisketch_finalize Regress.H s)
  /\ (forall (h h' : gmap positive omnisketch_t) arg0 arg1 r q,
        (forall q' s', h !! q' = Some s' -> reachable Regress.H s') ->
        h !! q = Some s ->
        omnisketch_combine Regress.H true h arg0 arg1 = Ok (r, h') ->
        exists s', h' !! q = Some s' /\ keeps_samples s s').
Proof.
  intros s.
  assert (reachable Regress.H s) as Hr.
  { apply (reach_first Regress.H Regress.sz 2024 (Regress.rec 1 2)).
    - unfold sizing_ok. cbn. lia.
    - vm_compute. reflexivity. }
  split; [exact Hr|]. exact (counted_bucket_has_sample Regress.H s Hr).
Defined.

(** * Further properties of the code *)

(** * Further properties of the code *)

(** ** The comparator, the bucket index and allocation *)

(** X1.  [cmp_item_hash] is a comparator [pg_qsort] can rely on: its result is
    -1, 0 or 1, it is 0 only on equal pairs, swapping the arguments
    negates it, and "not greater" is transitive. *)
Theorem cmp_item_hash_is_total_order a b c :
  (cmp_item_hash a b = -1 \/ cmp_item_hash a b = 0 \/ cmp_item_hash a b = 1)%Z
  /\ (cmp_item_hash a b = 0%Z <-> a = b)
  /\ cmp_item_hash b a = (- cmp_item_hash a b)%Z
  /\ ((cmp_item_hash a b <= 0)%Z -> (cmp_item_hash b c <= 0)%Z ->
      (cmp_item_hash a c <= 0)%Z).
Proof.
  destruct a as [ia ha], b as [ib hb], c as [ic hc].
  unfold cmp_item_hash; cbn [item hash].
  repeat split.
  - repeat match goal with |- context [Z.ltb ?x ?y] => destruct (Z.ltb_spec x y) end; lia.
  - repeat match goal with |- context [Z.ltb ?x ?y] => destruct (Z.ltb_spec x y) end;
      intros E; try discriminate E. f_equal; lia.
  - intros [= -> ->]. rewrite !Z.ltb_irrefl. reflexivity.
  - repeat match goal with |- context [Z.ltb ?x ?y] => destruct (Z.ltb_spec x y) end; lia.
  - repeat match goal with |- context [Z.ltb ?x ?y] => destruct (Z.ltb_spec x y) end; lia.
Qed.

Lemma SKETCH_BUCKET_INDEX_lt s a i j :
  a < numSketches s -> i < sketchHeight s -> j < sketchWidth s ->
  SKETCH_BUCKET_INDEX s a i j < numSketches s * (sketchHeight s * sketchWidth s).
Proof.
  unfold SKETCH_BUCKET_INDEX, SKETCH_SIZE. intros Ha Hi Hj.
  assert (i * sketchWidth s + j < sketchHeight s * sketchWidth s) by nia.
  assert ((a + 1) * (sketchHeight s * sketchWidth s)
          <= numSketches s * (sketchHeight s * sketchWidth s))
    by (apply Nat.mul_le_mono_r; lia).
  nia.
Qed.

Lemma SKETCH_BUCKET_INDEX_eq s a i j a' i' j' :
  i < sketchHeight s -> j < sketchWidth s ->
  i' < sketchHeight s -> j' < sketchWidth s ->
  SKETCH_BUCKET_INDEX s a i j = SKETCH_BUCKET_INDEX s a' i' j' ->
  a = a' /\ i = i' /\ j = j'.
Proof.
  unfold SKETCH_BUCKET_INDEX, SKETCH_SIZE. intros Hi Hj Hi' Hj' E.
  assert (i * sketchWidth s + j < sketchWidth s * sketchHeight s) by nia.
  assert (i' * sketchWidth s + j' < sketchWidth s * sketchHeight s) by nia.
  assert (a = a') as -> by nia.
  assert (i = i') as -> by nia.
  repeat split; lia.
Qed.

Lemma bucket_column_lt (h : Z) w : 0 < w -> Z.to_nat (h mod Z.of_nat w) < w.
Proof.
  intros Hw. pose proof (Z.mod_pos_bound h (Z.of_nat w) ltac:(lia)). lia.
Qed.

Section Indexing.

Variable XXH32 : Z -> Z -> Z.

Local Abbreviation with_hash := (with_hash XXH32).
Local Abbreviation content := (content XXH32).
Local Abbreviation hashed := (hashed XXH32).
Local Abbreviation cell_wf := (cell_wf XXH32).
Local Abbreviation finalize_cell := (finalize_cell XXH32).
Local Abbreviation merge_cell := (merge_cell XXH32).
Local Abbreviation sketch_wf := (sketch_wf XXH32).
Local Abbreviation fin := (omnisketch_finalize XXH32).
Local Abbreviation comb := (combine_sketches XXH32).
Local Abbreviation cell_basic := (cell_basic XXH32).
Local Abbreviation sketch_basic := (sketch_basic XXH32).
Local Abbreviation H_s := (fun x => SKETCH_HASH XXH32 x SKETCH_SEED).

(** X2.  In a sketch of positive width whose payload has the shape its
    header gives, the column and the bucket index that a value hash maps to
    lie inside the matrix and the payload, and two different (matrix, row)
    pairs never share a bucket. *)
Theorem bucket_index_in_range_and_injective s a i a' i' (hash hash' : Z) :
  shape_ok s -> 0 < sketchWidth s ->
  a < numSketches s -> i < sketchHeight s -> i' < sketchHeight s ->
  bucket_column XXH32 s hash i < sketchWidth s
  /\ cell_index XXH32 s a hash i < length (buckets s)
  /\ cell_index XXH32 s a hash i < length (samples s)
  /\ (cell_index XXH32 s a hash i = cell_index XXH32 s a' hash' i' ->
      a = a' /\ i = i'
      /\ bucket_column XXH32 s hash i = bucket_column XXH32 s hash' i').
Proof.
  intros [Hb Hs] Hw Ha Hi Hi'. unfold cell_index, bucket_column.
  set (j := Z.to_nat (SKETCH_HASH XXH32 hash (Z.of_nat i) mod Z.of_nat (sketchWidth s))).
  set (j' := Z.to_nat (SKETCH_HASH XXH32 hash' (Z.of_nat i') mod Z.of_nat (sketchWidth s))).
  assert (j < sketchWidth s) as Hj by (apply bucket_column_lt, Hw).
  assert (j' < sketchWidth s) as Hj' by (apply bucket_column_lt, Hw).
  pose proof (SKETCH_BUCKET_INDEX_lt s a i j Ha Hi Hj) as Hlt.
  split; [exact Hj|]. split; [lia|]. split; [lia|].
  apply SKETCH_BUCKET_INDEX_eq; assumption.
Qed.

End Indexing.

Lemma replicate_lookup_total {A} `{Inhabited A} (x : A) n i :
  inhabitant = x -> replicate n x !!! i = x.
Proof.
  intros Hx. rewrite list_lookup_total_alt.
  destruct (decide (i < n)) as [Hlt|Hge].
  - rewrite lookup_replicate_2 by exact Hlt. reflexivity.
  - assert (replicate n x !! i = None) as -> by (apply lookup_replicate_None; lia).
    exact Hx.
Qed.

Lemma forallb_seq_true (f : nat -> bool) n :
  (forall i, i < n -> f i = true) -> forallb f (seq 0 n) = true.
Proof.
  intros Hf. apply forallb_forall. intros i Hi.
  apply in_seq in Hi. apply Hf. lia.
Qed.

Lemma fold_sum_zero (f : nat -> Z) l c :
  (forall j, f j = 0%Z) -> fold_left (fun cnt j => (cnt + f j)%Z) l c = c.
Proof.
  intros Hf. revert c. induction l as [|j l IH]; intros c; simpl; [reflexivity|].
  rewrite IH, Hf. lia.
Qed.

Section Allocate_and_add.

Variable XXH32 : Z -> Z -> Z.

Local Abbreviation cell_wf := (cell_wf XXH32).
Local Abbreviation sketch_wf := (sketch_wf XXH32).
Local Abbreviation cell_basic := (cell_basic XXH32).
Local Abbreviation sketch_basic := (sketch_basic XXH32).

Lemma allocate_bucket n w d B b prng a i j :
  SKETCH_BUCKET (omnisketch_allocate n w d B b prng) a i j = mk_bucket 0 0 0 0 false.
Proof. unfold SKETCH_BUCKET. cbn [omnisketch_allocate buckets]. apply replicate_lookup_total. reflexivity. Qed.

Lemma allocate_cells n w d B b prng :
  cells (omnisketch_allocate n w d B b prng)
  = replicate (n * w * d) (mk_bucket 0 0 0 0 false, replicate B 0%Z).
Proof.
  unfold cells. cbn [omnisketch_allocate buckets samples].
  generalize (n * w * d). intros m. induction m as [|m IH]; [reflexivity|].
  cbn. f_equal. exact IH.
Qed.

Lemma allocate_shape n w d B b prng : shape_ok (omnisketch_allocate n w d B b prng).
Proof.
  unfold shape_ok. cbn [omnisketch_allocate buckets samples numSketches sketchHeight sketchWidth].
  rewrite !length_replicate. split; lia.
Qed.

Lemma omnisketch_allocate_wf n w d B b prng :
  1 <= B -> sketch_wf (omnisketch_allocate n w d B b prng).
Proof.
  intros HB.
  split; [reflexivity|]. split; [exact HB|]. split; [apply allocate_shape|].
  rewrite allocate_cells. apply Forall_replicate.
  cbn [omnisketch_allocate sampleSize].
  unfold cell_wf. cbn [fst snd sampleCount totalCount isSorted maxIndex].
  rewrite length_replicate, Nat.sub_0_r. cbn [drop].
  repeat split; try lia; try reflexivity; intros; try lia; discriminate.
Qed.

Lemma omnisketch_allocate_basic n w d B b prng :
  1 <= B -> sketch_basic (omnisketch_allocate n w d B b prng).
Proof.
  intros HB.
  split; [exact HB|]. split; [apply allocate_shape|].
  rewrite allocate_cells. apply Forall_replicate.
  cbn [omnisketch_allocate sampleSize].
  unfold cell_basic. cbn [fst snd sampleCount totalCount isSorted maxIndex].
  rewrite length_replicate, Nat.sub_0_r. cbn [drop].
  repeat split; try lia; try reflexivity; intros; lia.
Qed.

Lemma omnisketch_allocate_rows n w d B b prng :
  rows_sum_to_count (omnisketch_allocate n w d B b prng).
Proof.
  split.
  - cbn [omnisketch_allocate buckets]. apply Forall_replicate. cbn. lia.
  - intros a i _ _. unfold row_count. apply fold_sum_zero.
    intros j. rewrite allocate_bucket. reflexivity.
Qed.

(** X3.  A freshly allocated sketch (of dimensions that fit the header
    fields and an allocation) is empty, has the shape its dimensions ask
    for, and passes [AssertCheckSketch], as [omnisketch_allocate] asserts
    before it returns; with a positive sample size it satisfies the bucket
    invariants. *)
Theorem omnisketch_allocate_empty_and_checked n w d B b prng :
  allocate_fits n w d B b ->
  let s := omnisketch_allocate n w d B b prng in
  AssertCheckSketch s = true
  /\ shape_ok s
  /\ omnisketch_count s = 0%Z
  /\ rows_sum_to_count s
  /\ Forall (fun c => stored_ids c = [] /\ totalCount c.1 = 0%Z) (cells s)
  /\ (1 <= B -> sketch_wf s /\ sketch_basic s).
Proof.
  intros _ s.
  assert (forall a i, row_count s a i = 0%Z) as Hrow.
  { intros a i. unfold row_count. apply fold_sum_zero.
    intros j. unfold s. rewrite allocate_bucket. reflexivity. }
  split.
  { unfold AssertCheckSketch.
    apply forallb_seq_true. intros a _. apply forallb_seq_true. intros i _.
    apply andb_true_intro. split.
    - apply forallb_seq_true. intros j _. unfold s. rewrite allocate_bucket.
      unfold AssertCheckBucketBasic. cbn [totalCount sampleCount maxIndex omnisketch_allocate count sampleSize].
      rewrite !andb_true_iff. repeat split; reflexivity.
    - rewrite Hrow. reflexivity. }
  split; [apply allocate_shape|].
  split; [reflexivity|].
  split; [apply omnisketch_allocate_rows|].
  split.
  { unfold s. rewrite allocate_cells. apply Forall_replicate.
    split; reflexivity. }
  intros HB. split; [apply omnisketch_allocate_wf, HB | apply omnisketch_allocate_basic, HB].
Qed.

(** X4.  For a record given by the hashes of its attributes (so every
    attribute type has an extended hash function), [omnisketch_add] on an
    existing sketch fails with "number of record attributes mismatches
    sketch" when the record has another number of attributes than the
    sketch has matrices; otherwise, on a sketch of positive width whose
    payload has the shape its header gives, it counts the record
    ([count + 1], wrapped to [int32]) and leaves the dimensions and the
    seed as they were.  On the NULL state, with a positive width and
    dimensions that fit from the sizing block, it does not fail: it
    allocates a sketch with one matrix per attribute and the dimensions of
    the sizing block, and counts the record. *)
Theorem omnisketch_add_accepts_matching_records s sz prng record :
  (numSketches s <> length record ->
     omnisketch_add XXH32 (Some s) sz prng record = Err ColumnMismatch)
  /\ (numSketches s = length record -> shape_ok s -> 0 < sketchWidth s ->
      exists s', omnisketch_add XXH32 (Some s) sz prng record = Ok s'
        /\ omnisketch_count s' = int32 (omnisketch_count s + 1)
        /\ omnisketch_equals s' s = true /\ seed s' = seed s)
  /\ (sizing_fits sz (length record) ->
      exists s0, omnisketch_add XXH32 None sz prng record = Ok s0
        /\ omnisketch_count s0 = 1%Z
        /\ numSketches s0 = length record
        /\ sketchWidth s0 = sz_w sz /\ sketchHeight s0 = sz_d sz
        /\ sampleSize s0 = sz_B sz /\ itemSize s0 = sz_b sz
        /\ seed s0 = uint32 prng).
Proof.
  split; [|split].
  - intros Hne. unfold omnisketch_add.
    destruct (Nat.eqb_spec (numSketches s) (length record)) as [E|_]; [contradiction|].
    reflexivity.
  - intros Heq _ _.
    destruct (omnisketch_add_some XXH32 s sz prng record Heq)
      as (s' & Hadd & Hc & _ & H2 & H3 & H4 & H5 & H6 & H7).
    exists s'. split; [exact Hadd|]. split; [exact Hc|]. split; [|exact H7].
    apply omnisketch_equals_spec. repeat split; assumption.
  - intros _. destruct (omnisketch_add_none XXH32 sz prng record)
      as (s0 & Hadd & Hc & _ & H2 & H3 & H4 & H5 & H6 & H7).
    exists s0. repeat (split; [assumption|]). exact H7.
Qed.

(** ** The aggregate over a list of rows *)

Lemma aggregate_add_some rows :
  forall s sz prng n,
  numSketches s = n -> Forall (fun r => length r = n) rows ->
  (0 <= count s)%Z -> (count s + Z.of_nat (length rows) <= INT32_MAX)%Z ->
  exists s', aggregate_add XXH32 (Some s) sz prng rows = Ok (Some s')
    /\ count s' = (count s + Z.of_nat (length rows))%Z
    /\ omnisketch_equals s' s = true /\ seed s' = seed s.
Proof.
  induction rows as [|r rows IH]; intros s sz prng n Hn Hall H0 Hmax.
  - exists s. split; [reflexivity|]. split; [cbn; lia|]. split; [|reflexivity].
    apply omnisketch_equals_spec. repeat split; reflexivity.
  - apply Forall_cons in Hall as [Hr Hall]. cbn [length] in Hmax.
    destruct (omnisketch_add_some XXH32 s sz prng r ltac:(congruence))
      as (s1 & Hadd & Hc & _ & H2 & H3 & H4 & H5 & H6 & H7).
    rewrite int32_small in Hc by (unfold INT32_MAX in *; lia).
    destruct (IH s1 sz prng n ltac:(congruence) Hall ltac:(lia) ltac:(lia))
      as (s' & Hs' & Hc' & He & Hseed).
    exists s'. cbn [aggregate_add]. rewrite Hadd.
    split; [exact Hs'|]. split; [cbn [length]; lia|]. split; [|congruence].
    apply omnisketch_equals_spec. apply omnisketch_equals_spec in He.
    destruct He as (?&?&?&?&?). repeat split; congruence.
Qed.

(** X5.  The transition state of the aggregate
    [omnisketch(eps, delta, record)], run serially: over no row it is
    NULL; over [n >= 1] rows of one row type, with [n] below [2^31] and a
    positive width and dimensions that fit from the sizing block, it is a
    sketch whose [omnisketch_count] is [n], with the dimensions of the
    sizing block and the seed drawn at the first row. *)
Theorem aggregate_counts_its_rows sz prng row rows :
  sizing_fits sz (length row) ->
  Forall (fun r => length r = length row) rows ->
  (Z.of_nat (S (length rows)) <= INT32_MAX)%Z ->
  aggregate_add XXH32 None sz prng [] = Ok None
  /\ exists s, aggregate_add XXH32 None sz prng (row :: rows) = Ok (Some s)
       /\ omnisketch_count s = Z.of_nat (S (length rows))
       /\ numSketches s = length row
       /\ sketchWidth s = sz_w sz /\ sketchHeight s = sz_d sz
       /\ sampleSize s = sz_B sz /\ itemSize s = sz_b sz
       /\ seed s = uint32 prng.
Proof.
  intros _ Hall Hmax. split; [reflexivity|].
  destruct (omnisketch_add_none XXH32 sz prng row)
    as (s0 & Hadd & Hc & _ & H2 & H3 & H4 & H5 & H6 & H7).
  destruct (aggregate_add_some rows s0 sz prng (length row) H2 Hall ltac:(lia) ltac:(lia))
    as (s & Hs & Hcs & He & Hseed).
  exists s. cbn [aggregate_add]. rewrite Hadd.
  split; [exact Hs|]. split; [unfold omnisketch_count; lia|].
  apply omnisketch_equals_spec in He. destruct He as (?&?&?&?&?).
  repeat split; congruence.
Qed.

(** X6.  A row with another number of attributes than the rows before it
    ends the aggregate with the error "number of record attributes
    mismatches sketch", whatever rows follow. *)
Theorem aggregate_rejects_other_row_type sz prng row rows bad rest :
  sizing_fits sz (length row) ->
  Forall (fun r => length r = length row) rows ->
  (Z.of_nat (S (length rows)) <= INT32_MAX)%Z ->
  length bad <> length row ->
  aggregate_add XXH32 None sz prng (row :: rows ++ bad :: rest) = Err ColumnMismatch.
Proof.
  intros _ Hall Hmax Hbad.
  destruct (omnisketch_add_none XXH32 sz prng row)
    as (s0 & Hadd & Hc & _ & H2 & _).
  cbn [aggregate_add]. rewrite Hadd.
  assert (forall rows s, numSketches s = length row ->
            Forall (fun r => length r = length row) rows ->
            aggregate_add XXH32 (Some s) sz prng (rows ++ bad :: rest) = Err ColumnMismatch)
    as Hgen.
  { clear - Hbad. intros rows. induction rows as [|r rows IH]; intros s Hn Hall.
    - cbn [app aggregate_add]. unfold omnisketch_add.
      destruct (Nat.eqb_spec (numSketches s) (length bad)) as [E|_]; [|reflexivity].
      congruence.
    - apply Forall_cons in Hall as [Hr Hall].
      destruct (omnisketch_add_some XXH32 s sz prng r ltac:(congruence))
        as (s1 & Hadd & _ & _ & H2 & _).
      cbn [app aggregate_add]. rewrite Hadd. apply IH; [congruence | exact Hall]. }
  apply Hgen; assumption.
Qed.

End Allocate_and_add.

(** ** Adding an ID to a bucket *)

Lemma uint32_int32 x : uint32 (int32 x) = uint32 x.
Proof.
  unfold uint32, int32.
  rewrite Zminus_mod_idemp_l.
  f_equal. lia.
Qed.

Lemma uint32_nonneg x : (0 <= uint32 x)%Z.
Proof. unfold uint32. apply Z.mod_pos_bound. lia. Qed.

Lemma fold_left_seq_inv {S} (P : nat -> S -> Prop) (f : S -> nat -> S) n s :
  P 0 s -> (forall k s, k < n -> P k s -> P (Datatypes.S k) (f s k)) ->
  P n (fold_left f (seq 0 n) s).
Proof.
  intros H0 Hstep. induction n as [|n IH]; [exact H0|].
  rewrite seq_S, fold_left_app. cbn [fold_left Nat.add].
  apply Hstep; [lia|]. apply IH. intros k s' Hk. apply Hstep. lia.
Qed.

Lemma Sorted_le_snoc (l : list Z) m :
  Sorted Z.le l -> Forall (fun x => (x <= m)%Z) l -> Sorted Z.le (l ++ [m]).
Proof.
  induction 1 as [|x l Hs IH Hhd]; intros Hall; cbn [app].
  - repeat constructor.
  - apply Forall_cons in Hall as [Hx Hall]. constructor; [apply IH, Hall|].
    destruct Hhd as [|y l Hxy]; constructor; [exact Hx | exact Hxy].
Qed.

Lemma sort_le_unique (l l' : list Z) :
  Sorted Z.le l' -> l' ≡ₚ l -> merge_sort Z.le l = l'.
Proof.
  intros Hs Hp. apply (Sorted_unique Z.le).
  - apply (Sorted_merge_sort Z.le).
  - exact Hs.
  - rewrite merge_sort_Permutation. symmetry. exact Hp.
Qed.

(** Sorting a list together with an element that bounds it puts the
    element last. *)
Lemma sort_le_with_max (l : list Z) m :
  Forall (fun x => (x <= m)%Z) l ->
  merge_sort Z.le (m :: l) = merge_sort Z.le l ++ [m].
Proof.
  intros Hall. apply sort_le_unique.
  - apply Sorted_le_snoc; [apply (Sorted_merge_sort Z.le)|].
    rewrite merge_sort_Permutation. exact Hall.
  - rewrite merge_sort_Permutation. symmetry. apply Permutation_cons_append.
Qed.

Lemma delete_insert_same {A} (l : list A) p x : delete p (<[p := x]> l) = delete p l.
Proof.
  rewrite !delete_take_drop, take_insert_ge, drop_insert_lt by lia. reflexivity.
Qed.

(** Replacing a maximum of a list by a smaller element gives the smallest
    elements of the list with the new element. *)
Lemma sort_le_replace_max (l : list Z) p m h :
  l !! p = Some m -> Forall (fun x => (x <= m)%Z) l -> (h <= m)%Z ->
  merge_sort Z.le (<[p := h]> l) = take (length l) (merge_sort Z.le (h :: l)).
Proof.
  intros Hp Hall Hh.
  assert (p < length l) as Hlt by (eapply lookup_lt_Some, Hp).
  assert (merge_sort Z.le (h :: l) = merge_sort Z.le (<[p := h]> l) ++ [m]) as ->.
  { apply sort_le_unique.
    - apply Sorted_le_snoc; [apply (Sorted_merge_sort Z.le)|].
      rewrite merge_sort_Permutation. apply Forall_insert; assumption.
    - rewrite merge_sort_Permutation.
      rewrite <- Permutation_cons_append.
      rewrite (delete_Permutation (<[p := h]> l) p h) by (apply list_lookup_insert_eq, Hlt).
      rewrite (delete_Permutation l p m Hp) at 2.
      rewrite delete_insert_same. apply perm_swap. }
  rewrite take_app_length'; [reflexivity|].
  rewrite (Permutation_length (merge_sort_Permutation _ _)), length_insert. reflexivity.
Qed.

Section Sample_add.

Variable XXH32 : Z -> Z -> Z.

Local Abbreviation cell_basic := (cell_basic XXH32).
Local Abbreviation sketch_basic := (sketch_basic XXH32).
Local Abbreviation H_s := (fun x => SKETCH_HASH XXH32 x SKETCH_SEED).

Lemma SKETCH_HASH_int32 x s : SKETCH_HASH XXH32 (int32 x) s = SKETCH_HASH XXH32 x s.
Proof. unfold SKETCH_HASH. rewrite uint32_int32. reflexivity. Qed.

Lemma SKETCH_HASH_nonneg x s : (0 <= SKETCH_HASH XXH32 x s)%Z.
Proof. apply uint32_nonneg. Qed.

(** The rescan leaves the cached maximum on the largest hash of the
    sample, at the last index that has it. *)
Lemma rescan_max_spec b smp :
  let r := rescan_max XXH32 b smp in
  totalCount r = totalCount b /\ sampleCount r = sampleCount b
  /\ isSorted r = isSorted b
  /\ (0 < sampleCount b ->
        maxIndex r < sampleCount b
        /\ maxHash r = H_s (smp !!! maxIndex r)
        /\ forall i, i < sampleCount b -> (H_s (smp !!! i) <= maxHash r)%Z).
Proof.
  intros r. split; [apply rescan_max_totalCount|].
  split; [apply rescan_max_sampleCount|].
  split; [apply rescan_max_isSorted|].
  intros Hpos. unfold r, rescan_max.
  match goal with |- context [fold_left ?f _ _] => set (step := f) end.
  set (P := fun (k : nat) b' =>
             (k = 0 -> maxHash b' = 0%Z)
             /\ (forall i, i < k -> (H_s (smp !!! i) <= maxHash b')%Z)
             /\ (0 < k -> maxIndex b' < k /\ maxHash b' = H_s (smp !!! maxIndex b'))).
  assert (P (sampleCount b) (fold_left step (seq 0 (sampleCount b)) (set_maxHash b 0)))
    as (_ & Hall & Hmax).
  { apply (fold_left_seq_inv P); unfold P.
    - split; [reflexivity|]. split; intros; lia.
    - intros k b' Hk (H0 & Hall & Hmax). unfold step.
      destruct (Z.leb_spec (maxHash b') (H_s (smp !!! k))) as [Hle|Hgt].
      + cbn [set_maxIndex set_maxHash maxHash maxIndex].
        split; [lia|]. split.
        * intros i Hi. destruct (decide (i = k)) as [->|Hne]; [lia|].
          specialize (Hall i ltac:(lia)). lia.
        * intros _. split; [lia | reflexivity].
      + split; [lia|]. split.
        * intros i Hi. destruct (decide (i = k)) as [->|Hne]; [lia|].
          apply Hall. lia.
        * intros _. destruct k as [|k].
          { exfalso. pose proof (SKETCH_HASH_nonneg (smp !!! 0) SKETCH_SEED).
            rewrite H0 in Hgt by reflexivity. cbv beta in Hgt. lia. }
          destruct (Hmax ltac:(lia)) as [Hi Hm]. split; [lia | exact Hm]. }
  fold step. destruct (Hmax ltac:(lia)) as [Hi Hm].
  split; [exact Hi|]. split; [exact Hm | exact Hall].
Qed.

Lemma Forall_take_lookup (P : Z -> Prop) (smp : list Z) n :
  n <= length smp ->
  (Forall P (take n smp) <-> forall i, i < n -> P (smp !!! i)).
Proof.
  intros Hn. rewrite Forall_lookup. split.
  - intros Hall i Hi. apply (Hall i).
    rewrite lookup_take_lt by exact Hi.
    apply list_lookup_lookup_total_lt. lia.
  - intros Hall i x Hx. apply lookup_take_Some in Hx as [Hx Hi].
    rewrite <- (list_lookup_total_correct _ _ _ Hx). apply Hall, Hi.
Qed.

(** The stored IDs after [omnisketch_sample_add]. *)
Lemma omnisketch_sample_add_ids sk b smp it :
  let r := omnisketch_sample_add XXH32 sk b smp it in
  sampleCount b <= length smp -> maxIndex b < sampleCount b \/ sampleCount b = 0 ->
  stored_ids r
  = if sampleCount b <? sampleSize sk then
      if decide (sampleCount b < length smp) then stored_ids (b, smp) ++ [int32 it]
      else stored_ids (b, smp)
    else if (H_s it <? maxHash b)%Z then <[maxIndex b := int32 it]> (stored_ids (b, smp))
    else stored_ids (b, smp).
Proof.
  intros r Hn Hp. unfold r, omnisketch_sample_add, stored_ids.
  destruct (Nat.ltb_spec (sampleCount b) (sampleSize sk)) as [Hlt|Hge].
  - assert (forall b1, sampleCount b1 = sampleCount b ->
              take (sampleCount (set_sampleCount b1 (S (sampleCount b1))))
                (<[sampleCount b1 := int32 it]> smp)
              = if decide (sampleCount b < length smp)
                then take (sampleCount b) smp ++ [int32 it]
                else take (sampleCount b) smp) as Hgen.
    { intros b1 E. cbn [set_sampleCount sampleCount]. rewrite E.
      destruct (decide _) as [Hin|Hout].
      - rewrite (take_S_r _ _ (int32 it)) by (apply list_lookup_insert_eq, Hin).
        rewrite take_insert_ge by lia. reflexivity.
      - rewrite list_insert_ge by lia. rewrite !take_ge by lia. reflexivity. }
    cbn [fst snd]. destruct (sampleCount b =? 0); [apply Hgen; reflexivity|].
    destruct (Z.ltb _ _); apply Hgen; reflexivity.
  - destruct (Z.ltb_spec (H_s it) (maxHash b)) as [Hh|Hh]; cbn [fst snd]; [|reflexivity].
    rewrite (proj1 (proj2 (rescan_max_spec b _))).
    destruct Hp as [Hp|H0].
    + rewrite take_insert_lt by exact Hp. reflexivity.
    + rewrite H0. reflexivity.
Qed.

(** [omnisketch_sample_add] keeps the bucket invariant. *)
Lemma omnisketch_sample_add_basic sk b smp it :
  cell_basic (sampleSize sk) (b, smp) ->
  cell_basic (sampleSize sk) (omnisketch_sample_add XXH32 sk b smp it).
Proof.
  intros (Hlen & Hn & Hdrop & Hmax). cbn [fst snd] in *.
  unfold omnisketch_sample_add.
  destruct (Nat.ltb_spec (sampleCount b) (sampleSize sk)) as [Hlt|Hge].
  - (* the sample has a free slot *)
    assert (forall b1,
              sampleCount b1 = sampleCount b ->
              maxIndex b1 < S (sampleCount b) ->
              maxHash b1 = H_s (<[sampleCount b := int32 it]> smp !!! maxIndex b1) ->
              Forall (fun x => (H_s x <= maxHash b1)%Z) (take (sampleCount b) smp) ->
              (H_s it <= maxHash b1)%Z ->
              cell_basic (sampleSize sk)
                (set_sampleCount b1 (S (sampleCount b1)),
                 <[sampleCount b1 := int32 it]> smp)) as Hgen.
    { intros b1 Hb1 Hi Hm Hall Hh.
      unfold cell_basic, stored_ids.
      cbn [fst snd set_sampleCount sampleCount maxIndex maxHash].
      rewrite Hb1, length_insert.
      split; [exact Hlen|]. split; [lia|]. split.
      { rewrite drop_insert_lt by lia.
        replace (S (sampleCount b)) with (sampleCount b + 1) by lia.
        rewrite <- drop_drop, Hdrop, drop_replicate. f_equal. lia. }
      intros _. split; [exact Hi|]. split; [exact Hm|].
      rewrite (take_S_r _ _ (int32 it)) by (apply list_lookup_insert_eq; lia).
      rewrite take_insert_ge by lia.
      rewrite Forall_app, Forall_singleton, SKETCH_HASH_int32.
      split; assumption. }
    cbn [fst snd].
    destruct (Nat.eqb_spec (sampleCount b) 0) as [H0|Hpos].
    + apply Hgen; cbn [set_maxHash set_maxIndex maxIndex maxHash sampleCount].
      * reflexivity.
      * lia.
      * rewrite H0, list_lookup_total_insert_eq by lia.
        rewrite SKETCH_HASH_int32. reflexivity.
      * rewrite H0. constructor.
      * lia.
    + destruct (Hmax ltac:(lia)) as (Hi & Hm & Hall).
      unfold stored_ids in Hall. cbn [fst snd] in Hall.
      destruct (Z.ltb_spec (maxHash b) (H_s it)) as [Hnew|Hold].
      * apply Hgen; cbn [set_maxHash set_maxIndex maxIndex maxHash sampleCount].
        -- reflexivity.
        -- lia.
        -- rewrite list_lookup_total_insert_eq by lia.
           rewrite SKETCH_HASH_int32. reflexivity.
        -- eapply Forall_impl; [exact Hall|]. cbv beta. intros; lia.
        -- lia.
      * apply Hgen.
        -- reflexivity.
        -- lia.
        -- rewrite list_lookup_total_insert_ne by lia. exact Hm.
        -- exact Hall.
        -- exact Hold.
  - (* the sample is full *)
    destruct (Z.ltb_spec (H_s it) (maxHash b)) as [Hh|Hh].
    + pose proof (rescan_max_spec b (<[maxIndex b := int32 it]> smp)) as (_ & Hc & _ & Hr).
      cbv zeta in Hc, Hr.
      unfold cell_basic. cbn [fst snd]. rewrite Hc, length_insert.
      split; [exact Hlen|]. split; [exact Hn|]. split.
      { rewrite drop_ge by (rewrite length_insert; lia).
        replace (sampleSize sk - sampleCount b) with 0 by lia. reflexivity. }
      intros Hpos. destruct (Hr Hpos) as (Hi & Hm & Hall).
      split; [exact Hi|]. split; [exact Hm|].
      unfold stored_ids. cbn [fst snd]. rewrite Hc.
      apply Forall_take_lookup; [rewrite length_insert; lia | exact Hall].
    + exact (conj Hlen (conj Hn (conj Hdrop Hmax))).
Qed.

(** X7.  What [omnisketch_sample_add] does to a bucket that satisfies the
    bucket invariant: the invariant holds again, the bucket is not empty,
    its total count and sorted flag are as before, and the stored hashes
    are the [sampleSize] smallest of the stored hashes and the new one. *)
Theorem omnisketch_sample_add_keeps_smallest_hashes sk b smp it :
  1 <= sampleSize sk ->
  cell_basic (sampleSize sk) (b, smp) ->
  let r := omnisketch_sample_add XXH32 sk b smp it in
  cell_basic (sampleSize sk) r
  /\ 0 < sampleCount r.1
  /\ sampleCount r.1 = Nat.min (sampleSize sk) (S (sampleCount b))
  /\ totalCount r.1 = totalCount b /\ isSorted r.1 = isSorted b
  /\ merge_sort Z.le (H_s <$> stored_ids r)
     = take (sampleSize sk)
         (merge_sort Z.le (H_s it :: (H_s <$> stored_ids (b, smp)))).
Proof.
  intros HB Hc r.
  split; [apply omnisketch_sample_add_basic, Hc|].
  split; [apply omnisketch_sample_add_nonempty, HB|].
  pose proof Hc as (Hlen & Hn & Hdrop & Hmax). cbn [fst snd] in *.
  split.
  { unfold r, omnisketch_sample_add.
    destruct (Nat.ltb_spec (sampleCount b) (sampleSize sk)) as [Hlt|Hge].
    - cbn [fst set_sampleCount sampleCount].
      destruct (sampleCount b =? 0); [cbn; lia|]. destruct (Z.ltb _ _); cbn; lia.
    - destruct (Z.ltb _ _); cbn [fst]; [rewrite rescan_max_sampleCount|]; lia. }
  split; [apply omnisketch_sample_add_totalCount|].
  split; [apply omnisketch_sample_add_isSorted|].
  unfold r. rewrite omnisketch_sample_add_ids;
    [|lia | destruct (sampleCount b) eqn:E; [right; reflexivity | left; apply Hmax; lia]].
  assert (length (H_s <$> stored_ids (b, smp)) = sampleCount b) as Hl.
  { rewrite length_fmap. unfold stored_ids. cbn [fst snd]. rewrite length_take. lia. }
  destruct (Nat.ltb_spec (sampleCount b) (sampleSize sk)) as [Hlt|Hge].
  - destruct (decide _) as [_|Hout]; [|lia].
    rewrite fmap_app. cbn [fmap list_fmap]. rewrite SKETCH_HASH_int32.
    rewrite take_ge.
    + apply sort_le_unique; [apply (Sorted_merge_sort Z.le)|].
      rewrite merge_sort_Permutation. apply Permutation_cons_append.
    + rewrite (Permutation_length (merge_sort_Permutation _ _)). cbn [length]. lia.
  - assert (sampleCount b = sampleSize sk) as Hfull by lia.
    destruct (Hmax ltac:(lia)) as (Hi & Hm & Hall).
    assert ((H_s <$> stored_ids (b, smp)) !! maxIndex b = Some (maxHash b)) as Hp.
    { rewrite list_lookup_fmap. unfold stored_ids. cbn [fst snd].
      rewrite lookup_take_lt by exact Hi.
      rewrite (list_lookup_lookup_total_lt smp (maxIndex b)) by lia.
      cbn. rewrite Hm. reflexivity. }
    assert (Forall (fun x => (x <= maxHash b)%Z) (H_s <$> stored_ids (b, smp))) as Hall'.
    { apply Forall_fmap. exact Hall. }
    destruct (Z.ltb_spec (H_s it) (maxHash b)) as [Hh|Hh].
    + rewrite list_fmap_insert, SKETCH_HASH_int32.
      rewrite (sort_le_replace_max _ _ (maxHash b)) by (assumption || lia).
      rewrite Hl, Hfull. reflexivity.
    + rewrite sort_le_with_max.
      * rewrite take_app_length'; [reflexivity|].
        rewrite (Permutation_length (merge_sort_Permutation _ _)). lia.
      * eapply Forall_impl; [exact Hall'|]. cbv beta. intros; lia.
Qed.

End Sample_add.

(** ** Sums over a row *)

Lemma fold_sum_snoc (f : nat -> Z) n c :
  fold_left (fun cnt j => (cnt + f j)%Z) (seq 0 (S n)) c
  = (fold_left (fun cnt j => (cnt + f j)%Z) (seq 0 n) c + f n)%Z.
Proof. rewrite seq_S, fold_left_app. reflexivity. Qed.

Lemma fold_sum_ext (f g : nat -> Z) n c :
  (forall j, j < n -> f j = g j) ->
  fold_left (fun cnt j => (cnt + f j)%Z) (seq 0 n) c
  = fold_left (fun cnt j => (cnt + g j)%Z) (seq 0 n) c.
Proof.
  intros Hfg. induction n as [|n IH]; [reflexivity|].
  rewrite !fold_sum_snoc, IH, Hfg by (intros; try apply Hfg; lia). reflexivity.
Qed.

Lemma fold_sum_add (f g : nat -> Z) n :
  fold_left (fun cnt j => (cnt + (f j + g j))%Z) (seq 0 n) 0%Z
  = (fold_left (fun cnt j => (cnt + f j)%Z) (seq 0 n) 0
     + fold_left (fun cnt j => (cnt + g j)%Z) (seq 0 n) 0)%Z.
Proof.
  induction n as [|n IH]; [reflexivity|]. rewrite !fold_sum_snoc, IH. lia.
Qed.

Lemma fold_sum_update (f g : nat -> Z) n j0 d :
  j0 < n -> (forall j, j < n -> j <> j0 -> g j = f j) -> g j0 = (f j0 + d)%Z ->
  fold_left (fun cnt j => (cnt + g j)%Z) (seq 0 n) 0%Z
  = (fold_left (fun cnt j => (cnt + f j)%Z) (seq 0 n) 0 + d)%Z.
Proof.
  intros Hj Hne Hd. induction n as [|n IH]; [lia|].
  rewrite !fold_sum_snoc. destruct (decide (j0 = n)) as [->|Hn].
  - rewrite Hd. rewrite (fold_sum_ext g f) by (intros; apply Hne; lia). lia.
  - rewrite IH by (intros; try apply Hne; lia). rewrite Hne by lia. lia.
Qed.

Lemma fold_sum_nonneg (f : nat -> Z) n :
  (forall j, j < n -> (0 <= f j)%Z) ->
  (0 <= fold_left (fun cnt j => (cnt + f j)%Z) (seq 0 n) 0)%Z.
Proof.
  intros Hf. induction n as [|n IH]; [cbn; lia|].
  rewrite fold_sum_snoc.
  specialize (IH ltac:(intros; apply Hf; lia)). specialize (Hf n ltac:(lia)). lia.
Qed.

Lemma fold_sum_ge (f : nat -> Z) n j0 :
  (forall j, j < n -> (0 <= f j)%Z) -> j0 < n ->
  (f j0 <= fold_left (fun cnt j => (cnt + f j)%Z) (seq 0 n) 0)%Z.
Proof.
  intros Hf Hj. induction n as [|n IH]; [lia|].
  rewrite fold_sum_snoc.
  pose proof (fold_sum_nonneg f n ltac:(intros; apply Hf; lia)).
  pose proof (Hf n ltac:(lia)).
  destruct (decide (j0 = n)) as [->|Hn]; [lia|].
  specialize (IH ltac:(intros; apply Hf; lia) ltac:(lia)). lia.
Qed.

Lemma fold_left_zip_seq_inv {S X} (P : nat -> S -> Prop) (f : S -> nat * X -> S)
    (l : list X) (s : S) :
  P 0 s ->
  (forall k x s, l !! k = Some x -> P k s -> P (Datatypes.S k) (f s (k, x))) ->
  P (length l) (fold_left f (zip (seq 0 (length l)) l) s).
Proof.
  induction l as [|x l IH] using rev_ind; intros H0 Hstep; [exact H0|].
  rewrite length_app. cbn [length]. rewrite Nat.add_1_r, seq_S.
  rewrite zip_with_app by (rewrite length_seq; reflexivity).
  rewrite fold_left_app. cbn [zip_with fold_left Nat.add].
  apply Hstep.
  - rewrite lookup_app_r by lia. rewrite Nat.sub_diag. reflexivity.
  - apply IH; [exact H0|]. intros k y s' Hk. apply Hstep.
    rewrite lookup_app_l by (eapply lookup_lt_Some, Hk). exact Hk.
Qed.

Lemma Forall_insert_lt {A} (P : A -> Prop) (l : list A) i x :
  Forall P l -> (i < length l -> P x) -> Forall P (<[i := x]> l).
Proof.
  intros Hl Hx. destruct (decide (i < length l)) as [Hlt|Hge].
  - apply Forall_insert; [exact Hl | apply Hx, Hlt].
  - rewrite list_insert_ge by lia. exact Hl.
Qed.

Lemma shape_ok_set_cell s idx b x : shape_ok s -> shape_ok (set_cell s idx b x).
Proof.
  intros [Hb Hs]. split; cbn [set_cell buckets samples numSketches sketchHeight sketchWidth];
    rewrite !length_insert; assumption.
Qed.

Lemma SKETCH_BUCKET_set_cell s idx b x a i j :
  SKETCH_BUCKET (set_cell s idx b x) a i j
  = if decide (idx = SKETCH_BUCKET_INDEX s a i j /\ idx < length (buckets s))
    then b else SKETCH_BUCKET s a i j.
Proof.
  unfold SKETCH_BUCKET. cbn [set_cell buckets].
  rewrite list_lookup_total_insert. reflexivity.
Qed.

Lemma nonneg_lookup_total (l : list bucket_t) i :
  Forall (fun b => (0 <= totalCount b)%Z) l -> (0 <= totalCount (l !!! i))%Z.
Proof.
  intros Hall. destruct (l !! i) as [b|] eqn:E.
  - rewrite (list_lookup_total_correct _ _ _ E). exact (Forall_lookup_1 _ _ _ _ Hall E).
  - rewrite list_lookup_total_alt, E. cbn. lia.
Qed.

Section Add_invariant.

Variable XXH32 : Z -> Z -> Z.

Local Abbreviation cell_basic := (cell_basic XXH32).
Local Abbreviation sketch_basic := (sketch_basic XXH32).

(** ** The bucket invariant through [omnisketch_add] *)

Lemma add_hash_row_basic column hash it s i :
  sketch_basic s -> sketch_basic (add_hash_row XXH32 column hash it s i).
Proof.
  intros (HB & Hsh & Hall). unfold add_hash_row.
  destruct (omnisketch_sample_add _ _ _ _ _) as [b' smp'] eqn:E.
  split; [exact HB|]. split; [apply shape_ok_set_cell, Hsh|].
  rewrite cells_set_cell. cbn [set_cell sampleSize].
  apply Forall_insert_lt; [exact Hall|]. intros Hlt.
  rewrite <- E. apply omnisketch_sample_add_basic.
  assert (cell_basic (sampleSize s)
            (SKETCH_BUCKET s column i
               (Z.to_nat (SKETCH_HASH XXH32 hash (Z.of_nat i) mod Z.of_nat (sketchWidth s))),
             SKETCH_SAMPLE s column i
               (Z.to_nat (SKETCH_HASH XXH32 hash (Z.of_nat i) mod Z.of_nat (sketchWidth s)))))
    as Hc.
  { unfold SKETCH_BUCKET, SKETCH_SAMPLE.
    rewrite <- cells_lookup_total by apply Hsh.
    eapply Forall_lookup_1; [exact Hall|].
    apply list_lookup_lookup_total_lt. exact Hlt. }
  exact Hc.
Qed.

Lemma omnisketch_add_hash_basic s column hash it :
  sketch_basic s -> sketch_basic (omnisketch_add_hash XXH32 s column hash it).
Proof.
  intros Hs. unfold omnisketch_add_hash.
  apply fold_left_inv; [|exact Hs].
  intros; apply add_hash_row_basic; assumption.
Qed.

(** X8.  [omnisketch_add] establishes the bucket invariant on the first
    record and keeps it on every later one: no sample outgrows
    [sampleSize], the unused slots stay zero, and the cached maximum of
    every bucket is the largest hash of its sample. *)
Theorem omnisketch_add_keeps_bucket_invariant state sz prng record s' :
  match state with
  | Some s => sketch_basic s /\ 0 < sketchWidth s
  | None => 1 <= sz_B sz /\ sizing_fits sz (length record)
  end ->
  omnisketch_add XXH32 state sz prng record = Ok s' ->
  sketch_basic s'.
Proof.
  intros Hst. unfold omnisketch_add.
  set (s0 := match state with None => _ | Some s => s end).
  assert (sketch_basic s0) as H0.
  { subst s0. destruct state as [s|]; [exact (proj1 Hst)|].
    apply omnisketch_allocate_basic, Hst. }
  destruct (negb _); [discriminate|]. intros [= <-].
  apply fold_left_inv.
  - intros s [i att] Hs. unfold add_attribute. cbn [snd fst].
    destruct att; [exact Hs| |]; apply omnisketch_add_hash_basic, Hs.
  - exact H0.
Qed.

End Add_invariant.

Section Add_counts.

Variable XXH32 : Z -> Z -> Z.

(** ** Count conservation through [omnisketch_add] *)

Local Abbreviation nonneg := (Forall (fun b : bucket_t => (0 <= totalCount b)%Z)).

Lemma row_count_set_cell_other s idx b x a i a0 i0 j0 :
  idx = SKETCH_BUCKET_INDEX s a0 i0 j0 ->
  i0 < sketchHeight s -> j0 < sketchWidth s -> i < sketchHeight s ->
  (a, i) <> (a0, i0) ->
  row_count (set_cell s idx b x) a i = row_count s a i.
Proof.
  intros -> Hi0 Hj0 Hi Hne. unfold row_count.
  cbn [set_cell sketchWidth]. apply fold_sum_ext. intros j Hj.
  rewrite SKETCH_BUCKET_set_cell.
  destruct (decide _) as [[E _]|_]; [|reflexivity].
  apply SKETCH_BUCKET_INDEX_eq in E as (-> & -> & _); try assumption.
  contradiction Hne. reflexivity.
Qed.

Lemma row_count_set_cell_same s b x a i j0 d :
  i < sketchHeight s -> j0 < sketchWidth s ->
  SKETCH_BUCKET_INDEX s a i j0 < length (buckets s) ->
  totalCount b = (totalCount (SKETCH_BUCKET s a i j0) + d)%Z ->
  row_count (set_cell s (SKETCH_BUCKET_INDEX s a i j0) b x) a i = (row_count s a i + d)%Z.
Proof.
  intros Hi Hj0 Hlt Hb. unfold row_count. cbn [set_cell sketchWidth].
  apply (fold_sum_update _ _ _ j0); [exact Hj0| |].
  - intros j Hj Hne. rewrite SKETCH_BUCKET_set_cell.
    destruct (decide _) as [[E _]|_]; [|reflexivity].
    apply SKETCH_BUCKET_INDEX_eq in E as (_ & _ & E); try assumption.
    congruence.
  - rewrite SKETCH_BUCKET_set_cell.
    destruct (decide _) as [_|Hn]; [exact Hb|].
    exfalso. apply Hn. split; [reflexivity | exact Hlt].
Qed.

Lemma totalCount_le_row s a i j :
  nonneg (buckets s) -> j < sketchWidth s ->
  (totalCount (SKETCH_BUCKET s a i j) <= row_count s a i)%Z.
Proof.
  intros Hn Hj. unfold row_count.
  apply (fold_sum_ge (fun j => totalCount (SKETCH_BUCKET s a i j))); [|exact Hj].
  intros j' _. apply nonneg_lookup_total, Hn.
Qed.

(** One row of one matrix counts the value; nothing else changes. *)
Lemma add_hash_row_rows column hash it s i0 :
  shape_ok s -> 0 < sketchWidth s -> column < numSketches s -> i0 < sketchHeight s ->
  nonneg (buckets s) -> (row_count s column i0 + 1 < 2 ^ 32)%Z ->
  let s' := add_hash_row XXH32 column hash it s i0 in
  shape_ok s' /\ nonneg (buckets s')
  /\ row_count s' column i0 = (row_count s column i0 + 1)%Z
  /\ forall a i, i < sketchHeight s -> (a, i) <> (column, i0) ->
       row_count s' a i = row_count s a i.
Proof.
  intros Hsh Hw Hc Hi0 Hn Hfit. unfold add_hash_row.
  set (j0 := Z.to_nat (SKETCH_HASH XXH32 hash (Z.of_nat i0) mod Z.of_nat (sketchWidth s))).
  assert (j0 < sketchWidth s) as Hj0 by (apply bucket_column_lt, Hw).
  pose proof (SKETCH_BUCKET_INDEX_lt s column i0 j0 Hc Hi0 Hj0) as Hlt.
  rewrite <- (proj1 Hsh) in Hlt.
  pose proof (totalCount_le_row s column i0 j0 Hn Hj0) as Hle.
  pose proof (nonneg_lookup_total (buckets s) (SKETCH_BUCKET_INDEX s column i0 j0) Hn) as H0.
  fold (SKETCH_BUCKET s column i0 j0) in H0.
  destruct (omnisketch_sample_add _ _ _ _ _) as [b' smp'] eqn:E.
  assert (totalCount b' = (totalCount (SKETCH_BUCKET s column i0 j0) + 1)%Z) as Hb'.
  { change b' with ((b', smp').1). rewrite <- E, omnisketch_sample_add_totalCount.
    cbn [set_totalCount totalCount]. unfold uint32. apply Z.mod_small. lia. }
  cbv zeta. split; [apply shape_ok_set_cell, Hsh|]. split.
  { cbn [set_cell buckets]. apply Forall_insert; [exact Hn | lia]. }
  split.
  - apply row_count_set_cell_same; assumption.
  - intros a i Hi Hne.
    apply (row_count_set_cell_other s _ b' smp' a i column i0 j0); auto.
Qed.

Lemma same_header_dims s s' :
  same_header s s' ->
  numSketches s' = numSketches s /\ sketchWidth s' = sketchWidth s
  /\ sketchHeight s' = sketchHeight s.
Proof. intros (_ & H1 & H2 & H3 & _). auto. Qed.

(** All rows of one matrix count the value; the other matrices do not
    change. *)
Lemma omnisketch_add_hash_rows s column hash it :
  shape_ok s -> 0 < sketchWidth s -> column < numSketches s ->
  nonneg (buckets s) ->
  (forall i, i < sketchHeight s -> (row_count s column i + 1 < 2 ^ 32)%Z) ->
  let s' := omnisketch_add_hash XXH32 s column hash it in
  same_header s s' /\ shape_ok s' /\ nonneg (buckets s')
  /\ (forall i, i < sketchHeight s ->
        row_count s' column i = (row_count s column i + 1)%Z)
  /\ (forall a i, a <> column -> i < sketchHeight s ->
        row_count s' a i = row_count s a i).
Proof.
  intros Hsh Hw Hc Hn Hfit. cbv zeta. unfold omnisketch_add_hash.
  set (P := fun (k : nat) s' =>
             same_header s s' /\ shape_ok s' /\ nonneg (buckets s')
             /\ (forall i, i < sketchHeight s ->
                   row_count s' column i
                   = (row_count s column i + (if decide (i < k)%nat then 1 else 0))%Z)
             /\ (forall a i, a <> column -> i < sketchHeight s ->
                   row_count s' a i = row_count s a i)).
  assert (P (sketchHeight s)
            (fold_left (add_hash_row XXH32 column hash it) (seq 0 (sketchHeight s)) s))
    as (Hh & Hsh' & Hn' & Hcol & Hoth).
  { apply (fold_left_seq_inv P); unfold P.
    - split; [apply same_header_refl|]. split; [exact Hsh|]. split; [exact Hn|].
      split; [|reflexivity]. intros i _. destruct (decide _); lia.
    - intros k s1 Hk (Hh & Hsh1 & Hn1 & Hcol & Hoth).
      destruct (same_header_dims _ _ Hh) as (D1 & D2 & D3).
      destruct (add_hash_row_rows column hash it s1 k Hsh1)
        as (Hsh2 & Hn2 & Hrow & Hrest); try lia; try assumption.
      { rewrite Hcol by lia. destruct (decide _); [lia|].
        specialize (Hfit k Hk). lia. }
      split; [apply add_hash_row_header, Hh|]. split; [exact Hsh2|].
      split; [exact Hn2|]. split.
      + intros i Hi. destruct (decide (i = k)) as [->|Hne].
        * rewrite Hrow, Hcol by lia.
          destruct (decide (k < k)); [lia|]. destruct (decide (k < S k)); lia.
        * rewrite Hrest by (try congruence; lia). rewrite Hcol by lia.
          destruct (decide (i < k)), (decide (i < S k)); lia.
      + intros a i Ha Hi. rewrite Hrest by (try congruence; lia).
        apply Hoth; assumption. }
  split; [exact Hh|]. split; [exact Hsh'|]. split; [exact Hn'|]. split.
  - intros i Hi. rewrite Hcol by exact Hi. destruct (decide _); lia.
  - exact Hoth.
Qed.

Lemma row_count_set_count s v a i : row_count (set_count s v) a i = row_count s a i.
Proof. reflexivity. Qed.

(** One record more: the header but for the count, the shape and the row
    sums after [omnisketch_add]. *)
Lemma omnisketch_add_rows s sz prng record :
  shape_ok s -> 0 < sketchWidth s -> rows_sum_to_count s ->
  (0 <= count s < INT32_MAX)%Z ->
  length record = numSketches s -> Forall (fun att => att <> Dropped) record ->
  exists s', omnisketch_add XXH32 (Some s) sz prng record = Ok s'
    /\ same_header (set_count s (count s + 1)) s'
    /\ shape_ok s' /\ rows_sum_to_count s'.
Proof.
  intros Hsh Hw [Hn Hrows] Hc Hlen Hnd. unfold omnisketch_add.
  rewrite <- Hlen, Nat.eqb_refl. cbn [negb]. eexists. split; [reflexivity|].
  cbv zeta. rewrite !int32_small by (unfold INT32_MAX in *; lia).
  match goal with |- context [fold_left ?f ?l ?x] => set (s' := fold_left f l x) end.
  pose (s1 := set_count s (count s + 1)).
  set (P := fun (k : nat) s' =>
             same_header s1 s' /\ shape_ok s' /\ nonneg (buckets s')
             /\ (forall a i, a < numSketches s -> i < sketchHeight s ->
                   row_count s' a i
                   = (count s + (if decide (a < k)%nat then 1 else 0))%Z)).
  assert (P (length record) s') as (Hh & Hsh' & Hn' & Hall).
  { unfold s'. apply (fold_left_zip_seq_inv P); unfold P.
    - split; [apply same_header_refl|]. split; [exact Hsh|]. split; [exact Hn|].
      intros a i Ha Hi. destruct (decide _); [lia|].
      rewrite Z.add_0_r. apply Hrows; assumption.
    - intros k att s2 Hk (Hh & Hsh2 & Hn2 & Hall).
      destruct (same_header_dims _ _ Hh) as (D1 & D2 & D3).
      change (numSketches s1) with (numSketches s) in D1.
      change (sketchWidth s1) with (sketchWidth s) in D2.
      change (sketchHeight s1) with (sketchHeight s) in D3.
      assert (k < numSketches s) as Hkn by (rewrite <- Hlen; eapply lookup_lt_Some, Hk).
      assert (att <> Dropped) as Hatt by (eapply Forall_lookup_1 in Hnd; eauto).
      assert (forall hash it,
                let s3 := omnisketch_add_hash XXH32 s2 k hash it in
                same_header s1 s3 /\ shape_ok s3 /\ nonneg (buckets s3)
                /\ (forall a i, a < numSketches s -> i < sketchHeight s ->
                      row_count s3 a i
                      = (count s + (if decide (a < S k)%nat then 1 else 0))%Z)) as Hstep.
      { intros hash it.
        destruct (omnisketch_add_hash_rows s2 k hash it Hsh2)
          as (Hh3 & Hsh3 & Hn3 & Hcol & Hoth); try lia; try assumption.
        { intros i Hi. rewrite Hall by lia. destruct (decide _); [lia|].
          unfold INT32_MAX in Hc. lia. }
        cbv zeta. split.
        { destruct Hh as (?&?&?&?&?&?&?&?), Hh3 as (?&?&?&?&?&?&?&?).
          repeat split; congruence. }
        split; [exact Hsh3|]. split; [exact Hn3|].
        intros a i Ha Hi. destruct (decide (a = k)) as [->|Hne].
        - rewrite Hcol, Hall by lia.
          destruct (decide (k < k)); [lia|]. destruct (decide (k < S k)); lia.
        - rewrite Hoth, Hall by lia.
          destruct (decide (a < k)), (decide (a < S k)); lia. }
      unfold add_attribute. cbn [fst snd].
      destruct att as [| |v]; [contradiction | apply Hstep | apply Hstep]. }
  clearbody s'. split; [exact Hh|].
  destruct Hh as (_ & D1 & D2 & D3 & _ & _ & Dc & _).
  change (numSketches s1) with (numSketches s) in D1.
  change (sketchHeight s1) with (sketchHeight s) in D3.
  change (count s1) with (count s + 1)%Z in Dc.
  split; [exact Hsh'|]. split; [exact Hn'|].
  intros a i Ha Hi. rewrite D1 in Ha. rewrite D3 in Hi.
  rewrite Hall by assumption. rewrite Dc.
  destruct (decide _); lia.
Qed.

(** X9.  Count conservation, the sum [AssertCheckSketch] asserts, is kept by
    [omnisketch_add] on a record none of whose attributes is dropped, as
    long as the count fits its 32 bits: the record is counted once in
    every row of every matrix. *)
Theorem omnisketch_add_conserves_counts s sz prng record :
  shape_ok s -> 0 < sketchWidth s -> rows_sum_to_count s ->
  (0 <= count s < INT32_MAX)%Z ->
  length record = numSketches s -> Forall (fun att => att <> Dropped) record ->
  exists s', omnisketch_add XXH32 (Some s) sz prng record = Ok s'
    /\ count s' = (count s + 1)%Z
    /\ shape_ok s' /\ rows_sum_to_count s'.
Proof.
  intros Hsh Hw Hrows Hc Hlen Hnd.
  destruct (omnisketch_add_rows s sz prng record Hsh Hw Hrows Hc Hlen Hnd)
    as (s' & Hadd & Hh & Hsh' & Hrows').
  exists s'. split; [exact Hadd|].
  destruct Hh as (_ & _ & _ & _ & _ & _ & Dc & _).
  split; [exact Dc|]. split; [exact Hsh' | exact Hrows'].
Qed.

End Add_counts.

Section Finalize_and_merge.

Variable XXH32 : Z -> Z -> Z.

Local Abbreviation with_hash := (with_hash XXH32).
Local Abbreviation content := (content XXH32).
Local Abbreviation hashed := (hashed XXH32).
Local Abbreviation cell_wf := (cell_wf XXH32).
Local Abbreviation finalize_cell := (finalize_cell XXH32).
Local Abbreviation merge_cell := (merge_cell XXH32).
Local Abbreviation sketch_wf := (sketch_wf XXH32).
Local Abbreviation fin := (omnisketch_finalize XXH32).
Local Abbreviation comb := (combine_sketches XXH32).
Local Abbreviation nonneg := (Forall (fun b : bucket_t => (0 <= totalCount b)%Z)).

(** ** Finalize only reorders *)

Lemma finalize_cell_reorders c :
  sampleCount c.1 <= length c.2 ->
  totalCount (finalize_cell c).1 = totalCount c.1
  /\ sampleCount (finalize_cell c).1 = sampleCount c.1
  /\ maxHash (finalize_cell c).1 = maxHash c.1
  /\ length (finalize_cell c).2 = length c.2
  /\ stored_ids (finalize_cell c) ≡ₚ stored_ids c
  /\ drop (sampleCount c.1) (finalize_cell c).2 = drop (sampleCount c.1) c.2.
Proof.
  destruct c as [b smp]. cbn [fst snd]. intros Hn. unfold finalize_cell. cbn [fst snd].
  destruct (isSorted b); [repeat split; reflexivity|].
  destruct (2 <=? sampleCount b); [|repeat split; reflexivity].
  cbn [fst snd set_isSorted set_maxIndex totalCount sampleCount maxHash].
  rewrite (sorted_items_content XXH32 b smp Hn).
  assert (isSorted b = false \/ True) as _ by (right; exact I).
  assert (length (content (b, smp)) = sampleCount b) as Hl
    by (apply (length_content XXH32 (b, smp)); exact Hn).
  destruct (isSorted b) eqn:Hflag.
  - rewrite store_items_spec by lia.
    rewrite take_ge by lia.
    unfold content. rewrite (item_with_hash XXH32).
    unfold stored_ids. cbn [fst snd]. rewrite take_drop.
    repeat split; reflexivity.
  - rewrite store_items_spec by (rewrite ?pg_qsort_length; lia).
    rewrite (take_ge (pg_qsort _ _)) by (rewrite pg_qsort_length; lia).
    assert (length (item <$> pg_qsort cmp_item_hash (content (b, smp))) = sampleCount b)
      as Hl' by (rewrite length_fmap, pg_qsort_length; exact Hl).
    split; [reflexivity|]. split; [reflexivity|]. split; [reflexivity|]. split.
    { rewrite length_app, Hl', length_drop. lia. }
    unfold stored_ids. cbn [fst snd]. split.
    + rewrite take_app_length' by (symmetry; exact Hl').
      rewrite pg_qsort_perm. unfold content.
      rewrite (item_with_hash XXH32). reflexivity.
    + rewrite drop_app_length' by (symmetry; exact Hl'). reflexivity.
Qed.

Lemma finalize_bucket_totalCount s a i j idx :
  totalCount (buckets (finalize_bucket XXH32 s a i j) !!! idx) = totalCount (buckets s !!! idx).
Proof.
  unfold finalize_bucket.
  destruct (isSorted _); [reflexivity|]. destruct (2 <=? _); [|reflexivity].
  cbn [set_cell buckets]. rewrite list_lookup_total_insert.
  destruct (decide _) as [[<- _]|_]; reflexivity.
Qed.

Lemma omnisketch_finalize_totalCount s idx :
  same_header s (fin s)
  /\ totalCount (buckets (fin s) !!! idx) = totalCount (buckets s !!! idx)
  /\ length (buckets (fin s)) = length (buckets s).
Proof.
  unfold omnisketch_finalize.
  apply (for_each_bucket_inv
           (fun s' => same_header s s'
                      /\ totalCount (buckets s' !!! idx) = totalCount (buckets s !!! idx)
                      /\ length (buckets s') = length (buckets s))).
  - intros s' a i j (Hh & Ht & Hl). split; [|split].
    + unfold finalize_bucket. destruct (isSorted _); [exact Hh|].
      destruct (2 <=? _); exact Hh.
    + rewrite finalize_bucket_totalCount. exact Ht.
    + unfold finalize_bucket. destruct (isSorted _); [exact Hl|].
      destruct (2 <=? _); [|exact Hl]. cbn [set_cell buckets].
      rewrite length_insert. exact Hl.
  - split; [apply same_header_refl|]. split; reflexivity.
Qed.

Lemma row_count_finalize s a i : row_count (fin s) a i = row_count s a i.
Proof.
  unfold row_count.
  destruct (omnisketch_finalize_totalCount s 0) as ((_ & _ & Hw & _) & _).
  rewrite Hw. apply fold_sum_ext. intros j _.
  unfold SKETCH_BUCKET, SKETCH_BUCKET_INDEX, SKETCH_SIZE.
  destruct (omnisketch_finalize_totalCount s 0) as ((_ & _ & -> & -> & _) & _).
  apply omnisketch_finalize_totalCount.
Qed.

(** X10.  [omnisketch_finalize] changes no count and loses or invents no ID: the
    header is as before, and every bucket keeps its total count, its
    sample count, its cached maximum hash and the unused part of its
    sample; the stored IDs are a permutation of what they were.  So every
    row sums to what it did. *)
Theorem omnisketch_finalize_only_reorders s :
  shape_ok s -> Forall (fun c => sampleCount c.1 <= length c.2) (cells s) ->
  same_header s (fin s) /\ shape_ok (fin s)
  /\ Forall2 (fun c c' =>
                totalCount c'.1 = totalCount c.1
                /\ sampleCount c'.1 = sampleCount c.1
                /\ maxHash c'.1 = maxHash c.1
                /\ length c'.2 = length c.2
                /\ stored_ids c' ≡ₚ stored_ids c
                /\ drop (sampleCount c.1) c'.2 = drop (sampleCount c.1) c.2)
       (cells s) (cells (fin s))
  /\ (forall a i, row_count (fin s) a i = row_count s a i)
  /\ (rows_sum_to_count s -> rows_sum_to_count (fin s)).
Proof.
  intros Hsh Hall.
  split; [apply (omnisketch_finalize_totalCount s 0)|].
  split.
  { rewrite (omnisketch_finalize_cells XXH32 s Hsh).
    apply shape_ok_with_cells; [exact Hsh|].
    rewrite length_fmap. apply cells_length, Hsh. }
  split.
  { rewrite (omnisketch_finalize_cells XXH32 s Hsh), cells_with_cells.
    apply Forall2_fmap_r, Forall_Forall2_diag.
    eapply Forall_impl; [exact Hall|]. apply finalize_cell_reorders. }
  split; [apply row_count_finalize|].
  intros [Hn Hrows].
  destruct (omnisketch_finalize_totalCount s 0) as ((_ & D1 & _ & D3 & _ & _ & Dc & _) & _).
  split.
  - apply Forall_lookup_2. intros idx b Hb.
    rewrite <- (list_lookup_total_correct _ _ _ Hb).
    rewrite (proj1 (proj2 (omnisketch_finalize_totalCount s idx))).
    apply nonneg_lookup_total, Hn.
  - intros a i Ha Hi. rewrite row_count_finalize, Dc. apply Hrows; congruence.
Qed.

(** ** Merging two buckets *)

(** X11.  [omnisketch_merge_buckets] on two buckets that satisfy the bucket
    invariant: with an empty second bucket the first one is left as it is;
    otherwise the result holds the [B] smallest [(hash, item)] pairs of the
    two samples, in order, is flagged sorted with its maximum last, counts
    both totals, and satisfies the invariant again. *)
Theorem omnisketch_merge_buckets_keeps_smallest B d s :
  1 <= B -> cell_wf B d -> cell_wf B s ->
  let r := omnisketch_merge_buckets XXH32 d.1 s.1 d.2 s.2 B in
  cell_wf B r
  /\ (sampleCount s.1 = 0 -> r = d)
  /\ (0 < sampleCount s.1 ->
      content r = take B (pg_qsort cmp_item_hash (content d ++ content s))
      /\ sampleCount r.1 = Nat.min B (sampleCount d.1 + sampleCount s.1)
      /\ totalCount r.1 = uint32 (totalCount d.1 + totalCount s.1)
      /\ isSorted r.1 = true
      /\ maxIndex r.1 = sampleCount r.1 - 1).
Proof.
  intros HB Hd Hs r.
  change r with (merge_cell B d s).
  split; [apply (merge_cell_wf XXH32); assumption|].
  split; [apply merge_cell_empty_src|].
  intros Hpos. rewrite (merge_cell_canon XXH32 B d s HB Hd Hs).
  destruct (Nat.eqb_spec (sampleCount s.1) 0) as [E|_]; [lia|].
  set (l := take B (pg_qsort cmp_item_hash (content d ++ content s))).
  assert (hashed l) as Hl.
  { apply hashed_take. eapply hashed_perm; [symmetry; apply pg_qsort_perm|].
    apply hashed_app; apply hashed_content. }
  split; [apply canon_content, Hl|].
  rewrite canon_sampleCount, canon_totalCount.
  split.
  { unfold l. rewrite length_take, pg_qsort_length, length_app.
    pose proof Hd as (D1 & D2 & _). pose proof Hs as (S1 & S2 & _).
    rewrite !(length_content XXH32) by lia. reflexivity. }
  split; [reflexivity|]. split; reflexivity.
Qed.

(** ** The sketch invariant through finalize and combine *)

(** X12.  [omnisketch_finalize] and the merge of [omnisketch_combine] keep the
    sketch invariant, and a combined sketch has the dimensions of its
    arguments, so it combines with what they combine with. *)
Theorem finalize_and_combine_keep_invariant dst src :
  sketch_wf dst -> sketch_wf src -> omnisketch_equals src dst = true ->
  sketch_wf (fin dst)
  /\ sketch_wf (comb dst src)
  /\ sketch_wf (fin (comb dst src))
  /\ omnisketch_equals (comb dst src) dst = true
  /\ omnisketch_equals (fin dst) dst = true.
Proof.
  intros Hd Hs He.
  pose proof (sketch_wf_combine XXH32 dst src Hd Hs He) as Hc.
  split; [apply sketch_wf_finalize, Hd|]. split; [exact Hc|].
  split; [apply sketch_wf_finalize, Hc|]. split.
  - rewrite (proj1 (combine_sketches_equals XXH32 dst src dst)).
    apply omnisketch_equals_spec. repeat split; reflexivity.
  - destruct (omnisketch_finalize_totalCount dst 0) as ((_ & D1 & D2 & D3 & D4 & D5 & _) & _).
    apply omnisketch_equals_spec. repeat split; assumption.
Qed.

(** ** Combine with an empty sketch *)

Lemma empty_lookup_total (l : list bucket_t) i :
  Forall (fun b => sampleCount b = 0) l -> sampleCount (l !!! i) = 0.
Proof.
  intros Hall. destruct (l !! i) as [b|] eqn:E.
  - rewrite (list_lookup_total_correct _ _ _ E). exact (Forall_lookup_1 _ _ _ _ Hall E).
  - rewrite list_lookup_total_alt, E. reflexivity.
Qed.

Lemma combine_sketches_empty_src dst src :
  Forall (fun b => sampleCount b = 0) (buckets src) ->
  comb dst src = set_count dst (int32 (count dst + count src)).
Proof.
  intros Hall. unfold combine_sketches.
  assert (for_each_bucket (numSketches src) (sketchHeight src) (sketchWidth src)
            (combine_bucket XXH32 src) dst = dst) as ->; [|reflexivity].
  apply (for_each_bucket_inv (fun d => d = dst)); [|reflexivity].
  intros d a i j ->. unfold combine_bucket, omnisketch_merge_buckets.
  assert (sampleCount (SKETCH_BUCKET src a i j) = 0) as ->
    by (apply empty_lookup_total, Hall).
  cbn [Nat.eqb]. apply set_cell_same.
Qed.

(** X13.  Combining with a sketch of the same dimensions that holds no ID
    changes nothing in the first sketch but its count, to which the count
    of the second is added (wrapped to [int32]); with a second count of 0
    the first sketch is returned as it was. *)
Theorem omnisketch_combine_empty_is_neutral (h : gmap positive omnisketch_t) p0 p1 dst src :
  h !! p0 = Some dst -> h !! p1 = Some src -> p0 <> p1 ->
  omnisketch_equals src dst = true ->
  shape_ok dst -> shape_ok src ->
  Forall (fun b => sampleCount b = 0) (buckets src) ->
  omnisketch_combine XXH32 true h (Some p0) (Some p1)
  = Ok (Some p0, <[p0 := set_count dst (int32 (count dst + count src))]> h)
  /\ (count src = 0%Z -> (- 2 ^ 31 <= count dst <= INT32_MAX)%Z ->
      omnisketch_combine XXH32 true h (Some p0) (Some p1) = Ok (Some p0, h)).
Proof.
  intros H0 H1 Hne He _ _ Hall.
  rewrite (omnisketch_combine_both XXH32 h p0 p1 dst src Hne H0 H1 He).
  rewrite combine_sketches_empty_src by exact Hall.
  split; [reflexivity|]. intros Hc Hr.
  rewrite Hc, Z.add_0_r, int32_small by exact Hr.
  assert (set_count dst (count dst) = dst) as -> by (destruct dst; reflexivity).
  rewrite insert_id by exact H0. reflexivity.
Qed.

End Finalize_and_merge.

Section Combine_counts.

Variable XXH32 : Z -> Z -> Z.

Local Abbreviation merge_cell := (merge_cell XXH32).
Local Abbreviation comb := (combine_sketches XXH32).
Local Abbreviation nonneg := (Forall (fun b : bucket_t => (0 <= totalCount b)%Z)).

(** ** Count conservation through [omnisketch_combine] *)

Lemma omnisketch_merge_buckets_totalCount db sb dsmp ssmp B :
  totalCount (omnisketch_merge_buckets XXH32 db sb dsmp ssmp B).1
  = if sampleCount sb =? 0 then totalCount db
    else uint32 (totalCount db + totalCount sb).
Proof.
  unfold omnisketch_merge_buckets. destruct (sampleCount sb =? 0); [reflexivity|].
  destruct (merge_loop _ _ _ _ _ _ _ _ _ _ _) as [[k smp] mh]. reflexivity.
Qed.

Lemma combine_sketches_totalCount dst src idx :
  shape_ok dst -> shape_ok src -> omnisketch_equals src dst = true ->
  idx < length (buckets dst) ->
  totalCount (buckets (comb dst src) !!! idx)
  = if sampleCount (buckets src !!! idx) =? 0 then totalCount (buckets dst !!! idx)
    else uint32 (totalCount (buckets dst !!! idx) + totalCount (buckets src !!! idx)).
Proof.
  intros Hd Hs He Hidx.
  rewrite (combine_sketches_cells XXH32 dst src Hd Hs He).
  cbn [set_count with_cells buckets].
  assert (length (cells dst) = length (buckets dst)) as Hl by (apply cells_length, Hd).
  rewrite (list_lookup_total_fmap (A := bucket_t * list Z) (B := bucket_t) fst)
    by (rewrite length_imap; lia).
  rewrite lookup_total_imap_cell by lia.
  rewrite !cells_lookup_total by (apply Hd || apply Hs).
  unfold merge_cell. cbn [fst snd].
  apply omnisketch_merge_buckets_totalCount.
Qed.

Lemma combine_sketches_header dst src :
  numSketches (comb dst src) = numSketches dst
  /\ sketchWidth (comb dst src) = sketchWidth dst
  /\ sketchHeight (comb dst src) = sketchHeight dst
  /\ sampleSize (comb dst src) = sampleSize dst
  /\ seed (comb dst src) = seed dst.
Proof.
  unfold combine_sketches. cbn [set_count numSketches sketchWidth sketchHeight sampleSize seed].
  apply (for_each_bucket_inv
           (fun d => numSketches d = numSketches dst /\ sketchWidth d = sketchWidth dst
                     /\ sketchHeight d = sketchHeight dst /\ sampleSize d = sampleSize dst
                     /\ seed d = seed dst)).
  - intros d a i j Hd. unfold combine_bucket.
    destruct (omnisketch_merge_buckets _ _ _ _ _ _). exact Hd.
  - repeat split.
Qed.

(** The rows of a combined sketch sum to the two counts together, as
    long as that sum fits the [uint32] of a bucket count. *)
Lemma combine_sketches_row_count dst src :
  shape_ok dst -> shape_ok src -> omnisketch_equals src dst = true ->
  rows_sum_to_count dst -> rows_sum_to_count src ->
  Forall nonempty_if_counted (buckets src) ->
  (0 <= count dst)%Z -> (0 <= count src)%Z ->
  (count dst + count src < 2 ^ 32)%Z ->
  shape_ok (comb dst src)
  /\ nonneg (buckets (comb dst src))
  /\ forall a i, a < numSketches dst -> i < sketchHeight dst ->
       row_count (comb dst src) a i = (count dst + count src)%Z.
Proof.
  intros Hd Hs He [Hnd Hrd] [Hns Hrs] Hne Hcd Hcs Hfit.
  pose proof (proj1 (omnisketch_equals_spec _ _) He) as (E1 & E2 & E3 & E4 & E5).
  destruct (combine_sketches_header dst src) as (D1 & D2 & D3 & D4 & D5).
  assert (shape_ok (comb dst src)) as Hsh.
  { rewrite (combine_sketches_cells XXH32 dst src Hd Hs He).
    apply (shape_ok_with_cells dst); [exact Hd|].
    rewrite length_imap. apply cells_length, Hd. }
  split; [exact Hsh|].
  assert (forall a i j, a < numSketches dst -> i < sketchHeight dst -> j < sketchWidth dst ->
            totalCount (SKETCH_BUCKET (comb dst src) a i j)
            = (totalCount (SKETCH_BUCKET dst a i j) + totalCount (SKETCH_BUCKET src a i j))%Z)
    as Hcell.
  { intros a i j Ha Hi Hj.
    pose proof (SKETCH_BUCKET_INDEX_lt dst a i j Ha Hi Hj) as Hlt.
    rewrite <- (proj1 Hd) in Hlt.
    assert (SKETCH_BUCKET_INDEX (comb dst src) a i j = SKETCH_BUCKET_INDEX dst a i j) as Ei
      by (unfold SKETCH_BUCKET_INDEX, SKETCH_SIZE; rewrite D2, D3; reflexivity).
    assert (SKETCH_BUCKET_INDEX src a i j = SKETCH_BUCKET_INDEX dst a i j) as Es
      by (unfold SKETCH_BUCKET_INDEX, SKETCH_SIZE; rewrite E2, E3; reflexivity).
    unfold SKETCH_BUCKET. rewrite Ei, Es.
    rewrite combine_sketches_totalCount by assumption.
    pose proof (nonneg_lookup_total _ (SKETCH_BUCKET_INDEX dst a i j) Hnd) as Pd.
    pose proof (nonneg_lookup_total _ (SKETCH_BUCKET_INDEX dst a i j) Hns) as Ps.
    pose proof (nonempty_lookup_total _ (SKETCH_BUCKET_INDEX dst a i j) Hne) as Pe.
    destruct (Nat.eqb_spec (sampleCount (buckets src !!! SKETCH_BUCKET_INDEX dst a i j)) 0)
      as [E0|_].
    - unfold nonempty_if_counted in Pe. lia.
    - pose proof (totalCount_le_row dst a i j Hnd Hj) as Ld.
      pose proof (totalCount_le_row src a i j Hns ltac:(lia)) as Ls.
      unfold SKETCH_BUCKET in Ld, Ls. rewrite Es in Ls.
      rewrite Hrd in Ld by assumption. rewrite Hrs in Ls by lia.
      unfold uint32. apply Z.mod_small. lia. }
  split.
  - apply Forall_lookup_2. intros idx b Hb.
    rewrite <- (list_lookup_total_correct _ _ _ Hb).
    assert (idx < length (buckets dst)) as Hidx.
    { apply lookup_lt_Some in Hb. destruct Hsh as [Hl _], Hd as [Hl' _].
      rewrite Hl, D1, D2, D3 in Hb. lia. }
    rewrite combine_sketches_totalCount by assumption.
    destruct (_ =? 0); [apply nonneg_lookup_total, Hnd | apply uint32_nonneg].
  - intros a i Ha Hi.
    unfold row_count. rewrite D2.
    rewrite (fold_sum_ext _ (fun j => (totalCount (SKETCH_BUCKET dst a i j)
                                        + totalCount (SKETCH_BUCKET src a i j))%Z))
      by (intros j Hj; apply Hcell; assumption).
    rewrite fold_sum_add.
    pose proof (Hrd a i Ha Hi) as Rd. pose proof (Hrs a i ltac:(lia) ltac:(lia)) as Rs.
    unfold row_count in Rd, Rs. rewrite E3 in Rs. rewrite Rd, Rs. reflexivity.
Qed.

Lemma combine_sketches_rows dst src :
  shape_ok dst -> shape_ok src -> omnisketch_equals src dst = true ->
  rows_sum_to_count dst -> rows_sum_to_count src ->
  Forall nonempty_if_counted (buckets src) ->
  (0 <= count dst)%Z -> (0 <= count src)%Z ->
  (count dst + count src <= INT32_MAX)%Z ->
  count (comb dst src) = (count dst + count src)%Z
  /\ shape_ok (comb dst src) /\ rows_sum_to_count (comb dst src).
Proof.
  intros Hd Hs He Hrd Hrs Hne Hcd Hcs Hfit.
  destruct (combine_sketches_header dst src) as (D1 & D2 & D3 & D4 & D5).
  assert (count (comb dst src) = (count dst + count src)%Z) as Hc.
  { rewrite combine_sketches_count. apply int32_small. unfold INT32_MAX in *. lia. }
  destruct (combine_sketches_row_count dst src Hd Hs He Hrd Hrs Hne Hcd Hcs)
    as (Hsh & Hn & Hrows); [unfold INT32_MAX in Hfit; lia|].
  split; [exact Hc|]. split; [exact Hsh|]. split; [exact Hn|].
  intros a i Ha Hi. rewrite D1 in Ha. rewrite D3 in Hi.
  rewrite Hrows, Hc by assumption. reflexivity.
Qed.

(** X14.  Count conservation is kept by [omnisketch_combine]: when every row of
    both sketches sums to the count of its sketch, no bucket of the second
    has a count without a sample, and the two counts together fit 32 bits,
    then the combined sketch counts both and every row of it sums to that
    count. *)
Theorem omnisketch_combine_conserves_counts (h : gmap positive omnisketch_t) p0 p1 dst src :
  h !! p0 = Some dst -> h !! p1 = Some src -> p0 <> p1 ->
  omnisketch_equals src dst = true ->
  shape_ok dst -> shape_ok src ->
  rows_sum_to_count dst -> rows_sum_to_count src ->
  Forall nonempty_if_counted (buckets src) ->
  (0 <= count dst)%Z -> (0 <= count src)%Z ->
  (count dst + count src <= INT32_MAX)%Z ->
  exists h' c,
    omnisketch_combine XXH32 true h (Some p0) (Some p1) = Ok (Some p0, h')
    /\ h' !! p0 = Some c
    /\ omnisketch_count c = (omnisketch_count dst + omnisketch_count src)%Z
    /\ shape_ok c /\ rows_sum_to_count c.
Proof.
  intros H0 H1 Hne He Hd Hs Hrd Hrs Hn Hcd Hcs Hfit.
  exists (<[p0 := comb dst src]> h), (comb dst src).
  split; [apply omnisketch_combine_both; assumption|].
  split; [apply lookup_insert_eq|].
  apply combine_sketches_rows; assumption.
Qed.

End Combine_counts.

(** ** Intersecting two samples *)

Lemma filter_ext_in {A} (P Q : A -> Prop) `{!forall x, Decision (P x)}
    `{!forall x, Decision (Q x)} (l : list A) :
  (forall x, x ∈ l -> (P x <-> Q x)) -> filter P l = filter Q l.
Proof.
  induction l as [|x l IH]; intros Hpq; [reflexivity|].
  rewrite !filter_cons.
  rewrite IH by (intros y Hy; apply Hpq; right; exact Hy).
  destruct (decide (P x)) as [Hp|Hp], (decide (Q x)) as [Hq|Hq]; try reflexivity.
  - exfalso. apply Hq, (Hpq x); [left | exact Hp].
  - exfalso. apply Hp, (Hpq x); [left | exact Hq].
Qed.

Lemma filter_elem_of_nil (l : list Z) : filter (fun x => x ∈ @nil Z) l = [].
Proof.
  induction l as [|x l IH]; [reflexivity|].
  rewrite filter_cons_False by (apply not_elem_of_nil). exact IH.
Qed.

Lemma drop_take_S (l : list Z) n i :
  i < n -> i < length l ->
  drop i (take n l) = l !!! i :: drop (S i) (take n l).
Proof.
  intros Hi Hl. apply drop_S.
  rewrite lookup_take_lt by exact Hi. apply list_lookup_lookup_total_lt, Hl.
Qed.

Lemma drop_take_insert_lt (l : list Z) n i k x :
  k < i -> drop i (take n (<[k := x]> l)) = drop i (take n l).
Proof.
  intros Hk. destruct (decide (k < n)) as [Hlt|Hge].
  - rewrite take_insert_lt by exact Hlt. apply drop_insert_lt. exact Hk.
  - rewrite take_insert_ge by lia. reflexivity.
Qed.

Section Intersect.

Variable XXH32 : Z -> Z -> Z.

Local Abbreviation H_s := (fun x => SKETCH_HASH XXH32 x SKETCH_SEED).
Local Abbreviation hash_lt := (hash_lt XXH32).

(** The loop never keeps more than is left of the first list. *)
Lemma intersect_loop_le fuel nitems n tmp :
  forall i j k its,
  let r := intersect_loop XXH32 fuel nitems n tmp i j k its in
  k <= r.1 /\ r.1 <= k + (nitems - i) /\ length r.2 = length its.
Proof.
  induction fuel as [|fuel IH]; intros i j k its; cbn [intersect_loop]; [cbn; lia|].
  destruct (Nat.ltb_spec i nitems) as [Hi|Hi]; cbn [andb]; [|cbn; lia].
  destruct (Nat.ltb_spec j n) as [Hj|Hj]; [|cbn; lia].
  destruct (Z.eqb _ _).
  - specialize (IH (S i) (S j) (S k) (<[k := its !!! i]> its)). cbv zeta in IH.
    rewrite length_insert in IH. cbv zeta. lia.
  - destruct (Z.ltb _ _).
    + specialize (IH (S i) j k its). cbv zeta in *. lia.
    + specialize (IH i (S j) k its). cbv zeta in *. lia.
Qed.

(** Whatever the order of the two lists, the loop keeps a subsequence of
    the first list, made of IDs that also occur in the second. *)
Lemma intersect_loop_sound fuel nitems n tmp :
  forall i j k its,
  k <= i -> nitems <= length its -> n <= length tmp ->
  let r := intersect_loop XXH32 fuel nitems n tmp i j k its in
  exists kept,
    take r.1 r.2 = take k its ++ kept
    /\ kept `sublist_of` drop i (take nitems its)
    /\ Forall (fun x => x ∈ take n tmp) kept.
Proof.
  induction fuel as [|fuel IH]; intros i j k its Hk Hn Hm; cbn [intersect_loop].
  { exists []. rewrite app_nil_r. split; [reflexivity|].
    split; [apply sublist_nil_l | constructor]. }
  destruct (Nat.ltb_spec i nitems) as [Hi|Hi]; cbn [andb];
    [|exists []; rewrite app_nil_r; split; [reflexivity|];
      split; [apply sublist_nil_l | constructor]].
  destruct (Nat.ltb_spec j n) as [Hj|Hj];
    [|exists []; rewrite app_nil_r; split; [reflexivity|];
      split; [apply sublist_nil_l | constructor]].
  rewrite (drop_take_S its nitems i) by lia.
  destruct (Z.eqb_spec (its !!! i) (tmp !!! j)) as [E|E].
  - destruct (IH (S i) (S j) (S k) (<[k := its !!! i]> its))
      as (kept & Ht & Hs & Hall); [lia | rewrite length_insert; lia | lia |].
    cbv zeta in *. exists (its !!! i :: kept).
    rewrite Ht. rewrite (take_S_r _ _ (its !!! i)) by (apply list_lookup_insert_eq; lia).
    rewrite take_insert_ge by lia. rewrite <- app_assoc. split; [reflexivity|].
    rewrite drop_take_insert_lt in Hs by lia.
    split; [apply sublist_skip, Hs|].
    constructor; [|exact Hall].
    rewrite E. apply elem_of_take. exists j. split; [|exact Hj].
    apply list_lookup_lookup_total_lt. lia.
  - destruct (Z.ltb _ _).
    + destruct (IH (S i) j k its) as (kept & Ht & Hs & Hall); [lia | lia | lia |].
      cbv zeta in *. exists kept. split; [exact Ht|].
      split; [apply sublist_cons, Hs | exact Hall].
    + destruct (IH i (S j) k its) as (kept & Ht & Hs & Hall); [lia | lia | lia |].
      cbv zeta in *. exists kept. split; [exact Ht|].
      rewrite (drop_take_S its nitems i) in Hs by lia.
      split; [exact Hs | exact Hall].
Qed.

(** On two lists in strictly increasing hash order, the loop keeps exactly
    the IDs of the first list that occur in the second. *)
Lemma intersect_loop_exact fuel nitems n tmp :
  forall i j k its,
  k <= i -> i <= nitems -> nitems <= length its -> j <= n -> n <= length tmp ->
  (nitems - i) + (n - j) <= fuel ->
  StronglySorted hash_lt (drop i (take nitems its)) ->
  StronglySorted hash_lt (drop j (take n tmp)) ->
  let r := intersect_loop XXH32 fuel nitems n tmp i j k its in
  take r.1 r.2
  = take k its ++ filter (fun x => x ∈ drop j (take n tmp)) (drop i (take nitems its)).
Proof.
  induction fuel as [|fuel IH]; intros i j k its Hk Hi Hn Hj Hm Hfuel Hxs Hys;
    cbn [intersect_loop].
  { rewrite (drop_ge (take nitems its)) by (rewrite length_take; lia).
    rewrite filter_nil, app_nil_r. reflexivity. }
  destruct (Nat.ltb_spec i nitems) as [Hi'|Hi']; cbn [andb].
  2: { rewrite (drop_ge (take nitems its)) by (rewrite length_take; lia).
       rewrite filter_nil, app_nil_r. reflexivity. }
  destruct (Nat.ltb_spec j n) as [Hj'|Hj'].
  2: { rewrite (drop_ge (take n tmp)) by (rewrite length_take; lia).
       rewrite filter_elem_of_nil, app_nil_r. reflexivity. }
  rewrite (drop_take_S its nitems i) in Hxs |- * by lia.
  rewrite (drop_take_S tmp n j) in Hys |- * by lia.
  apply StronglySorted_inv in Hxs as [Hxs Hx].
  apply StronglySorted_inv in Hys as [Hys Hy].
  set (x := its !!! i) in *. set (y := tmp !!! j) in *.
  set (xs := drop (S i) (take nitems its)) in *.
  set (ys := drop (S j) (take n tmp)) in *.
  destruct (Z.eqb_spec x y) as [E|E].
  - cbv zeta. rewrite IH; try lia.
    + rewrite drop_take_insert_lt by lia. fold xs ys.
      rewrite (take_S_r _ _ x) by (apply list_lookup_insert_eq; lia).
      rewrite take_insert_ge by lia. rewrite <- app_assoc. f_equal.
      rewrite filter_cons_True by (rewrite E; left).
      cbn [app]. f_equal. apply filter_ext_in. intros z Hz.
      split; [intros Hin; right; exact Hin|].
      intros Hin. apply elem_of_cons in Hin as [->|Hin]; [|exact Hin].
      exfalso. pose proof (proj1 (Forall_forall _ _) Hx y Hz) as Hlt.
      unfold hash_lt in Hlt. rewrite E in Hlt. lia.
    + rewrite length_insert. lia.
    + rewrite drop_take_insert_lt by lia. exact Hxs.
    + exact Hys.
  - destruct (Z.ltb_spec (H_s x) (H_s y)) as [Hlt|Hge]; cbv zeta.
    + rewrite IH; try lia; try assumption.
      2: { rewrite (drop_take_S tmp n j) by lia. constructor; assumption. }
      rewrite (drop_take_S tmp n j) by lia. fold xs ys y. f_equal.
      rewrite filter_cons_False; [reflexivity|].
      intros Hin. apply elem_of_cons in Hin as [Hin|Hin]; [contradiction|].
      pose proof (proj1 (Forall_forall _ _) Hy x Hin) as Hl. unfold hash_lt in Hl. lia.
    + rewrite IH; try lia; try assumption.
      2: { rewrite (drop_take_S its nitems i) by lia. constructor; assumption. }
      rewrite (drop_take_S its nitems i) by lia. fold xs ys x. f_equal.
      apply filter_ext_in. intros z Hz.
      split; [intros Hin; right; exact Hin|].
      intros Hin. apply elem_of_cons in Hin as [->|Hin]; [|exact Hin].
      exfalso. apply elem_of_cons in Hz as [Hz|Hz]; [congruence|].
      pose proof (proj1 (Forall_forall _ _) Hx y Hz) as Hl. unfold hash_lt in Hl. lia.
Qed.

(** X15.  [intersect_items] never invents an ID and never grows the list: the
    kept IDs are a subsequence of the list it was given, every one of them
    occurs in the sample it was intersected with, and the array keeps its
    length.  With an empty sample nothing is kept. *)
Theorem intersect_items_keeps_common_ids il n tmp :
  nitems il <= length (items il) -> n <= length tmp ->
  let r := intersect_items XXH32 il n tmp in
  nitems r <= nitems il
  /\ length (items r) = length (items il)
  /\ take (nitems r) (items r) `sublist_of` take (nitems il) (items il)
  /\ Forall (fun x => x ∈ take n tmp) (take (nitems r) (items r))
  /\ (n = 0 -> nitems r = 0).
Proof.
  intros Hn Hm r. unfold r, intersect_items.
  pose proof (intersect_loop_le (nitems il + n) (nitems il) n tmp 0 0 0 (items il))
    as (_ & Hle & Hlen).
  destruct (intersect_loop_sound (nitems il + n) (nitems il) n tmp 0 0 0 (items il))
    as (kept & Ht & Hs & Hall); [lia | exact Hn | exact Hm |].
  cbv zeta in *.
  destruct (intersect_loop XXH32 _ _ _ _ _ _ _ _) as [k its] eqn:E.
  cbn [fst snd nitems items] in *.
  split; [lia|]. split; [exact Hlen|].
  rewrite Ht. cbn [take app]. split; [exact Hs|]. split; [exact Hall|].
  intros ->. clear - E. destruct (nitems il + 0) as [|f]; cbn [intersect_loop] in E.
  - injection E as <- _. reflexivity.
  - rewrite andb_false_r in E. injection E as <- _. reflexivity.
Qed.

(** X16.  On two samples in strictly increasing hash order, as finalize
    leaves them when no two of their IDs share a hash, [intersect_items] keeps
    exactly the IDs of the list that occur in the sample. *)
Theorem intersect_items_exact_on_sorted il n tmp :
  nitems il <= length (items il) -> n <= length tmp ->
  StronglySorted hash_lt (take (nitems il) (items il)) ->
  StronglySorted hash_lt (take n tmp) ->
  let r := intersect_items XXH32 il n tmp in
  take (nitems r) (items r)
  = filter (fun x => x ∈ take n tmp) (take (nitems il) (items il)).
Proof.
  intros Hn Hm Hxs Hys r. unfold r, intersect_items.
  pose proof (intersect_loop_exact (nitems il + n) (nitems il) n tmp 0 0 0 (items il)
                ltac:(lia) ltac:(lia) Hn ltac:(lia) Hm ltac:(lia) Hxs Hys) as Hex.
  cbv zeta in Hex.
  destruct (intersect_loop XXH32 _ _ _ _ _ _ _ _) as [k its].
  exact Hex.
Qed.

End Intersect.

(** ** The estimate *)

Lemma fold_left_absorbing {S X} (Zp : S -> Prop) (f : S -> X -> S) (l : list X) x0 s :
  (forall s x, Zp s -> Zp (f s x)) -> x0 ∈ l -> (forall s, Zp (f s x0)) ->
  Zp (fold_left f l s).
Proof.
  intros Habs Hin Htrig. revert s. induction l as [|x l IH]; intros s.
  - apply elem_of_nil in Hin. contradiction.
  - cbn [fold_left]. apply elem_of_cons in Hin as [<-|Hin].
    + apply fold_left_inv; [exact Habs | apply Htrig].
    + apply IH, Hin.
Qed.

Section Estimate.

Variable XXH32 : Z -> Z -> Z.

Lemma intersect_items_nitems il n tmp :
  nitems (intersect_items XXH32 il n tmp) <= nitems il
  /\ (n = 0 -> nitems (intersect_items XXH32 il n tmp) = 0).
Proof.
  unfold intersect_items.
  pose proof (intersect_loop_le XXH32 (nitems il + n) (nitems il) n tmp 0 0 0 (items il))
    as (_ & Hle & _). cbv zeta in Hle.
  destruct (intersect_loop XXH32 _ _ _ _ _ _ _ _) as [k its] eqn:E.
  cbn [fst nitems] in *. split; [lia|].
  intros ->. destruct (nitems il + 0) as [|f]; cbn [intersect_loop] in E.
  - injection E as <- _. reflexivity.
  - rewrite andb_false_r in E. injection E as <- _. reflexivity.
Qed.

Lemma estimate_attribute_hash s st c att :
  att <> Dropped ->
  estimate_attribute XXH32 s st (c, att)
  = omnisketch_column_estimate XXH32 s c (element_hash att) st.
Proof. intros Hatt. destruct att; [contradiction | reflexivity | reflexivity]. Qed.

(** Steps of the two loops keep a property of the running state that every
    visited cell keeps. *)
Lemma estimate_loops_inv (P : Z * option item_list_t -> Prop) s (l : list (nat * attribute)) st :
  (forall st c hash i, P st -> P (column_estimate_row XXH32 s c hash st i)) ->
  P st -> P (fold_left (estimate_attribute XXH32 s) l st).
Proof.
  intros Hrow. apply fold_left_inv. intros st' [c att] Hst.
  unfold estimate_attribute. cbn [fst snd].
  destruct att; [exact Hst| |]; unfold omnisketch_column_estimate;
    (apply fold_left_inv; [|exact Hst]); intros; apply Hrow; assumption.
Qed.



Lemma bounds_lookup_total (l : list bucket_t) B M i :
  (0 <= M)%Z ->
  Forall (fun b => sampleCount b <= B /\ (0 <= totalCount b <= M)%Z) l ->
  sampleCount (l !!! i) <= B /\ (0 <= totalCount (l !!! i) <= M)%Z.
Proof.
  intros HM Hall. destruct (l !! i) as [b|] eqn:E.
  - rewrite (list_lookup_total_correct _ _ _ E). exact (Forall_lookup_1 _ _ _ _ Hall E).
  - rewrite list_lookup_total_alt, E. cbn. lia.
Qed.

(** X18.  The estimate is never negative and never exceeds the largest total
    count of a bucket: in a sketch whose samples hold at most [sampleSize]
    IDs and whose bucket counts lie between 0 and [M], every number
    [omnisketch_estimate] returns lies between 0 and [M]. *)
Theorem omnisketch_estimate_is_bounded s record v M :
  1 <= sampleSize s -> (0 <= M)%Z ->
  Forall (fun b => sampleCount b <= sampleSize s /\ (0 <= totalCount b <= M)%Z) (buckets s) ->
  omnisketch_estimate XXH32 (Some s) record = Ok (Some v) ->
  (0 <= v <= M)%Z.
Proof.
  intros HB HM Hall. unfold omnisketch_estimate.
  destruct (negb _); [discriminate|].
  set (P := fun st : Z * option item_list_t =>
              (0 <= st.1 <= M)%Z
              /\ forall il, st.2 = Some il -> nitems il <= sampleSize s).
  assert (P (fold_left (estimate_attribute XXH32 s)
               (zip (seq 0 (length record)) record) (0%Z, None))) as [Hcnt Hil].
  { apply estimate_loops_inv; [|split; [cbn; lia | discriminate]].
    intros st c hash i [Hc Hn]. unfold column_estimate_row.
    pose proof (bounds_lookup_total (buckets s) (sampleSize s) M
                  (SKETCH_BUCKET_INDEX s c i
                     (Z.to_nat (SKETCH_HASH XXH32 hash (Z.of_nat i)
                                mod Z.of_nat (sketchWidth s)))) HM Hall) as [Hs Ht].
    fold (SKETCH_BUCKET s c i
            (Z.to_nat (SKETCH_HASH XXH32 hash (Z.of_nat i) mod Z.of_nat (sketchWidth s))))
      in Hs, Ht.
    destruct st.2 as [il|] eqn:E; split; cbn [fst snd].
    - destruct (Z.ltb_spec st.1 (totalCount (SKETCH_BUCKET s c i
            (Z.to_nat (SKETCH_HASH XXH32 hash (Z.of_nat i) mod Z.of_nat (sketchWidth s))))));
        lia.
    - intros il' [= <-].
      pose proof (proj1 (intersect_items_nitems il
                    (sampleCount (SKETCH_BUCKET s c i
                       (Z.to_nat (SKETCH_HASH XXH32 hash (Z.of_nat i)
                                  mod Z.of_nat (sketchWidth s)))))
                    (SKETCH_SAMPLE s c i
                       (Z.to_nat (SKETCH_HASH XXH32 hash (Z.of_nat i)
                                  mod Z.of_nat (sketchWidth s)))))) as Hle.
      specialize (Hn il eq_refl). lia.
    - destruct (Z.ltb_spec st.1 (totalCount (SKETCH_BUCKET s c i
            (Z.to_nat (SKETCH_HASH XXH32 hash (Z.of_nat i) mod Z.of_nat (sketchWidth s))))));
        lia.
    - intros il' [= <-]. cbn [nitems]. exact Hs. }
  destruct (fold_left _ _ _) as [maxcnt [il|]]; cbn [fst snd] in *; [|discriminate].
  intros [= <-]. specialize (Hil il eq_refl).
  rewrite Z.quot_div_nonneg by lia.
  pose proof (Z.div_pos maxcnt (Z.of_nat (sampleSize s)) ltac:(lia) ltac:(lia)) as Hq.
  pose proof (Z.mul_div_le maxcnt (Z.of_nat (sampleSize s)) ltac:(lia)) as Hm.
  nia.
Qed.

(** X19.  When the value of some attribute of the record maps to an empty
    bucket in some row, the estimate of the record is 0. *)
Theorem omnisketch_estimate_zero_on_empty_bucket s record c att i :
  shape_ok s -> 0 < sketchWidth s -> 1 <= sampleSize s ->
  numSketches s = length record ->
  record !! c = Some att -> att <> Dropped -> i < sketchHeight s ->
  sampleCount (SKETCH_BUCKET s c i (bucket_column XXH32 s (element_hash att) i)) = 0 ->
  omnisketch_estimate XXH32 (Some s) record = Ok (Some 0%Z).
Proof.
  intros _ _ _ Heq Hc Hatt Hi Hempty. unfold bucket_column in Hempty.
  unfold omnisketch_estimate.
  rewrite Heq, Nat.eqb_refl. cbn [negb].
  set (Zp := fun st : Z * option item_list_t =>
               exists il, st.2 = Some il /\ nitems il = 0).
  assert (forall st c hash i, Zp st -> Zp (column_estimate_row XXH32 s c hash st i)) as Hrow.
  { intros st c' hash i' (il & E & H0). unfold column_estimate_row. rewrite E.
    eexists. split; [reflexivity|].
    pose proof (proj1 (intersect_items_nitems il
                  (sampleCount (SKETCH_BUCKET s c' i'
                     (Z.to_nat (SKETCH_HASH XXH32 hash (Z.of_nat i')
                                mod Z.of_nat (sketchWidth s)))))
                  (SKETCH_SAMPLE s c' i'
                     (Z.to_nat (SKETCH_HASH XXH32 hash (Z.of_nat i')
                                mod Z.of_nat (sketchWidth s)))))) as Hle.
    lia. }
  assert (Zp (fold_left (estimate_attribute XXH32 s)
                (zip (seq 0 (length record)) record) (0%Z, None))) as (il & E & H0).
  { apply (fold_left_absorbing Zp _ _ (c, att)).
    - intros st [c' att'] Hst. revert Hst.
      apply (estimate_loops_inv Zp s [(c', att')]). exact Hrow.
    - apply list_elem_of_lookup. exists c.
      apply lookup_zip_with_Some. exists c, att. split; [reflexivity|].
      split; [|exact Hc]. apply lookup_seq. split; [reflexivity|].
      eapply lookup_lt_Some, Hc.
    - intros st. rewrite estimate_attribute_hash by exact Hatt.
      unfold omnisketch_column_estimate.
      apply (fold_left_absorbing Zp _ _ i).
      + intros; apply Hrow; assumption.
      + apply elem_of_seq. lia.
      + intros st'. unfold column_estimate_row. rewrite Hempty.
        destruct st'.2 as [il|]; eexists; (split; [reflexivity|]).
        * apply intersect_items_nitems. reflexivity.
        * reflexivity. }
  rewrite E, H0. rewrite Z.mul_0_r. reflexivity.
Qed.

End Estimate.

Section Add_cells.

Variable XXH32 : Z -> Z -> Z.

(** ** What [omnisketch_add] writes *)

Local Abbreviation cell_index := (cell_index XXH32).
Local Abbreviation bump := (count_and_offer XXH32).

Lemma omnisketch_sample_add_ext sk sk' b smp it :
  sampleSize sk = sampleSize sk' ->
  omnisketch_sample_add XXH32 sk b smp it = omnisketch_sample_add XXH32 sk' b smp it.
Proof. intros E. unfold omnisketch_sample_add. rewrite E. reflexivity. Qed.

Lemma same_dims_index s s' c hash i :
  sketchWidth s' = sketchWidth s -> sketchHeight s' = sketchHeight s ->
  cell_index s' c hash i = cell_index s c hash i.
Proof.
  intros D2 D3. unfold cell_index, bucket_column, SKETCH_BUCKET_INDEX, SKETCH_SIZE.
  rewrite D2, D3. reflexivity.
Qed.

Lemma same_header_index s s' c hash i :
  same_header s s' -> cell_index s' c hash i = cell_index s c hash i.
Proof. intros (_ & _ & D2 & D3 & _). apply same_dims_index; assumption. Qed.

Lemma add_hash_row_cells column hash it s i :
  shape_ok s ->
  cells (add_hash_row XXH32 column hash it s i)
  = <[cell_index s column hash i := bump s it (cells s !!! cell_index s column hash i)]>
      (cells s).
Proof.
  intros Hsh. unfold add_hash_row, cell_index, bucket_column, count_and_offer.
  rewrite cells_lookup_total by apply Hsh. cbn [fst snd].
  unfold SKETCH_BUCKET, SKETCH_SAMPLE.
  destruct (omnisketch_sample_add _ _ _ _ _) as [b' smp']. apply cells_set_cell.
Qed.

Lemma cell_index_lt s c hash i :
  shape_ok s -> 0 < sketchWidth s -> c < numSketches s -> i < sketchHeight s ->
  cell_index s c hash i < length (cells s).
Proof.
  intros Hsh Hw Hc Hi. rewrite cells_length by apply Hsh. rewrite (proj1 Hsh).
  unfold cell_index, bucket_column.
  apply SKETCH_BUCKET_INDEX_lt; [exact Hc | exact Hi | apply bucket_column_lt, Hw].
Qed.

Lemma cell_index_inj s c hash i c' hash' i' :
  0 < sketchWidth s -> i < sketchHeight s -> i' < sketchHeight s ->
  cell_index s c hash i = cell_index s c' hash' i' -> c = c' /\ i = i'.
Proof.
  intros Hw Hi Hi' E. unfold cell_index, bucket_column in E.
  apply SKETCH_BUCKET_INDEX_eq in E as (-> & -> & _);
    [split; reflexivity | exact Hi | apply bucket_column_lt, Hw
     | exact Hi' | apply bucket_column_lt, Hw].
Qed.

(** One value in one matrix: every row gets the ID in the cell of the
    value, and no other cell changes. *)
Lemma omnisketch_add_hash_cells s column hash it :
  shape_ok s -> 0 < sketchWidth s -> column < numSketches s ->
  let s' := omnisketch_add_hash XXH32 s column hash it in
  same_header s s' /\ shape_ok s'
  /\ (forall i, i < sketchHeight s ->
        cells s' !!! cell_index s column hash i
        = bump s it (cells s !!! cell_index s column hash i))
  /\ (forall idx, (forall i, i < sketchHeight s -> idx <> cell_index s column hash i) ->
        cells s' !!! idx = cells s !!! idx).
Proof.
  intros Hsh Hw Hc. cbv zeta. unfold omnisketch_add_hash.
  set (P := fun (k : nat) s' =>
              same_header s s' /\ shape_ok s'
              /\ (forall i, i < k -> i < sketchHeight s ->
                    cells s' !!! cell_index s column hash i
                    = bump s it (cells s !!! cell_index s column hash i))
              /\ (forall idx, (forall i, i < k -> i < sketchHeight s ->
                                 idx <> cell_index s column hash i) ->
                    cells s' !!! idx = cells s !!! idx)).
  assert (P (sketchHeight s)
            (fold_left (add_hash_row XXH32 column hash it) (seq 0 (sketchHeight s)) s))
    as (Hh & Hsh' & Hin & Hout).
  { apply (fold_left_seq_inv P); unfold P.
    - split; [apply same_header_refl|]. split; [exact Hsh|].
      split; [intros; lia | reflexivity].
    - intros k s1 Hk (Hh & Hsh1 & Hin & Hout).
      split; [apply add_hash_row_header, Hh|].
      assert (shape_ok (add_hash_row XXH32 column hash it s1 k)) as Hsh2.
      { unfold add_hash_row. destruct (omnisketch_sample_add _ _ _ _ _).
        apply shape_ok_set_cell, Hsh1. }
      split; [exact Hsh2|].
      rewrite (add_hash_row_cells column hash it s1 k Hsh1).
      rewrite (same_header_index s s1 column hash k Hh).
      assert (cell_index s column hash k < length (cells s1)) as Hlt.
      { rewrite <- (same_header_index s s1 column hash k Hh).
        destruct (same_header_dims _ _ Hh) as (D1 & D2 & D3).
        apply cell_index_lt; [exact Hsh1 | lia | lia | lia]. }
      assert (bump s1 it (cells s1 !!! cell_index s column hash k)
              = bump s it (cells s !!! cell_index s column hash k)) as Hb.
      { rewrite Hout.
        - unfold count_and_offer; apply omnisketch_sample_add_ext. apply Hh.
        - intros i Hi Hi' E. apply cell_index_inj in E as [_ E]; [lia | lia | lia | lia]. }
      split.
      + intros i Hi Hi'. destruct (decide (i = k)) as [->|Hne].
        * rewrite list_lookup_total_insert_eq by exact Hlt. exact Hb.
        * rewrite list_lookup_total_insert_ne.
          -- apply Hin; lia.
          -- intros E. apply cell_index_inj in E as [_ E]; [lia | lia | lia | lia].
      + intros idx Hidx. rewrite list_lookup_total_insert_ne.
        * apply Hout. intros i Hi Hi'. apply Hidx; lia.
        * intros E. apply (Hidx k); [lia | lia | symmetry; exact E]. }
  split; [exact Hh|]. split; [exact Hsh'|]. split.
  - intros i Hi. apply Hin; lia.
  - intros idx Hidx. apply Hout. intros i _ Hi. apply Hidx, Hi.
Qed.

(** X20.  [omnisketch_add] changes exactly the cells of the record: for every
    attribute that is not dropped and every row, the cell the value maps to
    counts one more record and is offered the ID of the record, which is
    the hash of the new count under the seed of the sketch; every other
    cell is as it was. *)
Theorem omnisketch_add_writes_the_cells_of_the_record s sz prng record s' :
  shape_ok s -> 0 < sketchWidth s ->
  omnisketch_add XXH32 (Some s) sz prng record = Ok s' ->
  let id := uint32 (XXH32 (uint32 (int32 (count s + 1))) (seed s)) in
  (forall c att i, record !! c = Some att -> att <> Dropped -> i < sketchHeight s ->
     cells s' !!! cell_index s c (element_hash att) i
     = bump s id (cells s !!! cell_index s c (element_hash att) i))
  /\ (forall idx,
        (forall c att i, record !! c = Some att -> att <> Dropped -> i < sketchHeight s ->
           idx <> cell_index s c (element_hash att) i) ->
        cells s' !!! idx = cells s !!! idx).
Proof.
  intros Hsh Hw. unfold omnisketch_add.
  destruct (Nat.eqb_spec (numSketches s) (length record)) as [Hlen|]; [|discriminate].
  cbn [negb]. cbv zeta. intros [= <-].
  set (id := uint32 (XXH32 (uint32 (int32 (count s + 1))) (seed s))).
  set (s1 := set_count s (int32 (count s + 1))).
  set (P := fun (k : nat) s' =>
              same_header s1 s' /\ shape_ok s'
              /\ (forall c att i, c < k -> record !! c = Some att -> att <> Dropped ->
                    i < sketchHeight s ->
                    cells s' !!! cell_index s c (element_hash att) i
                    = bump s id (cells s !!! cell_index s c (element_hash att) i))
              /\ (forall idx,
                    (forall c att i, c < k -> record !! c = Some att -> att <> Dropped ->
                       i < sketchHeight s ->
                       idx <> cell_index s c (element_hash att) i) ->
                    cells s' !!! idx = cells s !!! idx)).
  assert (P (length record)
            (fold_left (add_attribute XXH32 id) (zip (seq 0 (length record)) record) s1))
    as (_ & _ & Hin & Hout).
  { apply (fold_left_zip_seq_inv P); unfold P.
    - split; [apply same_header_refl|]. split; [exact Hsh|].
      split; [intros; lia | reflexivity].
    - intros k att s2 Hk (Hh & Hsh2 & Hin & Hout).
      assert (k < numSketches s) as Hkn by (rewrite Hlen; eapply lookup_lt_Some, Hk).
      destruct (same_header_dims _ _ Hh) as (D1 & D2 & D3).
      change (numSketches s1) with (numSketches s) in D1.
      change (sketchWidth s1) with (sketchWidth s) in D2.
      change (sketchHeight s1) with (sketchHeight s) in D3.
      assert (sampleSize s2 = sampleSize s) as DB by apply Hh.
      assert (att = Dropped \/ att <> Dropped) as [->|Hatt]
        by (destruct att; [left; reflexivity | right; discriminate | right; discriminate]).
      + (* a dropped attribute is skipped *)
        unfold add_attribute. cbn [fst snd].
        split; [exact Hh|]. split; [exact Hsh2|]. split.
        * intros c att i Hc Hrc Hnd Hi.
          destruct (decide (c = k)) as [->|Hne]; [congruence|].
          apply Hin; (lia || assumption).
        * intros idx Hidx. apply Hout. intros c att i Hc. apply Hidx. lia.
      + replace (add_attribute XXH32 id s2 (k, att))
          with (omnisketch_add_hash XXH32 s2 k (element_hash att) id)
          by (destruct att; [contradiction | reflexivity | reflexivity]).
        destruct (omnisketch_add_hash_cells s2 k (element_hash att) id Hsh2)
          as (Hh3 & Hsh3 & Hin3 & Hout3); [lia | lia |].
        assert (forall i, cell_index s2 k (element_hash att) i
                          = cell_index s k (element_hash att) i) as Hidx2
          by (intros i; apply same_dims_index; assumption).
        split.
        { destruct Hh as (?&?&?&?&?&?&?&?), Hh3 as (?&?&?&?&?&?&?&?).
          repeat split; congruence. }
        split; [exact Hsh3|]. split.
        * intros c att' i Hc Hrc Hnd Hi.
          destruct (decide (c = k)) as [->|Hne].
          -- assert (att' = att) as -> by congruence.
             rewrite <- Hidx2, Hin3 by lia. rewrite Hidx2.
             rewrite Hout.
             ++ unfold count_and_offer; apply omnisketch_sample_add_ext. exact DB.
             ++ intros c att' i' Hc' _ _ Hi' E.
                apply cell_index_inj in E as [E _]; [lia | lia | lia | lia].
          -- rewrite Hout3.
             ++ apply Hin; (lia || assumption).
             ++ intros i' Hi' E. rewrite Hidx2 in E.
                apply cell_index_inj in E as [E _]; [lia | lia | lia | lia].
        * intros idx Hidx. rewrite Hout3.
          -- apply Hout. intros c att' i Hc. apply Hidx. lia.
          -- intros i Hi. rewrite Hidx2. apply (Hidx k att i); [lia | exact Hk | exact Hatt | lia]. }
  split.
  - intros c att i Hc Hnd Hi.
    apply Hin; [eapply lookup_lt_Some, Hc | exact Hc | exact Hnd | exact Hi].
  - intros idx Hidx. apply Hout. intros c att i _. apply Hidx.
Qed.

End Add_cells.

(** ** The value of the estimate *)

Lemma StronglySorted_filter {A} (R : relation A) (P : A -> Prop)
    `{!forall x, Decision (P x)} (l : list A) :
  StronglySorted R l -> StronglySorted R (filter P l).
Proof.
  induction 1 as [|x l Hs IH Hx]; [constructor|].
  rewrite filter_cons. destruct (decide (P x)); [|exact IH].
  constructor; [exact IH|].
  apply Forall_forall. intros y Hy. apply list_elem_of_filter in Hy as [_ Hy].
  exact (proj1 (Forall_forall _ _) Hx y Hy).
Qed.

Section Estimate_value.

Variable XXH32 : Z -> Z -> Z.

Local Abbreviation hash_lt := (hash_lt XXH32).
Local Abbreviation estimate_step := (estimate_step XXH32).
Local Abbreviation cell_of := (fun (s : omnisketch_t) (c : nat) (hash : Z) (r : nat) =>
  (SKETCH_BUCKET s c r (bucket_column XXH32 s hash r),
   SKETCH_SAMPLE s c r (bucket_column XXH32 s hash r))).

Lemma intersect_items_length il n tmp :
  nitems il <= length (items il) ->
  nitems (intersect_items XXH32 il n tmp) <= length (items (intersect_items XXH32 il n tmp)).
Proof.
  intros Hn. unfold intersect_items.
  pose proof (intersect_loop_le XXH32 (nitems il + n) (nitems il) n tmp 0 0 0 (items il))
    as (_ & Hle & Hlen). cbv zeta in Hle, Hlen.
  destruct (intersect_loop XXH32 _ _ _ _ _ _ _ _) as [k its].
  cbn [fst snd nitems items] in *. lia.
Qed.

(** The row loop, as a fold over the cells it visits. *)
Lemma column_estimate_rows s c hash (rows : list nat) st :
  fold_left (column_estimate_row XXH32 s c hash) rows st
  = fold_left estimate_step (rows ≫= fun r => [cell_of s c hash r]) st.
Proof.
  revert st. induction rows as [|r rows IH]; intros st; [reflexivity|].
  rewrite bind_cons. cbn [app fold_left]. rewrite IH. reflexivity.
Qed.

(** The attribute loop, as a fold over the cells it visits. *)
Lemma estimate_attributes s (l : list (nat * attribute)) st :
  Forall (fun ca => ca.2 <> Dropped) l ->
  fold_left (estimate_attribute XXH32 s) l st
  = fold_left estimate_step
      (l ≫= fun ca => seq 0 (sketchHeight s) ≫= fun r =>
                        [cell_of s ca.1 (element_hash ca.2) r]) st.
Proof.
  intros Hall. revert st. induction Hall as [|[c att] l Hatt Hall IH]; intros st;
    [reflexivity|].
  rewrite bind_cons, fold_left_app. cbn [fold_left fst snd] in *.
  rewrite IH. f_equal.
  rewrite estimate_attribute_hash by exact Hatt.
  apply column_estimate_rows.
Qed.

Lemma visited_cells_zip s (f : attribute -> Z) (record : list attribute) a :
  zip (seq a (length (f <$> record))) (f <$> record)
    ≫= (fun c => seq 0 (sketchHeight s) ≫= fun r => [cell_of s c.1 c.2 r])
  = zip (seq a (length record)) record
    ≫= (fun ca => seq 0 (sketchHeight s) ≫= fun r => [cell_of s ca.1 (f ca.2) r]).
Proof.
  revert a. induction record as [|att record IH]; intros a; [reflexivity|].
  cbn [fmap list_fmap length seq zip_with]. rewrite !bind_cons.
  cbn [fst snd]. f_equal. apply IH.
Qed.

Lemma estimate_step_max (cells : list (bucket_t * list Z)) m o :
  (fold_left estimate_step cells (m, o)).1
  = Z.max m (foldr (fun cell m' => Z.max (totalCount cell.1) m') m cells).
Proof.
  revert m o. induction cells as [|c cells IH]; intros m o; cbn [fold_left foldr fst].
  - lia.
  - unfold estimate_step at 2. cbn [fst snd].
    assert ((if (m <? totalCount c.1)%Z then totalCount c.1 else m)
            = Z.max m (totalCount c.1)) as -> by (destruct (Z.ltb_spec m (totalCount c.1)); lia).
    assert (forall m1 m2, (m1 <= m2)%Z ->
              (foldr (fun cell m' => Z.max (totalCount cell.1) m') m1 cells
               <= foldr (fun cell m' => Z.max (totalCount cell.1) m') m2 cells)%Z) as Hmono.
    { clear. intros m1 m2 H. induction cells as [|c cells IH]; cbn [foldr]; lia. }
    assert (forall m1, (m1 <= foldr (fun cell m' => Z.max (totalCount cell.1) m') m1 cells)%Z)
      as Hge.
    { clear. intros m1. induction cells as [|c cells IH]; cbn [foldr]; lia. }
    destruct o as [il|]; rewrite IH.
    + pose proof (Hmono m (Z.max m (totalCount c.1)) ltac:(lia)).
      pose proof (Hge (Z.max m (totalCount c.1))). pose proof (Hge m).
      assert (foldr (fun cell m' => Z.max (totalCount cell.1) m') (Z.max m (totalCount c.1)) cells
              <= Z.max (totalCount c.1) (foldr (fun cell m' => Z.max (totalCount cell.1) m') m cells))%Z.
      { clear. induction cells as [|c' cells IH]; cbn [foldr]; lia. }
      lia.
    + pose proof (Hmono m (Z.max m (totalCount c.1)) ltac:(lia)).
      pose proof (Hge (Z.max m (totalCount c.1))). pose proof (Hge m).
      assert (foldr (fun cell m' => Z.max (totalCount cell.1) m') (Z.max m (totalCount c.1)) cells
              <= Z.max (totalCount c.1) (foldr (fun cell m' => Z.max (totalCount cell.1) m') m cells))%Z.
      { clear. induction cells as [|c' cells IH]; cbn [foldr]; lia. }
      lia.
Qed.

Lemma spec_max_count_nonneg cells : (0 <= spec_max_count cells)%Z.
Proof. unfold spec_max_count. induction cells as [|c cells IH]; cbn [foldr]; lia. Qed.

Lemma estimate_step_items (later : list (bucket_t * list Z)) m il :
  nitems il <= length (items il) ->
  StronglySorted hash_lt (take (nitems il) (items il)) ->
  Forall (fun c => sampleCount c.1 <= length c.2
                   /\ StronglySorted hash_lt (stored_ids c)) later ->
  exists il',
    (fold_left estimate_step later (m, Some il)).2 = Some il'
    /\ nitems il' <= length (items il')
    /\ take (nitems il') (items il')
       = fold_left (fun cand cell => filter (fun id => bool_decide (id ∈ stored_ids cell)) cand)
           later (take (nitems il) (items il)).
Proof.
  intros Hn Hs Hall. revert m il Hn Hs.
  induction Hall as [|c later [Hc Hcs] Hall IH]; intros m il Hn Hs.
  - exists il. split; [reflexivity|]. split; [exact Hn | reflexivity].
  - cbn [fold_left]. unfold estimate_step at 2. cbn [fst snd].
    destruct (IH (if (m <? totalCount c.1)%Z then totalCount c.1 else m)
                 (intersect_items XXH32 il (sampleCount c.1) c.2)) as (il' & E & Hn' & Ht).
    + apply intersect_items_length, Hn.
    + unfold intersect_items.
      pose proof (intersect_loop_exact XXH32 (nitems il + sampleCount c.1) (nitems il)
                    (sampleCount c.1) c.2 0 0 0 (items il)
                    ltac:(lia) ltac:(lia) Hn ltac:(lia) Hc ltac:(lia) Hs Hcs) as Hex.
      cbv zeta in Hex.
      destruct (intersect_loop XXH32 _ _ _ _ _ _ _ _) as [k its].
      cbn [fst snd nitems items app take drop] in *. rewrite Hex.
      apply StronglySorted_filter, Hs.
    + exists il'. split; [exact E|]. split; [exact Hn'|]. rewrite Ht. f_equal.
      unfold intersect_items.
      pose proof (intersect_loop_exact XXH32 (nitems il + sampleCount c.1) (nitems il)
                    (sampleCount c.1) c.2 0 0 0 (items il)
                    ltac:(lia) ltac:(lia) Hn ltac:(lia) Hc ltac:(lia) Hs Hcs) as Hex.
      cbv zeta in Hex.
      destruct (intersect_loop XXH32 _ _ _ _ _ _ _ _) as [k its].
      cbn [fst snd nitems items app take drop] in *. rewrite Hex.
      apply filter_ext_in. intros x _. unfold stored_ids.
      symmetry. apply bool_decide_spec.
Qed.

Lemma estimate_fold (cells : list (bucket_t * list Z)) :
  cells <> [] ->
  Forall (fun c => sampleCount c.1 <= length c.2
                   /\ StronglySorted hash_lt (stored_ids c)) cells ->
  exists il,
    fold_left estimate_step cells (0%Z, None) = (spec_max_count cells, Some il)
    /\ nitems il = length (spec_candidates cells).
Proof.
  intros Hne Hall. destruct cells as [|first later]; [contradiction|].
  apply Forall_cons in Hall as [[Hf Hfs] Hall].
  pose proof (estimate_step_max (first :: later) 0 None) as Hmax.
  cbn [fold_left] in Hmax |- *.
  assert (estimate_step (0%Z, None) first
          = (if (0 <? totalCount first.1)%Z then totalCount first.1 else 0%Z,
             Some (mk_item_list (sampleCount first.1) (take (sampleCount first.1) first.2))))
    as E0 by reflexivity.
  rewrite E0 in Hmax |- *.
  destruct (estimate_step_items later
              (if (0 <? totalCount first.1)%Z then totalCount first.1 else 0%Z)
              (mk_item_list (sampleCount first.1) (take (sampleCount first.1) first.2)))
    as (il & E & Hn & Ht).
  { cbn [nitems items]. rewrite length_take. lia. }
  { cbn [nitems items]. rewrite take_take, Nat.min_id. exact Hfs. }
  { exact Hall. }
  exists il. split.
  - destruct (fold_left _ later _) as [m o]. cbn [fst snd] in *. subst o. f_equal.
    rewrite Hmax. fold (spec_max_count (first :: later)).
    pose proof (spec_max_count_nonneg (first :: later)). lia.
  - unfold spec_candidates. cbn [nitems items] in Ht.
    rewrite take_take, Nat.min_id in Ht. fold (stored_ids first) in Ht.
    rewrite <- Ht, length_take. lia.
Qed.

(** X21.  What [omnisketch_estimate] returns for a record none of whose
    attributes is dropped, on a sketch whose visited samples are in
    strictly increasing hash order: the largest total count of a visited
    cell, divided by the sample size with the fraction dropped, times the
    number of IDs the visited samples have in common. *)
Theorem omnisketch_estimate_value s record :
  shape_ok s -> 0 < sketchWidth s -> 1 <= sampleSize s ->
  numSketches s = length record ->
  Forall (fun att => att <> Dropped) record ->
  let cells := visited_cells XXH32 s (element_hash <$> record) in
  cells <> [] ->
  Forall (fun c => sampleCount c.1 <= length c.2
                   /\ StronglySorted hash_lt (stored_ids c)) cells ->
  omnisketch_estimate XXH32 (Some s) record
  = Ok (Some (Z.quot (spec_max_count cells) (Z.of_nat (sampleSize s))
              * Z.of_nat (length (spec_candidates cells)))%Z).
Proof.
  intros _ _ _ Heq Hnd cells Hne Hall. unfold omnisketch_estimate.
  rewrite Heq, Nat.eqb_refl. cbn [negb]. cbv zeta.
  assert (fold_left (estimate_attribute XXH32 s) (zip (seq 0 (length record)) record)
            (0%Z, None)
          = fold_left estimate_step cells (0%Z, None)) as ->.
  { rewrite estimate_attributes.
    - rewrite <- (visited_cells_zip s element_hash record 0). reflexivity.
    - apply Forall_forall. intros [c att] Hin.
      apply elem_of_zip_r in Hin. cbn [snd].
      exact (proj1 (Forall_forall _ _) Hnd att Hin). }
  destruct (estimate_fold cells Hne Hall) as (il & -> & Hil).
  cbn [fst snd]. rewrite Hil. reflexivity.
Qed.

End Estimate_value.

(** ** A combine whose count does not fit 32 bits *)

(** [n] more records of one row type: the count, the dimensions, the
    shape, the row sums and the samples of the counted buckets. *)
Lemma add_n_rows n :
  forall s prng r,
  numSketches s = length r -> Forall (fun att => att <> Dropped) r ->
  shape_ok s -> 0 < sketchWidth s -> rows_sum_to_count s -> never_empty s ->
  (0 <= count s)%Z -> (count s + Z.of_nat n <= INT32_MAX)%Z ->
  exists s', Regress.add_n n (Some s) prng r = Some s'
    /\ count s' = (count s + Z.of_nat n)%Z
    /\ omnisketch_equals s' s = true
    /\ shape_ok s' /\ rows_sum_to_count s' /\ never_empty s'.
Proof.
  induction n as [|n IH]; intros s prng r Hn Hnd Hsh Hw Hrows Hne H0 Hmax.
  - exists s. split; [reflexivity|]. split; [lia|].
    split; [apply omnisketch_equals_spec; repeat split; reflexivity|].
    split; [exact Hsh|]. split; [exact Hrows | exact Hne].
  - destruct (omnisketch_add_rows Regress.H s Regress.sz prng r Hsh Hw Hrows
                ltac:(unfold INT32_MAX in *; lia) (eq_sym Hn) Hnd)
      as (s1 & Hadd & Hh & Hsh1 & Hrows1).
    destruct Hh as (_ & D1 & D2 & D3 & D4 & D5 & Dc & _).
    cbn [set_count numSketches sketchWidth sketchHeight sampleSize itemSize count]
      in D1, D2, D3, D4, D5, Dc.
    pose proof (omnisketch_add_never_empty Regress.H (Some s) Regress.sz prng r s1 Hne Hadd)
      as Hne1.
    destruct (IH s1 prng r) as (s' & Hs' & Hc' & He & Hsh' & Hrows' & Hne');
      try assumption; try congruence; try lia.
    exists s'. split.
    + cbn [Regress.add_n]. unfold Regress.add at 1. rewrite Hadd. exact Hs'.
    + split; [lia|]. split; [|auto].
      apply omnisketch_equals_spec. apply omnisketch_equals_spec in He.
      destruct He as (?&?&?&?&?). repeat split; congruence.
Qed.

(** The same from the NULL state, with the sizing of the regression
    tests. *)
Lemma add_n_none_rows n prng r :
  1 <= n -> (Z.of_nat n <= INT32_MAX)%Z -> Forall (fun att => att <> Dropped) r ->
  exists s', Regress.add_n n None prng r = Some s'
    /\ count s' = Z.of_nat n
    /\ numSketches s' = length r
    /\ sketchWidth s' = 7 /\ sketchHeight s' = 6
    /\ sampleSize s' = 1024 /\ itemSize s' = 24%Z
    /\ shape_ok s' /\ rows_sum_to_count s' /\ never_empty s'.
Proof.
  intros H1 Hmax Hnd. destruct n as [|n]; [lia|].
  set (s0 := omnisketch_allocate (length r) 7 6 1024 24 prng).
  destruct (omnisketch_add_rows Regress.H s0 Regress.sz prng r) as (s1 & Hadd & Hh & Hsh1 & Hrows1).
  { apply allocate_shape. }
  { cbn. lia. }
  { apply omnisketch_allocate_rows. }
  { cbn. unfold INT32_MAX. lia. }
  { reflexivity. }
  { exact Hnd. }
  destruct Hh as (_ & D1 & D2 & D3 & D4 & D5 & Dc & _).
  cbn [s0 omnisketch_allocate set_count numSketches sketchWidth sketchHeight sampleSize
       itemSize count] in D1, D2, D3, D4, D5, Dc.
  assert (never_empty s1) as Hne1.
  { apply (omnisketch_add_never_empty Regress.H (Some s0) Regress.sz prng r s1); [|exact Hadd].
    apply omnisketch_allocate_never_empty. lia. }
  destruct (add_n_rows n s1 prng r) as (s' & Hs' & Hc' & He & Hsh' & Hrows' & Hne');
    try assumption; try congruence; try lia.
  apply omnisketch_equals_spec in He. destruct He as (E1 & E2 & E3 & E4 & E5).
  exists s'. split.
  - cbn [Regress.add_n]. unfold Regress.add at 1.
    change (omnisketch_add Regress.H None Regress.sz prng r)
      with (omnisketch_add Regress.H (Some s0) Regress.sz prng r).
    rewrite Hadd. exact Hs'.
  - split; [lia|]. do 5 (split; [congruence|]).
    split; [exact Hsh'|]. split; [exact Hrows' | exact Hne'].
Qed.

(** A worker that has aggregated [2^30] records (1, 2). *)
Lemma large_worker_rows prng :
  exists s, Regress.add_n (Z.to_nat (2 ^ 30)) None prng (Regress.rec 1 2) = Some s
    /\ count s = (2 ^ 30)%Z
    /\ numSketches s = 2
    /\ sketchWidth s = 7 /\ sketchHeight s = 6
    /\ sampleSize s = 1024 /\ itemSize s = 24%Z
    /\ shape_ok s /\ rows_sum_to_count s /\ never_empty s.
Proof.
  destruct (add_n_none_rows (Z.to_nat (2 ^ 30)) prng (Regress.rec 1 2))
    as (s & Hs & Hc & K); [lia | unfold INT32_MAX; lia | |].
  { repeat (constructor; [discriminate|]). constructor. }
  exists s. split; [exact Hs|]. split; [|exact K].
  rewrite Hc. apply Z2Nat.id. lia.
Qed.

(** C7.  Two workers aggregate [2^30] records (1, 2) each.  In both
    sketches every row of every matrix sums to the count, [2^30].
    [omnisketch_combine] succeeds on them, and in its result every row of
    every matrix sums to [2^31], but the count is [2^30 + 2^30] wrapped to
    [int32], that is [-2^31]: not the sum of the two counts, and not the
    row sum that [AssertCheckSketch], called by [omnisketch_combine] on its
    result, asserts it to be. *)
Theorem combine_count_overflows :
  let a := Regress.get Regress.large_a in
  let b := Regress.get Regress.large_b in
  let h := Regress.store2 a b in
  count a = (2 ^ 30)%Z /\ count b = (2 ^ 30)%Z
  /\ omnisketch_equals b a = true
  /\ rows_sum_to_count a /\ rows_sum_to_count b
  /\ exists c,
       omnisketch_combine Regress.H true h (Some 1%positive) (Some 2%positive)
       = Ok (Some 1%positive, <[1%positive := c]> h)
       /\ omnisketch_count c = (- 2 ^ 31)%Z
       /\ omnisketch_count c <> (omnisketch_count a + omnisketch_count b)%Z
       /\ (forall m i, m < numSketches c -> i < sketchHeight c ->
             row_count c m i = (2 ^ 31)%Z)
       /\ AssertCheckSketch c = false.
Proof.
  cbv zeta. unfold Regress.large_a, Regress.large_b.
  destruct (large_worker_rows 2024)
    as (a & -> & Ha & A1 & A2 & A3 & A4 & A5 & Sa & Ra & Na).
  destruct (large_worker_rows 2025)
    as (b & -> & Hb & B1 & B2 & B3 & B4 & B5 & Sb & Rb & Nb).
  change (Regress.get (Some a)) with a. change (Regress.get (Some b)) with b.
  assert (omnisketch_equals b a = true) as He
    by (apply omnisketch_equals_spec; repeat split; congruence).
  split; [exact Ha|]. split; [exact Hb|]. split; [exact He|].
  split; [exact Ra|]. split; [exact Rb|].
  exists (combine_sketches Regress.H a b).
  split.
  { apply omnisketch_combine_both; [discriminate | apply lookup_insert_eq | | exact He].
    unfold Regress.store2. rewrite lookup_insert_ne by discriminate.
    apply lookup_insert_eq. }
  assert (count (combine_sketches Regress.H a b) = (- 2 ^ 31)%Z) as Hc
    by (rewrite combine_sketches_count, Ha, Hb; reflexivity).
  destruct (combine_sketches_header Regress.H a b) as (D1 & D2 & D3 & _).
  destruct (combine_sketches_row_count Regress.H a b Sa Sb He Ra Rb (proj2 Nb))
    as (_ & _ & Hrows); [lia | lia | rewrite Ha, Hb; lia |].
  assert (forall m i, m < numSketches (combine_sketches Regress.H a b) ->
            i < sketchHeight (combine_sketches Regress.H a b) ->
            row_count (combine_sketches Regress.H a b) m i = (2 ^ 31)%Z) as Hrows'.
  { intros m i Hm Hi. rewrite D1 in Hm. rewrite D3 in Hi.
    rewrite Hrows, Ha, Hb by assumption. reflexivity. }
  unfold omnisketch_count.
  split; [exact Hc|]. split; [rewrite Hc, Ha, Hb; discriminate|].
  split; [exact Hrows'|].
  assert ((count (combine_sketches Regress.H a b)
           =? row_count (combine_sketches Regress.H a b) 0 0)%Z = false) as E.
  { rewrite Hc, Hrows' by (rewrite ?D1, ?D3; lia). reflexivity. }
  unfold AssertCheckSketch. rewrite D1, D3, A1, A3.
  cbn [seq forallb]. rewrite E, andb_false_r. reflexivity.
Qed.

(** ** The width computed by the sizing block *)

Module SizingFacts.

Import Reals Lra Sizing.
Local Open Scope R_scope.

Lemma ceil_spec (x : R) (n : Z) : IZR n - 1 < x <= IZR n -> ceil x = n.
Proof.
  intros [Hlo Hhi]. unfold ceil, Int_part.
  assert ((- n + 1)%Z = up (- x)) as <-; [|lia].
  apply up_tech.
  - rewrite opp_IZR. lra.
  - rewrite plus_IZR, opp_IZR. lra.
Qed.

(** One squaring of a lower bound. *)
Lemma squaring_lower (scale a : Z) (x : R) :
  (0 < scale)%Z -> (0 <= a)%Z ->
  IZR a / IZR scale <= exp x ->
  (0 <= a * a / scale)%Z /\ IZR (a * a / scale) / IZR scale <= exp (2 * x).
Proof.
  intros Hs Ha Hle.
  assert (0 < IZR scale) as Hs' by (apply IZR_lt; exact Hs).
  assert (0 <= IZR a) as Ha' by (apply IZR_le; exact Ha).
  split; [apply Z.div_pos; nia|].
  assert (IZR (a * a / scale) * IZR scale <= IZR a * IZR a) as Hq.
  { rewrite <- !mult_IZR. apply IZR_le.
    rewrite Z.mul_comm. apply Z.mul_div_le. exact Hs. }
  replace (2 * x) with (x + x) by ring. rewrite exp_plus.
  assert (0 <= IZR a / IZR scale) as H0
    by (unfold Rdiv; apply Rmult_le_pos; [assumption | left; apply Rinv_0_lt_compat; assumption]).
  apply Rle_trans with (IZR a / IZR scale * (IZR a / IZR scale)).
  - apply Rmult_le_reg_r with (IZR scale); [exact Hs'|].
    unfold Rdiv. replace (IZR (a * a / scale) * / IZR scale * IZR scale)
      with (IZR (a * a / scale)) by (field; lra).
    replace (IZR a * / IZR scale * (IZR a * / IZR scale) * IZR scale)
      with (IZR a * IZR a * / IZR scale) by (field; lra).
    apply Rmult_le_reg_r with (IZR scale); [exact Hs'|].
    replace (IZR a * IZR a * / IZR scale * IZR scale) with (IZR a * IZR a) by (field; lra).
    exact Hq.
  - apply Rmult_le_compat; assumption.
Qed.

Lemma squarings_lower (scale : Z) (k : nat) :
  (0 < scale)%Z ->
  forall (a : Z) (x : R),
  (0 <= a)%Z -> IZR a / IZR scale <= exp x ->
  IZR (squarings k scale a) / IZR scale <= exp (IZR (2 ^ Z.of_nat k) * x).
Proof.
  intros Hs. induction k as [|k IH]; intros a x Ha Hle.
  - cbn [squarings]. replace (IZR (2 ^ Z.of_nat 0) * x) with x
      by (change (2 ^ Z.of_nat 0)%Z with 1%Z; lra).
    exact Hle.
  - cbn [squarings].
    destruct (squaring_lower scale a x Hs Ha Hle) as [Ha' Hle'].
    specialize (IH (a * a / scale)%Z (2 * x) Ha' Hle').
    replace (IZR (2 ^ Z.of_nat (S k)) * x) with (IZR (2 ^ Z.of_nat k) * (2 * x)); [exact IH|].
    rewrite Nat2Z.inj_succ, Z.pow_succ_r by lia. rewrite mult_IZR. ring.
Qed.

(** [e] to seven digits. *)
Lemma exp_1_lower : 2.7182818 < exp 1.
Proof.
  pose proof (squarings_lower (2 ^ 64) 30 ltac:(lia) (2 ^ 64 + 2 ^ 34) (/ IZR (2 ^ 30))
                ltac:(lia)) as H.
  replace (IZR (2 ^ Z.of_nat 30) * / IZR (2 ^ 30)) with 1 in H.
  2: { change (Z.of_nat 30) with 30%Z. field. apply not_0_IZR. lia. }
  eapply Rlt_le_trans; [|apply H].
  - apply Rmult_lt_reg_r with (IZR (2 ^ 64)); [apply IZR_lt; lia|].
    unfold Rdiv. rewrite Rmult_assoc, Rinv_l, Rmult_1_r by (apply not_0_IZR; lia).
    match goal with |- _ < IZR ?z => let v := eval vm_compute in z in change z with v end.
    change (2 ^ 64)%Z with 18446744073709551616%Z. lra.
  - left. eapply Rle_lt_trans; [|apply exp_ineq1].
    + change (2 ^ 64 + 2 ^ 34)%Z with 18446744090889420800%Z.
      change (2 ^ 64)%Z with 18446744073709551616%Z.
      change (2 ^ 30)%Z with 1073741824%Z. lra.
    + apply Rinv_neq_0_compat, not_0_IZR. lia.
Qed.

Lemma exp_1_upper : exp 1 < 2.7182819.
Proof.
  pose proof (squarings_lower (2 ^ 64) 30 ltac:(lia) (2 ^ 64 - 2 ^ 34) (- / IZR (2 ^ 30))
                ltac:(lia)) as H.
  replace (IZR (2 ^ Z.of_nat 30) * - / IZR (2 ^ 30)) with (- 1) in H.
  2: { change (Z.of_nat 30) with 30%Z. field. apply not_0_IZR. lia. }
  assert (0.36787944 < exp (- 1)) as Hm.
  { eapply Rlt_le_trans; [|apply H].
    - apply Rmult_lt_reg_r with (IZR (2 ^ 64)); [apply IZR_lt; lia|].
      unfold Rdiv. rewrite Rmult_assoc, Rinv_l, Rmult_1_r by (apply not_0_IZR; lia).
      match goal with |- _ < IZR ?z => let v := eval vm_compute in z in change z with v end.
      change (2 ^ 64)%Z with 18446744073709551616%Z. lra.
    - left. eapply Rle_lt_trans; [|apply exp_ineq1].
      + change (2 ^ 64 - 2 ^ 34)%Z with 18446744056529682432%Z.
        change (2 ^ 64)%Z with 18446744073709551616%Z.
        change (2 ^ 30)%Z with 1073741824%Z. lra.
      + apply Ropp_neq_0_compat, Rinv_neq_0_compat, not_0_IZR. lia. }
  assert (exp 1 * exp (- 1) = 1) as He.
  { rewrite <- exp_plus. replace (1 + - 1) with 0 by ring. apply exp_0. }
  pose proof (exp_pos 1) as Hp.
  assert (exp 1 * 0.36787944 < exp 1 * exp (- 1)) as Hlt
    by (apply Rmult_lt_compat_l; assumption).
  lra.
Qed.

Lemma ceil_ln_2 : ceil (ln (2 / 1)) = 1%Z.
Proof.
  apply ceil_spec. replace (2 / 1) with 2 by lra.
  pose proof ln_lt_2 as Hlo.
  assert (ln 2 < 1) as Hhi.
  { pose proof (exp_ineq1 1 ltac:(lra)) as He.
    pose proof (ln_increasing 2 (exp 1) ltac:(lra) ltac:(lra)) as Hl.
    rewrite ln_exp in Hl. exact Hl. }
  lra.
Qed.

(** With [d = 1] the power is the base itself. *)
Lemma root_1 (eps : R) : 0 < eps -> Rpower ((eps + 1) / eps) (1 / IZR 1) = (eps + 1) / eps.
Proof.
  intros Heps. replace (1 / IZR 1) with 1 by lra. apply Rpower_1.
  apply Rdiv_lt_0_compat; lra.
Qed.

(** C8.  At [delta = 1] both the code and the specification give depth 1.
    At [epsilon = 441 / 2^22], a [double], the code computes the width with
    the constant [2.71828], [1 + ceil (25856.99...) = 25857], where the
    specification, with [e], has [1 + ceil (25857.007...) = 25858].  At
    [epsilon = 1 / 20000] both formulas give 54370, which the [int16] field
    of the header holds as [-11166]. *)
Theorem sizing_width_uses_rounded_e :
  let eps := 441 / 4194304 in
  0 < eps <= 1
  /\ sizing_d 1 = 1%Z /\ spec_D 1 = 1%Z
  /\ sizing_w eps (sizing_d 1) = 25857%Z
  /\ spec_W eps (spec_D 1) = 25858%Z
  /\ sizing_w (1 / 20000) (sizing_d 1) = 54370%Z
  /\ spec_W (1 / 20000) (spec_D 1) = 54370%Z
  /\ stored_width (sizing_w (1 / 20000) (sizing_d 1)) = (- 11166)%Z.
Proof.
  intros eps.
  pose proof exp_1_lower as Hlo. pose proof exp_1_upper as Hhi.
  assert (sizing_d 1 = 1%Z) as Hd by apply ceil_ln_2.
  assert (spec_D 1 = 1%Z) as HD by apply ceil_ln_2.
  assert (sizing_w (1 / 20000) 1 = 54370%Z) as Hw2.
  { unfold sizing_w, EULER_NUMBER. rewrite root_1 by lra.
    rewrite (ceil_spec _ 54369); [reflexivity|]. lra. }
  split; [unfold eps; lra|]. split; [exact Hd|]. split; [exact HD|].
  rewrite Hd, HD, Hw2. unfold sizing_w, spec_W, EULER_NUMBER, eps.
  rewrite !root_1 by lra.
  split; [rewrite (ceil_spec _ 25856); [reflexivity | lra]|].
  split; [rewrite (ceil_spec _ 25857); [reflexivity | lra]|].
  split; [reflexivity|].
  split; [rewrite (ceil_spec _ 54369); [reflexivity | lra]|].
  reflexivity.
Qed.

End SizingFacts.

(** ** Instances of the properties above *)

(** The row sums, row by row. *)
Lemma rows_sum_to_count_by_rows s :
  Forall (fun b => (0 <= totalCount b)%Z) (buckets s) ->
  Forall (fun a => Forall (fun i => row_count s a i = count s) (seq 0 (sketchHeight s)))
    (seq 0 (numSketches s)) ->
  rows_sum_to_count s.
Proof.
  intros Hb Hr. split; [exact Hb|]. intros a i Ha Hi.
  assert (a ∈ seq 0 (numSketches s)) as Ha' by (apply elem_of_seq; lia).
  assert (i ∈ seq 0 (sketchHeight s)) as Hi' by (apply elem_of_seq; lia).
  exact (proj1 (Forall_forall _ _) (proj1 (Forall_forall _ _) Hr a Ha') i Hi').
Qed.

Ltac rows_by_compute := apply rows_sum_to_count_by_rows; by_compute.

(** The sketch of the regression tests, freshly allocated. *)
Lemma omnisketch_allocate_empty_and_checked_witness :
  let s := omnisketch_allocate 2 7 6 1024 24 2024 in
  AssertCheckSketch s = true
  /\ shape_ok s
  /\ omnisketch_count s = 0%Z
  /\ rows_sum_to_count s
  /\ Forall (fun c => stored_ids c = [] /\ totalCount c.1 = 0%Z) (cells s)
  /\ (1 <= 1024 -> sketch_wf Regress.H s /\ sketch_basic Regress.H s).
Proof.
  apply (omnisketch_allocate_empty_and_checked Regress.H 2 7 6 1024 24 2024).
  unfold allocate_fits. by_compute.
Defined.

(** Two cells of the first partial state of the regression scenario. *)
Lemma bucket_index_in_range_and_injective_witness :
  let s := Regress.get Regress.partial_a in
  bucket_column Regress.H s 1 0 < sketchWidth s
  /\ cell_index Regress.H s 0 1 0 < length (buckets s)
  /\ cell_index Regress.H s 0 1 0 < length (samples s)
  /\ (cell_index Regress.H s 0 1 0 = cell_index Regress.H s 1 2 1 ->
      0 = 1 /\ 0 = 1
      /\ bucket_column Regress.H s 1 0 = bucket_column Regress.H s 2 1).
Proof.
  intros s.
  apply (bucket_index_in_range_and_injective Regress.H s 0 0 1 1 1 2).
  - unfold shape_ok. by_compute.
  - by_compute.
  - by_compute.
  - by_compute.
  - by_compute.
Defined.

(** Three rows of the same row type. *)
Lemma aggregate_counts_its_rows_witness :
  let row := Regress.rec 1 2 in
  let rows := [Regress.rec 3 4; Regress.rec 5 6] in
  aggregate_add Regress.H None Regress.sz 2024 [] = Ok None
  /\ exists s, aggregate_add Regress.H None Regress.sz 2024 (row :: rows) = Ok (Some s)
       /\ omnisketch_count s = 3%Z
       /\ numSketches s = 2
       /\ sketchWidth s = 7 /\ sketchHeight s = 6
       /\ sampleSize s = 1024 /\ itemSize s = 24%Z
       /\ seed s = 2024%Z.
Proof.
  intros row rows.
  apply (aggregate_counts_its_rows Regress.H Regress.sz 2024 row rows).
  - unfold sizing_fits, allocate_fits. by_compute.
  - by_compute.
  - by_compute.
Defined.

(** Two rows of two attributes, then a row of one. *)
Lemma aggregate_rejects_other_row_type_witness :
  aggregate_add Regress.H None Regress.sz 2024
    (Regress.rec 1 2 :: [Regress.rec 3 4] ++ [Value 5] :: [Regress.rec 1 2])
  = Err ColumnMismatch.
Proof.
  apply (aggregate_rejects_other_row_type Regress.H Regress.sz 2024
           (Regress.rec 1 2) [Regress.rec 3 4] [Value 5] [Regress.rec 1 2]).
  - unfold sizing_fits, allocate_fits. by_compute.
  - by_compute.
  - by_compute.
  - by_compute.
Defined.

(** A third ID offered to a sample of two slots that is full. *)
Lemma omnisketch_sample_add_keeps_smallest_hashes_witness :
  let sk := omnisketch_allocate 1 1 1 2 24 0 in
  let c1 := omnisketch_sample_add Regress.H sk (mk_bucket 0 0 0 0 false) [0; 0]%Z 5 in
  let c2 := omnisketch_sample_add Regress.H sk c1.1 c1.2 6 in
  let r := omnisketch_sample_add Regress.H sk c2.1 c2.2 7 in
  sampleCount c2.1 = 2
  /\ cell_basic Regress.H 2 r
  /\ 0 < sampleCount r.1
  /\ sampleCount r.1 = Nat.min 2 (S (sampleCount c2.1))
  /\ totalCount r.1 = totalCount c2.1 /\ isSorted r.1 = isSorted c2.1
  /\ merge_sort Z.le (Regress.H_s <$> stored_ids r)
     = take 2 (merge_sort Z.le (Regress.H_s 7 :: (Regress.H_s <$> stored_ids (c2.1, c2.2)))).
Proof.
  intros sk c1 c2 r. split; [vm_compute; reflexivity|].
  apply (omnisketch_sample_add_keeps_smallest_hashes Regress.H sk c2.1 c2.2 7).
  - by_compute.
  - by_compute.
Defined.

(** One more record added to the first partial state. *)
Lemma omnisketch_add_keeps_bucket_invariant_witness :
  let s := Regress.get Regress.partial_a in
  let s' := Regress.get (Regress.add (Some s) 0 (Regress.rec 3 4)) in
  sketch_basic Regress.H s /\ sketch_basic Regress.H s'.
Proof.
  intros s s'.
  assert (sketch_basic Regress.H s) as Hs by by_compute.
  split; [exact Hs|].
  apply (omnisketch_add_keeps_bucket_invariant Regress.H (Some s) Regress.sz 0
           (Regress.rec 3 4) s').
  - split; [exact Hs | by_compute].
  - vm_compute. reflexivity.
Defined.

Lemma omnisketch_add_conserves_counts_witness :
  let s := Regress.get Regress.partial_a in
  rows_sum_to_count s
  /\ exists s', omnisketch_add Regress.H (Some s) Regress.sz 0 (Regress.rec 3 4) = Ok s'
       /\ count s' = 2%Z
       /\ shape_ok s' /\ rows_sum_to_count s'.
Proof.
  intros s.
  assert (rows_sum_to_count s) as Hr by rows_by_compute.
  split; [exact Hr|].
  apply (omnisketch_add_conserves_counts Regress.H s Regress.sz 0 (Regress.rec 3 4)).
  - unfold shape_ok. by_compute.
  - by_compute.
  - exact Hr.
  - by_compute.
  - by_compute.
  - repeat (constructor; [discriminate|]). constructor.
Defined.

(** Finalize on the sketch of three records. *)
Lemma omnisketch_finalize_only_reorders_witness :
  let s := Regress.get Regress.three in
  let fs := omnisketch_finalize Regress.H s in
  rows_sum_to_count s
  /\ fs <> s
  /\ same_header s fs /\ shape_ok fs
  /\ Forall2 (fun c c' =>
                totalCount c'.1 = totalCount c.1
                /\ sampleCount c'.1 = sampleCount c.1
                /\ maxHash c'.1 = maxHash c.1
                /\ length c'.2 = length c.2
                /\ stored_ids c' ≡ₚ stored_ids c
                /\ drop (sampleCount c.1) c'.2 = drop (sampleCount c.1) c.2)
       (cells s) (cells fs)
  /\ (forall a i, row_count fs a i = row_count s a i)
  /\ rows_sum_to_count fs.
Proof.
  intros s fs.
  assert (rows_sum_to_count s) as Hr by rows_by_compute.
  split; [exact Hr|]. split; [by_compute|].
  destruct (omnisketch_finalize_only_reorders Regress.H s) as (H1 & H2 & H3 & H4 & H5).
  - unfold shape_ok. by_compute.
  - by_compute.
  - exact (conj H1 (conj H2 (conj H3 (conj H4 (H5 Hr))))).
Defined.

(** The cells of the value 1 in the two partial states. *)
Lemma omnisketch_merge_buckets_keeps_smallest_witness :
  let d := Regress.cell_of (Regress.get Regress.partial_a) 0 0 1 in
  let s := Regress.cell_of (Regress.get Regress.partial_b) 0 0 1 in
  let r := omnisketch_merge_buckets Regress.H d.1 s.1 d.2 s.2 1024 in
  sampleCount s.1 = 1
  /\ cell_wf Regress.H 1024 r
  /\ content Regress.H r
     = take 1024 (pg_qsort cmp_item_hash (content Regress.H d ++ content Regress.H s))
  /\ sampleCount r.1 = Nat.min 1024 (sampleCount d.1 + sampleCount s.1)
  /\ totalCount r.1 = uint32 (totalCount d.1 + totalCount s.1)
  /\ isSorted r.1 = true
  /\ maxIndex r.1 = sampleCount r.1 - 1.
Proof.
  intros d s r.
  assert (sampleCount s.1 = 1) as Hs by (vm_compute; reflexivity).
  split; [exact Hs|].
  destruct (omnisketch_merge_buckets_keeps_smallest Regress.H 1024 d s) as (H1 & _ & H3).
  - lia.
  - by_compute.
  - by_compute.
  - split; [exact H1|]. apply H3. rewrite Hs. lia.
Defined.

Lemma finalize_and_combine_keep_invariant_witness :
  let dst := Regress.get Regress.partial_a in
  let src := Regress.get Regress.partial_b in
  let fin := omnisketch_finalize Regress.H in
  let comb := combine_sketches Regress.H in
  sketch_wf Regress.H (fin dst)
  /\ sketch_wf Regress.H (comb dst src)
  /\ sketch_wf Regress.H (fin (comb dst src))
  /\ omnisketch_equals (comb dst src) dst = true
  /\ omnisketch_equals (fin dst) dst = true.
Proof.
  intros dst src fin comb.
  apply (finalize_and_combine_keep_invariant Regress.H dst src).
  - by_compute.
  - by_compute.
  - vm_compute. reflexivity.
Defined.

(** A freshly allocated sketch combined into the first partial state. *)
Lemma omnisketch_combine_empty_is_neutral_witness :
  let dst := Regress.get Regress.partial_a in
  let src := omnisketch_allocate 2 7 6 1024 24 0 in
  let h := Regress.store2 dst src in
  omnisketch_combine Regress.H true h (Some 1%positive) (Some 2%positive)
  = Ok (Some 1%positive, <[1%positive := set_count dst (int32 (count dst + count src))]> h)
  /\ omnisketch_combine Regress.H true h (Some 1%positive) (Some 2%positive)
     = Ok (Some 1%positive, h).
Proof.
  intros dst src h.
  destruct (omnisketch_combine_empty_is_neutral Regress.H h 1%positive 2%positive dst src)
    as (H1 & H2).
  - apply lookup_insert_eq.
  - unfold h, Regress.store2. rewrite lookup_insert_ne by discriminate.
    apply lookup_insert_eq.
  - discriminate.
  - vm_compute. reflexivity.
  - unfold shape_ok. by_compute.
  - unfold shape_ok. by_compute.
  - by_compute.
  - split; [exact H1|]. apply H2; [reflexivity | by_compute].
Defined.

(** The two partial states of the regression scenario. *)
Lemma omnisketch_combine_conserves_counts_witness :
  let dst := Regress.get Regress.partial_a in
  let src := Regress.get Regress.partial_b in
  let h := Regress.store2 dst src in
  exists h' c,
    omnisketch_combine Regress.H true h (Some 1%positive) (Some 2%positive)
    = Ok (Some 1%positive, h')
    /\ h' !! 1%positive = Some c
    /\ omnisketch_count c = 2%Z
    /\ shape_ok c /\ rows_sum_to_count c.
Proof.
  intros dst src h.
  apply (omnisketch_combine_conserves_counts Regress.H h 1%positive 2%positive dst src).
  - apply lookup_insert_eq.
  - unfold h, Regress.store2. rewrite lookup_insert_ne by discriminate.
    apply lookup_insert_eq.
  - discriminate.
  - vm_compute. reflexivity.
  - unfold shape_ok. by_compute.
  - unfold shape_ok. by_compute.
  - rows_by_compute.
  - rows_by_compute.
  - unfold nonempty_if_counted. by_compute.
  - by_compute.
  - by_compute.
  - by_compute.
Defined.

(** An item list of three IDs against a sample whose first two slots
    are used. *)
Lemma intersect_items_keeps_common_ids_witness :
  let il := mk_item_list 3 [30; 10; 20; 0]%Z in
  let tmp := [20; 30; 10]%Z in
  let r := intersect_items Regress.H il 2 tmp in
  nitems r <= 3
  /\ length (items r) = 4
  /\ take (nitems r) (items r) `sublist_of` [30; 10; 20]%Z
  /\ Forall (fun x => x ∈ [20; 30]%Z) (take (nitems r) (items r))
  /\ (2 = 0 -> nitems r = 0).
Proof.
  intros il tmp r.
  apply (intersect_items_keeps_common_ids Regress.H il 2 tmp).
  - cbn. lia.
  - cbn. lia.
Defined.

(** The IDs of a finalized cell of three records against the sample of a
    merged cell that holds two IDs, one of them in common. *)
Lemma intersect_items_exact_on_sorted_witness :
  let il := mk_item_list 3 [-164032193; -407270630; 514478713; 0]%Z in
  let tmp := [1735066482; 514478713; 0]%Z in
  let r := intersect_items Regress.H il 2 tmp in
  take (nitems r) (items r) = [514478713]%Z
  /\ take (nitems r) (items r)
     = filter (fun x => x ∈ take 2 tmp) (take (nitems il) (items il)).
Proof.
  intros il tmp r. split; [vm_compute; reflexivity|].
  apply (intersect_items_exact_on_sorted Regress.H il 2 tmp).
  - cbn. lia.
  - cbn. lia.
  - by_compute.
  - by_compute.
Defined.

(** The estimate of the record (1, 2) on the small sketch. *)
Lemma omnisketch_estimate_is_bounded_witness :
  omnisketch_estimate Regress.H (Some Small.sketch) [Value 1; Value 2] = Ok (Some 2%Z)
  /\ (0 <= 2 <= 5)%Z.
Proof.
  assert (omnisketch_estimate Regress.H (Some Small.sketch) [Value 1; Value 2]
          = Ok (Some 2%Z)) as E by (vm_compute; reflexivity).
  split; [exact E|].
  apply (omnisketch_estimate_is_bounded Regress.H Small.sketch [Value 1; Value 2] 2 5).
  - by_compute.
  - lia.
  - by_compute.
  - exact E.
Defined.

(** The value 9 was never added: its cell in row 1 of the first matrix
    is empty. *)
Lemma omnisketch_estimate_zero_on_empty_bucket_witness :
  omnisketch_estimate Regress.H (Some Small.sketch) [Value 9; Value 2] = Ok (Some 0%Z).
Proof.
  apply (omnisketch_estimate_zero_on_empty_bucket Regress.H Small.sketch
           [Value 9; Value 2] 0 (Value 9) 1).
  - unfold shape_ok. by_compute.
  - by_compute.
  - by_compute.
  - reflexivity.
  - reflexivity.
  - discriminate.
  - by_compute.
  - vm_compute. reflexivity.
Defined.

(** The second record of the first worker. *)
Lemma omnisketch_add_writes_the_cells_of_the_record_witness :
  let s := Regress.get Regress.partial_a in
  let record := Regress.rec 3 4 in
  let s' := Regress.get (Regress.add (Some s) 0 record) in
  let id := uint32 (Regress.H (uint32 (int32 (count s + 1))) (seed s)) in
  (forall c att i, record !! c = Some att -> att <> Dropped -> i < sketchHeight s ->
     cells s' !!! cell_index Regress.H s c (element_hash att) i
     = count_and_offer Regress.H s id (cells s !!! cell_index Regress.H s c (element_hash att) i))
  /\ (forall idx,
        (forall c att i, record !! c = Some att -> att <> Dropped -> i < sketchHeight s ->
           idx <> cell_index Regress.H s c (element_hash att) i) ->
        cells s' !!! idx = cells s !!! idx).
Proof.
  intros s record s'.
  apply (omnisketch_add_writes_the_cells_of_the_record Regress.H s Regress.sz 0 record s').
  - unfold shape_ok. by_compute.
  - by_compute.
  - vm_compute. reflexivity.
Defined.

(** The estimate of the record (1, 2) on the small sketch: the largest
    total count is 5, the sample size 2, and one ID is in all four
    visited samples. *)
Lemma omnisketch_estimate_value_witness :
  let cells := visited_cells Regress.H Small.sketch (element_hash <$> [Value 1; Value 2]) in
  spec_max_count cells = 5%Z
  /\ length (spec_candidates cells) = 1
  /\ omnisketch_estimate Regress.H (Some Small.sketch) [Value 1; Value 2]
     = Ok (Some (Z.quot (spec_max_count cells) (Z.of_nat (sampleSize Small.sketch))
                 * Z.of_nat (length (spec_candidates cells)))%Z).
Proof.
  intros cells.
  split; [vm_compute; reflexivity|]. split; [vm_compute; reflexivity|].
  apply (omnisketch_estimate_value Regress.H Small.sketch [Value 1; Value 2]).
  - unfold shape_ok. by_compute.
  - by_compute.
  - by_compute.
  - reflexivity.
  - repeat (constructor; [discriminate|]). constructor.
  - intros E. apply (f_equal length) in E. vm_compute in E. discriminate.
  - by_compute.
Defined.
